(** * A shallow embedding of sudoku-solver.py

    The solver models generalised Sudoku (an n x n grid tiled by m x k
    sub-grids) as a constraint satisfaction problem.  This file embeds the
    class [SudokuCSP] and the search drivers of [sudoku-solver.py] and
    proves properties of them.

    Conventions of the embedding:
    - Python integers are [Z]; [/] on integers (Python 2) is floor division,
      that is [Z.div].
    - a Python [set] is a [gset]; a list of lists is a [list (list Z)].
    - a call that raises (IndexError, KeyError, ZeroDivisionError,
      ValueError, TypeError) returns [None]; the same holds for a loop that
      runs out of the fuel it was given.
    - a method that assigns to a field of [self] returns the new engine next
      to its result; a function that writes into the board returns the board
      as it is afterwards. *)

From stdpp Require Import gmap list list_numbers option sorting.

Open Scope Z_scope.

(** ** Python primitives *)

(** [range(stop)] and [range(start, stop)]. *)
Definition range2 (start stop : Z) : list Z := seqZ start (stop - start).
Definition range (stop : Z) : list Z := range2 0 stop.

(** [range(start, stop, step)]; a zero step raises ValueError. *)
Definition range3 (start stop step : Z) : option (list Z) :=
  if decide (step = 0) then None
  else if decide (0 < step)
  then Some ((λ q, start + q * step) <$> seqZ 0 ((stop - start + step - 1) `div` step))
  else Some ((λ q, start + q * step) <$> seqZ 0 ((start - stop - step - 1) `div` (- step))).

(** [l[i]]: negative indices count from the end, anything else out of range
    raises IndexError. *)
Definition getitem {A} (l : list A) (i : Z) : option A :=
  if decide (0 ≤ i) then l !! Z.to_nat i
  else if decide (- Z.of_nat (length l) ≤ i)
       then l !! Z.to_nat (Z.of_nat (length l) + i)
       else None.

(** [l[i] = x]. *)
Definition setitem {A} (l : list A) (i : Z) (x : A) : option (list A) :=
  if decide (0 ≤ i)
  then (if decide (i < Z.of_nat (length l)) then Some (<[Z.to_nat i := x]> l) else None)
  else if decide (- Z.of_nat (length l) ≤ i)
       then Some (<[Z.to_nat (Z.of_nat (length l) + i) := x]> l)
       else None.

(** Iteration over a set.  Python fixes the order by the layout of the hash
    table; the proofs below only use that every element is visited once. *)
Definition set_iter `{Countable A} (s : gset A) : list A := elements s.

(** [len(s)]. *)
Definition len_set `{Countable A} (s : gset A) : Z := Z.of_nat (size s).

(** ** The board *)

Notation cell := (Z * Z)%type (only parsing).
Notation board := (list (list Z)) (only parsing).

(** [g[i][j]] on a list of lists. *)
Definition grid_get {A} (g : list (list A)) (i j : Z) : option A :=
  row ← getitem g i; getitem row j.

(** [g[i][j] = v]: the row object [g[i]] is updated in place. *)
Definition grid_set {A} (g : list (list A)) (i j : Z) (v : A) : option (list (list A)) :=
  row ← getitem g i;
  row' ← setitem row j v;
  setitem g i row'.

Definition board_get (b : board) (i j : Z) : option Z := grid_get b i j.
Definition board_set (b : board) (i j : Z) (v : Z) : option board := grid_set b i j v.

(** ** The engine *)

Record SudokuCSP := mkCSP {
  n : Z;
  m : Z;
  k : Z;
  domain : gset Z;
  reducedDomains : option (list (list (gset Z)));
  checks : Z;
  initialBoard : option board
}.

Definition set_checks (self : SudokuCSP) (c : Z) : SudokuCSP :=
  mkCSP (n self) (m self) (k self) (domain self) (reducedDomains self) c (initialBoard self).

Definition set_reducedDomains (self : SudokuCSP) (rd : option (list (list (gset Z)))) : SudokuCSP :=
  mkCSP (n self) (m self) (k self) (domain self) rd (checks self) (initialBoard self).

(** Truth value of an optional list argument: [None] and [[]] are false. *)
Definition truthy {A} (o : option (list A)) : bool :=
  match o with
  | Some (_ :: _) => true
  | _ => false
  end.

(** [SudokuCSP.__init__(n, m, k, initialBoard = None)]. *)
Definition init (n0 m0 k0 : Z) (initialBoard0 : option board) : SudokuCSP :=
  mkCSP n0 m0 k0 (list_to_set (range2 1 (n0 + 1))) None 0
        (if truthy initialBoard0 then initialBoard0 else None).

Definition getDomain (self : SudokuCSP) : gset Z := domain self.
Definition getChecks (self : SudokuCSP) : Z := checks self.

(** Origin of the sub-grid of a row or column index: [i / m * m]. *)
Definition sb (i d : Z) : option Z :=
  if decide (d = 0) then None else Some (i `div` d * d).

(** [SudokuCSP.getNeighbours(i, j)]; [set.remove] raises KeyError when the
    element is absent. *)
Definition getNeighbours (self : SudokuCSP) (i j : Z) : option (gset cell) :=
  let neighbours : gset cell := ∅ in
  let neighbours :=
    foldl (λ s x, {[ (x, j) ]} ∪ ({[ (i, x) ]} ∪ s)) neighbours (range (n self)) in
  sb_i ← sb i (m self);
  sb_j ← sb j (k self);
  let neighbours :=
    foldl (λ s si,
             foldl (λ s sj, {[ (si, sj) ]} ∪ s) s (range2 sb_j (sb_j + k self)))
          neighbours (range2 sb_i (sb_i + m self)) in
  if decide ((i, j) ∈ neighbours) then Some (neighbours ∖ {[ (i, j) ]}) else None.

(** Adds [c] to [s] when [board[c]] is the unassigned sentinel. *)
Definition add_if_unassigned (b : board) (c : cell) (s : gset cell) : option (gset cell) :=
  v ← board_get b c.1 c.2;
  Some (if decide (v = -1) then {[ c ]} ∪ s else s).

(** A [for] loop whose body may raise. *)
Fixpoint for_each {A S} (body : S → A → option S) (s : S) (l : list A) : option S :=
  match l with
  | [] => Some s
  | x :: l' => s' ← body s x; for_each body s' l'
  end.

(** [SudokuCSP.getUnassignedNeighbours(board, i, j)]. *)
Definition getUnassignedNeighbours (self : SudokuCSP) (b : board) (i j : Z)
  : option (gset cell) :=
  let neighbours : gset cell := ∅ in
  neighbours ←
    for_each (λ s x, s1 ← add_if_unassigned b (i, x) s; add_if_unassigned b (x, j) s1)
             neighbours (range (n self));
  sb_i ← sb i (m self);
  sb_j ← sb j (k self);
  neighbours ←
    for_each (λ s si,
                for_each (λ s sj, add_if_unassigned b (si, sj) s)
                         s (range2 sb_j (sb_j + k self)))
             neighbours (range2 sb_i (sb_i + m self));
  Some (neighbours ∖ {[ (i, j) ]}).

(** The set of values held by the cells of [cs]: the [appeared] set that
    [check] and [getLegalValues] build. *)
Definition appeared_of (b : board) (cs : list cell) : option (gset Z) :=
  for_each (λ (s : gset Z) (c : cell), v ← board_get b c.1 c.2; Some ({[ v ]} ∪ s)) ∅ cs.

(** [SudokuCSP.check(board, i, j, incrCheckCount = True)]. *)
Definition check (self : SudokuCSP) (b : board) (i j : Z) (incrCheckCount : bool)
  : option (bool * SudokuCSP) :=
  let self := if incrCheckCount then set_checks self (checks self + 1) else self in
  neighbours ← getNeighbours self i j;
  appeared ← appeared_of b (set_iter neighbours);
  v ← board_get b i j;
  Some (bool_decide (v ∉ appeared), self).

(** A loop whose body may leave the function with [return False]:
    the body yields [false] to return, [true] to go on. *)
Fixpoint all_ok {A} (body : A → option bool) (l : list A) : option bool :=
  match l with
  | [] => Some true
  | x :: l' => r ← body x; if r : bool then all_ok body l' else Some false
  end.

(** The same with the engine threaded through the body. *)
Fixpoint all_ok_st {A S} (body : S → A → option (bool * S)) (s : S) (l : list A)
  : option (bool * S) :=
  match l with
  | [] => Some (true, s)
  | x :: l' =>
      '(r, s') ← body s x;
      if r : bool then all_ok_st body s' l' else Some (false, s')
  end.

(** [SudokuCSP.getLegalValues(board, i, j)]. *)
Definition getLegalValues (self : SudokuCSP) (b : board) (i j : Z) : option (gset Z) :=
  neighbours ← getNeighbours self i j;
  appeared ← appeared_of b (set_iter neighbours);
  legalValues ←
    (if truthy (reducedDomains self)
     then rd ← reducedDomains self; grid_get rd i j
     else Some (domain self));
  Some (legalValues ∖ appeared).

(** [SudokuCSP.checkNeighboursConsistent(board, pos_i, pos_j)]. *)
Definition checkNeighboursConsistent (self : SudokuCSP) (b : board) (pos_i pos_j : Z)
  : option bool :=
  neighbours ← getUnassignedNeighbours self b pos_i pos_j;
  all_ok (λ c : cell,
            lv ← getLegalValues self b c.1 c.2;
            Some (negb (bool_decide (len_set lv = 0))))
         (set_iter neighbours).

(** The duplicate scan of [checkAll] over the digits of a row:
    [false] as soon as a digit has appeared before. *)
Fixpoint scan_digits (appeared : gset Z) (ds : list Z) : bool :=
  match ds with
  | [] => true
  | digit :: ds' =>
      if decide (digit ∈ appeared) then false
      else scan_digits ({[ digit ]} ∪ appeared) ds'
  end.

(** The same scan over cells that are read from the board one by one. *)
Fixpoint scan_cells (b : board) (appeared : gset Z) (cs : list cell) : option bool :=
  match cs with
  | [] => Some true
  | c :: cs' =>
      digit ← board_get b c.1 c.2;
      if decide (digit ∈ appeared) then Some false
      else scan_cells b ({[ digit ]} ∪ appeared) cs'
  end.

(** The cells [(si, sj)] of the nested loops over [range(i, i + h)] and
    [range(j, j + w)], in loop order. *)
Definition subgrid_cells (i j h w : Z) : list cell :=
  si ← range2 i (i + h); (λ sj, (si, sj)) <$> range2 j (j + w).

(** The cells of the nested loops over [range(n)] and [range(n)]. *)
Definition all_cells (size : Z) : list cell := subgrid_cells 0 0 size size.

(** [SudokuCSP.checkAll(board)]. *)
Definition checkAll (self : SudokuCSP) (b : board) : option (bool * SudokuCSP) :=
  let self := set_checks self (checks self + 1) in
  r ← all_ok (λ i,
                row ← getitem b i;
                if scan_digits ∅ row
                then scan_cells b ∅ ((λ j, (j, i)) <$> range (n self))
                else Some false)
             (range (n self));
  if r : bool then
    rows ← range3 0 (n self) (m self);
    r' ← all_ok (λ i,
                   cols ← range3 0 (n self) (k self);
                   all_ok (λ j, scan_cells b ∅ (subgrid_cells i j (m self) (k self))) cols)
                rows;
    Some (r', self)
  else Some (false, self).

(** [SudokuCSP.isSatisfiable()]. *)
Definition isSatisfiable (self : SudokuCSP) : option (bool * SudokuCSP) :=
  if negb (truthy (initialBoard self)) then Some (false, self)
  else
    let self := set_checks self (checks self + 1) in
    all_ok_st (λ self (c : cell),
                 ib ← initialBoard self;
                 v ← board_get ib c.1 c.2;
                 if decide (v ≠ -1)
                 then '(r, self') ← check self ib c.1 c.2 false; Some (r, self')
                 else Some (true, self))
              self (all_cells (n self)).

Definition getReducedDomain (self : SudokuCSP) (i j : Z) : option (gset Z) :=
  rd ← reducedDomains self; grid_get rd i j.

(** *** Arc consistency *)

Notation arc := ((Z * Z) * (Z * Z))%type (only parsing).

(** The first loop nest of [computeReducedDomains] at one cell: an open cell
    contributes its arcs, a given cell gets the singleton domain. *)
Definition init_cell (self : SudokuCSP) (ib : board)
    (st : list (list (gset Z)) * list arc) (c : cell)
  : option (list (list (gset Z)) * list arc) :=
  let '(rd, arcs) := st in
  v ← board_get ib c.1 c.2;
  if decide (v = -1)
  then neighbours ← getNeighbours self c.1 c.2;
       Some (rd, arcs ++ ((λ y, (c, y)) <$> set_iter neighbours))
  else rd' ← grid_set rd c.1 c.2 {[ v ]};
       Some (rd', arcs).

(** The inner loop of the worklist: [xval] leaves the domain of [x] when
    the domain of [y] without it is empty.  The flag records a removal. *)
Definition revise_value (x y : cell) (st : list (list (gset Z)) * bool) (xval : Z)
  : option (list (list (gset Z)) * bool) :=
  let '(rd, removed) := st in
  dy ← grid_get rd y.1 y.2;
  if decide (len_set (dy ∖ {[ xval ]}) = 0)
  then dx ← grid_get rd x.1 x.2;
       if decide (xval ∈ dx)
       then rd' ← grid_set rd x.1 x.2 (dx ∖ {[ xval ]}); Some (rd', true)
       else None
  else Some (rd, removed).

(** One turn of the [while] loop on the arc [(x, y)] popped from the front. *)
Definition ac_step (self : SudokuCSP) (rd : list (list (gset Z))) (x y : cell) (arcs : list arc)
  : option (list (list (gset Z)) * list arc) :=
  dx ← grid_get rd x.1 x.2;
  let xvals := set_iter dx in
  '(rd', removed) ← for_each (revise_value x y) (rd, false) xvals;
  if removed : bool
  then neighbours ← getNeighbours self x.1 x.2;
       Some (rd', arcs ++ ((λ y', (x, y')) <$> set_iter neighbours))
  else Some (rd', arcs).

(** The [while len(arcs) != 0] loop, with fuel for its turns. *)
Fixpoint ac_loop (fuel : nat) (self : SudokuCSP) (rd : list (list (gset Z))) (arcs : list arc)
  : option (list (list (gset Z))) :=
  match arcs with
  | [] => Some rd
  | (x, y) :: arcs' =>
      match fuel with
      | O => None
      | S fuel' =>
          '(rd', arcs'') ← ac_step self rd x y arcs';
          ac_loop fuel' self rd' arcs''
      end
  end.

(** The state on entry to the worklist loop. *)
Definition ac_init (self : SudokuCSP) : option (list (list (gset Z)) * list arc) :=
  let rd := (λ _, (λ _, domain self) <$> range (n self)) <$> range (n self) in
  for_each (λ st c, ib ← initialBoard self; init_cell self ib st c)
           (rd, []) (all_cells (n self)).

(** [SudokuCSP.computeReducedDomains()] with fuel for the worklist loop. *)
Definition computeReducedDomains_fuel (fuel : nat) (self : SudokuCSP) : option SudokuCSP :=
  '(rd, arcs) ← ac_init self;
  rd' ← ac_loop fuel self rd arcs;
  Some (set_reducedDomains self (Some rd')).

(** The sum of a measure over the entries of a grid. *)
Definition grid_sum {A} (f : A → nat) (g : list (list A)) : nat :=
  sum_list ((λ row : list A, sum_list (f <$> row)) <$> g).

(** The sum of the sizes of all domains. *)
Definition total_size (rd : list (list (gset Z))) : nat := grid_sum size rd.

(** Fuel that always suffices: every turn either shortens the worklist or
    removes a value and adds the arcs of one cell. *)
Definition ac_fuel (self : SudokuCSP) (rd : list (list (gset Z))) (arcs : list arc) : nat :=
  (length arcs + total_size rd * Z.to_nat (2 * n self + m self * k self))%nat.

(** [SudokuCSP.computeReducedDomains()]. *)
Definition computeReducedDomains (self : SudokuCSP) : option SudokuCSP :=
  '(rd, arcs) ← ac_init self;
  rd' ← ac_loop (ac_fuel self rd arcs) self rd arcs;
  Some (set_reducedDomains self (Some rd')).

(** *** Heuristics *)

(** [SudokuCSP.getOpenCellMRV(board)]. *)
Definition getOpenCellMRV (self : SudokuCSP) (b : board) : option cell :=
  st ← for_each (λ (st : Z * cell) (c : cell),
                   v ← board_get b c.1 c.2;
                   if decide (v = -1)
                   then lv ← getLegalValues self b c.1 c.2;
                        let size := len_set lv in
                        if decide (size < st.1) then Some (size, c) else Some st
                   else Some st)
                (n self + 1, (-1, -1)) (all_cells (n self));
  Some st.2.

(** Order of Python tuples [(size, value)]. *)
Definition tuple_le (a b : Z * Z) : Prop :=
  a.1 < b.1 ∨ (a.1 = b.1 ∧ a.2 ≤ b.2).

(** The order [list.sort(reverse=True)] sorts by. *)
Definition tuple_ge (a b : Z * Z) : Prop := tuple_le b a.

Global Instance tuple_le_dec a b : Decision (tuple_le a b).
Proof. unfold tuple_le. apply _. Defined.

Global Instance tuple_ge_dec a b : Decision (tuple_ge a b).
Proof. unfold tuple_ge. apply _. Defined.

(** The sum [sizeNeighboursDomain] that [getLCVList] computes for [value]. *)
Definition lcv_sum (self : SudokuCSP) (b : board) (neighbours : list cell) (value : Z)
  : option Z :=
  for_each (λ sizeNeighboursDomain (c : cell),
              legalNeighbourValues ← getLegalValues self b c.1 c.2;
              Some (sizeNeighboursDomain + len_set (legalNeighbourValues ∖ {[ value ]})))
           0 neighbours.

(** [SudokuCSP.getLCVList(board, pos_i, pos_j)]. *)
Definition getLCVList (self : SudokuCSP) (b : board) (pos_i pos_j : Z) : option (list Z) :=
  legalValues ← getLegalValues self b pos_i pos_j;
  neighbours ← getUnassignedNeighbours self b pos_i pos_j;
  lcvValues ← mapM (λ value,
                      sizeNeighboursDomain ← lcv_sum self b (set_iter neighbours) value;
                      Some (sizeNeighboursDomain, value))
                   (set_iter legalValues);
  Some (snd <$> merge_sort tuple_ge lcvValues).

(** The scan of [getFirstOpenCell]. *)
Fixpoint first_open (b : board) (cs : list cell) : option cell :=
  match cs with
  | [] => Some (-1, -1)
  | c :: cs' =>
      v ← board_get b c.1 c.2;
      if decide (v = -1) then Some c else first_open b cs'
  end.

(** [SudokuCSP.getFirstOpenCell(board)]. *)
Definition getFirstOpenCell (self : SudokuCSP) (b : board) : option cell :=
  first_open b (all_cells (n self)).

(** *** Min-conflicts repair *)

(** The random source: an infinite sequence of raw draws.  A function that
    draws takes the position of the next draw and returns the new one. *)
Definition rng : Type := nat → nat.

(** [random.randint(a, b)]; an empty range raises ValueError. *)
Definition randint (a b' : Z) (draw : nat) : option Z :=
  if decide (a ≤ b') then Some (a + Z.of_nat draw `mod` (b' - a + 1)) else None.

(** [random.choice(seq)]; an empty sequence raises IndexError. *)
Definition choice {A} (seq : list A) (draw : nat) : option A :=
  seq !! (draw `mod` length seq)%nat.

(** [SudokuCSP.randomInitializeBoard(board)]. *)
Definition randomInitializeBoard (self : SudokuCSP) (rand : rng) (pos : nat) (b : board)
  : option (board * nat) :=
  for_each (λ (st : board * nat) (c : cell),
              v ← board_get st.1 c.1 c.2;
              if decide (v = -1)
              then r ← randint 1 (n self) (rand st.2);
                   b' ← board_set st.1 c.1 c.2 r;
                   Some (b', S st.2)
              else Some st)
           (b, pos) (all_cells (n self)).

(** The list [conflictingCells] of [swapMinConflicts]. *)
Definition conflictingCells (self : SudokuCSP) (b : board) : option (list cell * SudokuCSP) :=
  for_each (λ (st : list cell * SudokuCSP) (c : cell),
              ib ← initialBoard st.2;
              v ← board_get ib c.1 c.2;
              if decide (v = -1)
              then '(ok, self') ← check st.2 b c.1 c.2 false;
                   if ok : bool then Some (st.1, self') else Some (st.1 ++ [c], self')
              else Some st)
           ([], self) (all_cells (n self)).

(** The number of occurrences of [value] in a list: [list.count]. *)
Definition count (value : Z) (l : list Z) : Z :=
  Z.of_nat (length (filter (λ v, v = value) l)).

(** [SudokuCSP.swapMinConflicts(board)], with the draw of [random.choice].
    The result is the selected cell, the board afterwards and the engine. *)
Definition swapMinConflicts (self : SudokuCSP) (draw : nat) (b : board)
  : option (cell * board * SudokuCSP) :=
  '(cs, self) ← conflictingCells self b;
  '(selectedI, selectedJ) ← choice cs draw;
  neighbours ← getNeighbours self selectedI selectedJ;
  neighbourValues ← mapM (λ c : cell, board_get b c.1 c.2) (set_iter neighbours);
  let '(minConflicts, minConflictValue) :=
    foldl (λ (st : Z * Z) value,
             let conflicts := count value neighbourValues in
             if decide (conflicts < st.1) then (conflicts, value) else st)
          (n self ^ 2, -1) (set_iter (domain self)) in
  b' ← board_set b selectedI selectedJ minConflictValue;
  Some ((selectedI, selectedJ), b', self).

(** The loop of [minConflict]: at most [iters] repairs. *)
Fixpoint minConflict_loop (iters : nat) (self : SudokuCSP) (rand : rng) (pos : nat) (b : board)
  : option (board * SudokuCSP) :=
  match iters with
  | O => Some (b, self)
  | S iters' =>
      '(ok, self1) ← checkAll self b;
      if ok : bool then Some (b, self1)
      else '(_, b', self2) ← swapMinConflicts self1 (rand pos) b;
           minConflict_loop iters' self2 rand (S pos) b'
  end.

(** [minConflict], from the parsed puzzle on. *)
Definition minConflict (n0 m0 k0 : Z) (b : board) (rand : rng) : option (board * Z) :=
  let csp := init n0 m0 k0 (Some b) in
  '(b1, pos) ← randomInitializeBoard csp rand 0%nat b;
  '(b2, csp') ← minConflict_loop 5000 csp rand pos b1;
  Some (b2, getChecks csp').

(** ** Search drivers *)

(** The result of a driver: the pair [(result, resultBoard)] it returns,
    the board object as the call leaves it, and the engine. *)
Record outcome := mkOutcome {
  result : bool;
  resultBoard : board;
  boardAfter : board;
  engineAfter : SudokuCSP
}.

Section Backtracking.

(** The four recursive drivers have one shape and differ in how the next
    cell is selected, in the values tried and their order, and in the test
    an assignment has to pass. *)
Variable select : SudokuCSP → board → option cell.
Variable candidates : SudokuCSP → board → Z → Z → option (list Z).
Variable admissible : SudokuCSP → board → Z → Z → option (bool * SudokuCSP).

(** The [for value in ...] loop at the cell [(i, j)]; [recurse] is the
    recursive call. *)
Fixpoint try_values (recurse : board → SudokuCSP → option outcome) (i j : Z)
    (values : list Z) (b : board) (csp : SudokuCSP) : option outcome :=
  match values with
  | [] => Some (mkOutcome false [[]] b csp)
  | value :: values' =>
      b1 ← board_set b i j value;
      '(ok, csp1) ← admissible csp b1 i j;
      if ok : bool
      then r ← recurse b1 csp1;
           if result r then Some r
           else b2 ← board_set (boardAfter r) i j (-1);
                try_values recurse i j values' b2 (engineAfter r)
      else b2 ← board_set b1 i j (-1);
           try_values recurse i j values' b2 csp1
  end.

(** The recursive driver; [fuel] bounds the depth of the recursion. *)
Fixpoint backtrack (fuel : nat) (b : board) (csp : SudokuCSP) : option outcome :=
  match fuel with
  | O => None
  | S fuel' =>
      '(i, j) ← select csp b;
      if decide (i = -1 ∧ j = -1) then Some (mkOutcome true b b csp)
      else values ← candidates csp b i j;
           try_values (backtrack fuel') i j values b csp
  end.

End Backtracking.

(** [backtrackingRecursive(board, csp)]. *)
Definition backtrackingRecursive : nat → board → SudokuCSP → option outcome :=
  backtrack getFirstOpenCell
            (λ csp b i j, Some (set_iter (getDomain csp)))
            (λ csp b i j, check csp b i j true).

(** [backtrackingMRVRecursive(board, csp)]. *)
Definition backtrackingMRVRecursive : nat → board → SudokuCSP → option outcome :=
  backtrack getOpenCellMRV getLCVList (λ csp b i j, check csp b i j true).

(** The test of [backtrackingMRVfwdRecursive]:
    [csp.check(board, i, j) and csp.checkNeighboursConsistent(board, i, j)]. *)
Definition check_fwd (csp : SudokuCSP) (b : board) (i j : Z) : option (bool * SudokuCSP) :=
  '(ok, csp1) ← check csp b i j true;
  if ok : bool
  then ok' ← checkNeighboursConsistent csp1 b i j; Some (ok', csp1)
  else Some (false, csp1).

(** [backtrackingMRVfwdRecursive(board, csp)]. *)
Definition backtrackingMRVfwdRecursive : nat → board → SudokuCSP → option outcome :=
  backtrack getOpenCellMRV getLCVList check_fwd.

(** [backtrackingMRVcpRecursive(board, csp)]. *)
Definition backtrackingMRVcpRecursive : nat → board → SudokuCSP → option outcome :=
  backtrack getOpenCellMRV getLCVList (λ csp b i j, check csp b i j true).

(** ** Entry points of the search

    The entry points from the parsed puzzle [(n, m, k, board)] on: each
    builds the engine, runs its driver and returns the result board with the
    number of consistency checks. *)

(** [backtracking]. *)
Definition backtracking (n0 m0 k0 : Z) (b : board) (fuel : nat) : option (board * Z) :=
  let csp := init n0 m0 k0 None in
  o ← backtrackingRecursive fuel b csp;
  Some (resultBoard o, getChecks (engineAfter o)).

(** [backtrackingMRV]. *)
Definition backtrackingMRV (n0 m0 k0 : Z) (b : board) (fuel : nat) : option (board * Z) :=
  let csp := init n0 m0 k0 None in
  o ← backtrackingMRVRecursive fuel b csp;
  Some (resultBoard o, getChecks (engineAfter o)).

(** [backtrackingMRVfwd]. *)
Definition backtrackingMRVfwd (n0 m0 k0 : Z) (b : board) (fuel : nat) : option (board * Z) :=
  let csp := init n0 m0 k0 None in
  o ← backtrackingMRVfwdRecursive fuel b csp;
  Some (resultBoard o, getChecks (engineAfter o)).

(** [backtrackingMRVcp]: the engine is built with the board as its initial
    board and the reduced domains are computed before the search. *)
Definition backtrackingMRVcp (n0 m0 k0 : Z) (b : board) (fuel : nat) : option (board * Z) :=
  let csp := init n0 m0 k0 (Some b) in
  csp ← computeReducedDomains csp;
  o ← backtrackingMRVcpRecursive fuel b csp;
  Some (resultBoard o, getChecks (engineAfter o)).

(** ** The operations of the engine

    A call of a method of the engine, with its arguments, and the engine the
    call leaves behind when it returns. *)
Inductive call :=
| CallGetDomain
| CallGetChecks
| CallGetNeighbours (i j : Z)
| CallGetUnassignedNeighbours (b : board) (i j : Z)
| CallCheck (b : board) (i j : Z) (incrCheckCount : bool)
| CallCheckNeighboursConsistent (b : board) (pos_i pos_j : Z)
| CallCheckAll (b : board)
| CallIsSatisfiable
| CallGetLegalValues (b : board) (i j : Z)
| CallComputeReducedDomains
| CallGetReducedDomain (i j : Z)
| CallGetOpenCellMRV (b : board)
| CallGetLCVList (b : board) (pos_i pos_j : Z)
| CallGetFirstOpenCell (b : board)
| CallRandomInitializeBoard (rand : rng) (pos : nat) (b : board)
| CallSwapMinConflicts (draw : nat) (b : board).

Definition engine_after (c : call) (self : SudokuCSP) : option SudokuCSP :=
  match c with
  | CallGetDomain => Some self
  | CallGetChecks => Some self
  | CallGetNeighbours i j => _ ← getNeighbours self i j; Some self
  | CallGetUnassignedNeighbours b i j => _ ← getUnassignedNeighbours self b i j; Some self
  | CallCheck b i j incr => '(_, self') ← check self b i j incr; Some self'
  | CallCheckNeighboursConsistent b i j => _ ← checkNeighboursConsistent self b i j; Some self
  | CallCheckAll b => '(_, self') ← checkAll self b; Some self'
  | CallIsSatisfiable => '(_, self') ← isSatisfiable self; Some self'
  | CallGetLegalValues b i j => _ ← getLegalValues self b i j; Some self
  | CallComputeReducedDomains => computeReducedDomains self
  | CallGetReducedDomain i j => _ ← getReducedDomain self i j; Some self
  | CallGetOpenCellMRV b => _ ← getOpenCellMRV self b; Some self
  | CallGetLCVList b i j => _ ← getLCVList self b i j; Some self
  | CallGetFirstOpenCell b => _ ← getFirstOpenCell self b; Some self
  | CallRandomInitializeBoard rand pos b => _ ← randomInitializeBoard self rand pos b; Some self
  | CallSwapMinConflicts draw b => '(_, _, self') ← swapMinConflicts self draw b; Some self'
  end.

(** What a call adds to the check counter, where the method fixes it. *)
Definition counter_step (c : call) : option Z :=
  match c with
  | CallCheck _ _ _ incr => Some (if incr then 1 else 0)
  | CallCheckAll _ => Some 1
  | CallGetLegalValues _ _ _ | CallGetLCVList _ _ _ | CallGetNeighbours _ _
  | CallGetUnassignedNeighbours _ _ _ | CallGetOpenCellMRV _ | CallGetFirstOpenCell _ => Some 0
  | _ => None
  end.

(** ** Vocabulary of the properties *)

(** The puzzle parameters the parser accepts: positive, with [n % m == 0]
    and [n % k == 0]. *)
Definition valid_config (self : SudokuCSP) : Prop :=
  0 < n self ∧ 0 < m self ∧ 0 < k self ∧
  n self `mod` m self = 0 ∧ n self `mod` k self = 0.

(** [(i, j)] is a cell of a grid of side [size]. *)
Definition in_grid (size : Z) (c : cell) : Prop :=
  0 ≤ c.1 < size ∧ 0 ≤ c.2 < size.

(** A grid of [size] rows of [size] entries. *)
Definition square {A} (size : Z) (g : list (list A)) : Prop :=
  Z.of_nat (length g) = size ∧ Forall (λ row, Z.of_nat (length row) = size) g.

(** Two cells share a row, a column or a sub-grid. *)
Definition related (self : SudokuCSP) (c c' : cell) : Prop :=
  c.1 = c'.1 ∨ c.2 = c'.2 ∨
  (c.1 `div` m self = c'.1 `div` m self ∧ c.2 `div` k self = c'.2 `div` k self).

(** The indices of [range(lo, hi)] other than [x]. *)
Definition others (lo hi x : Z) : list Z := range2 lo x ++ range2 (x + 1) hi.

(** The neighbours of [(i, j)] listed once each: the rest of the row, the
    rest of the column, and the cells of the sub-grid off both. *)
Definition neighbour_list (self : SudokuCSP) (i j : Z) : list cell :=
  ((λ x, (i, x)) <$> others 0 (n self) j) ++
  ((λ x, (x, j)) <$> others 0 (n self) i) ++
  (a ← others (i `div` m self * m self) (i `div` m self * m self + m self) i;
   (λ b, (a, b)) <$> others (j `div` k self * k self) (j `div` k self * k self + k self) j).

(** [c'] is a neighbour of [c] in the constraint graph. *)
Definition neighbour (self : SudokuCSP) (c c' : cell) : Prop :=
  c' ≠ c ∧ in_grid (n self) c' ∧ related self c c'.

(** The engine after [check]: the counter moves when counting is on. *)
Definition counted (self : SudokuCSP) (incrCheckCount : bool) : SudokuCSP :=
  if incrCheckCount then set_checks self (checks self + 1) else self.

(** The values the board holds at the cells of [cs], in order. *)
Definition cell_values (b : board) (cs : list cell) : list Z :=
  omap (λ c : cell, board_get b c.1 c.2) cs.

(** The cells of row [i] and of column [j]. *)
Definition row_cells (size i : Z) : list cell := (λ j, (i, j)) <$> range size.
Definition col_cells (size j : Z) : list cell := (λ i, (i, j)) <$> range size.

(** [u] lists the cells of a row, of a column or of an m x k sub-grid. *)
Definition unit_cells (self : SudokuCSP) (u : list cell) : Prop :=
  (∃ i, 0 ≤ i < n self ∧ u = row_cells (n self) i) ∨
  (∃ j, 0 ≤ j < n self ∧ u = col_cells (n self) j) ∨
  (∃ p q, 0 ≤ p < n self `div` m self ∧ 0 ≤ q < n self `div` k self ∧
          u = subgrid_cells (p * m self) (q * k self) (m self) (k self)).

(** Every row, every column and every sub-grid is free of duplicates. *)
Definition units_no_duplicate (self : SudokuCSP) (b : board) : Prop :=
  ∀ u, unit_cells self u → NoDup (cell_values b u).

(** Every row, every column and every sub-grid is a permutation of 1..n. *)
Definition units_permutation (self : SudokuCSP) (b : board) : Prop :=
  ∀ u, unit_cells self u → cell_values b u ≡ₚ range2 1 (n self + 1).

(** Every cell of the board holds a value of [1, n]. *)
Definition filled (self : SudokuCSP) (b : board) : Prop :=
  Forall (Forall (λ v, 1 ≤ v ≤ n self)) b.

(** The reduced domains, when there are any, form an n x n grid. *)
Definition domains_ok (self : SudokuCSP) : Prop :=
  ∀ rd, reducedDomains self = Some rd → square (n self) rd.

(** The domain of a cell: [self.reducedDomains[i][j] if self.reducedDomains
    else self.domain]. *)
Definition cell_domain (self : SudokuCSP) (i j : Z) : option (gset Z) :=
  if truthy (reducedDomains self)
  then rd ← reducedDomains self; grid_get rd i j
  else Some (domain self).

(** The sum of the claim about [getLCVList]: over the unassigned
    neighbours, the size of the neighbour's legal-value set without
    [value]. *)
Definition lcv_score (self : SudokuCSP) (b : board) (neighbours : gset cell) (value : Z) : Z :=
  foldr Z.add 0
        ((λ c : cell, default 0 (lv ← getLegalValues self b c.1 c.2;
                                 Some (len_set (lv ∖ {[ value ]}))))
           <$> set_iter neighbours).

(** Every entry of the initial board is the sentinel or a value of [1, n]. *)
Definition givens_valid (self : SudokuCSP) (ib : board) : Prop :=
  Forall (Forall (λ v, v = -1 ∨ 1 ≤ v ≤ n self)) ib.

(** The arcs of a worklist join cells of the grid and start at cells that
    are open in the initial board. *)
Definition arcs_ok (self : SudokuCSP) (ib : board) (arcs : list arc) : Prop :=
  ∀ x y, (x, y) ∈ arcs →
    in_grid (n self) x ∧ in_grid (n self) y ∧ board_get ib x.1 x.2 = Some (-1).

(** The arcs from [x] to the cells of [neighbours], in iteration order. *)
Definition arcs_from (x : cell) (neighbours : gset cell) : list arc :=
  (λ y, (x, y)) <$> set_iter neighbours.

(** No cell of the board holds the sentinel. *)
Definition complete (b : board) : Prop := Forall (Forall (λ v, v ≠ -1)) b.

(** The number of cells that hold the sentinel. *)
Definition open_count (b : board) : nat :=
  grid_sum (λ v, if decide (v = -1) then 1%nat else 0%nat) b.

(** An engine as the entry points build it: a valid configuration, reduced
    domains (when present) of the shape of the grid, and no candidate value
    outside 1..n. *)
Definition engine_ok (self : SudokuCSP) : Prop :=
  valid_config self ∧ domains_ok self ∧
  (∀ v, v ∈ domain self → 1 ≤ v ≤ n self) ∧
  (∀ rd i j d v, reducedDomains self = Some rd → grid_get rd i j = Some d →
                 v ∈ d → 1 ≤ v ≤ n self).

(** The recursive drivers, each with the cell selection it uses. *)
Definition driver_family
  : list ((nat → board → SudokuCSP → option outcome) * (SudokuCSP → board → option cell)) :=
  [ (backtrackingRecursive, getFirstOpenCell);
    (backtrackingMRVRecursive, getOpenCellMRV);
    (backtrackingMRVfwdRecursive, getOpenCellMRV);
    (backtrackingMRVcpRecursive, getOpenCellMRV) ].

(** What a driver leaves behind: the engine differs from the one it was
    given in the counter only, which has not gone down; a success returns
    the working board itself, which is complete; a failure returns [[[]]],
    leaves the board as it was on entry, and only happens on a board with an
    open cell. *)
Definition driver_post (b : board) (csp : SudokuCSP) (o : outcome) : Prop :=
  (∃ x, engineAfter o = set_checks csp x ∧ checks csp ≤ x) ∧
  if result o
  then resultBoard o = boardAfter o ∧ square (n csp) (boardAfter o) ∧ complete (boardAfter o)
  else boardAfter o = b ∧ resultBoard o = [[]] ∧ ¬ complete b.

(** No two neighbouring cells hold the same assigned value: the constraint
    of the puzzle on a board that may still have open cells. *)
Definition consistent (self : SudokuCSP) (b : board) : Prop :=
  ∀ c c' v, in_grid (n self) c → neighbour self c c' → v ≠ -1 →
            board_get b c.1 c.2 = Some v → board_get b c'.1 c'.2 = Some v → False.

(** [c] comes before [c'] in the row-major scan of the board. *)
Definition before (c c' : cell) : Prop :=
  c.1 < c'.1 ∨ (c.1 = c'.1 ∧ c.2 < c'.2).

(** [b'] keeps every assigned cell of [b]. *)
Definition extends (sz : Z) (b b' : board) : Prop :=
  ∀ c v, in_grid sz c → board_get b c.1 c.2 = Some v → v ≠ -1 →
         board_get b' c.1 c.2 = Some v.

(** A solution of the puzzle of the engine: a full n x n board without
    conflict, every value taken from the domain and, when the engine holds
    reduced domains, from the reduced domain of its cell. *)
Definition solution (self : SudokuCSP) (s : board) : Prop :=
  square (n self) s ∧ complete s ∧ consistent self s ∧
  ∀ c v, in_grid (n self) c → board_get s c.1 c.2 = Some v →
         v ∈ domain self ∧ ∃ d, cell_domain self c.1 c.2 = Some d ∧ v ∈ d.

(** Some solution keeps the assigned cells of [b]. *)
Definition solvable (self : SudokuCSP) (b : board) : Prop :=
  ∃ s, solution self s ∧ extends (n self) b s.

(** Every cell of the grid holds the sentinel or a value of [1, n]. *)
Definition values_ok (sz : Z) (b : board) : Prop :=
  ∀ c v, in_grid sz c → board_get b c.1 c.2 = Some v → v = -1 ∨ 1 ≤ v ≤ sz.

(** The relation of a board of the search to the board on entry: the
    assigned cells are kept, and with them the absence of conflict and the
    range of the values. *)
Definition reached (self : SudokuCSP) (b0 b : board) : Prop :=
  extends (n self) b0 b ∧
  (values_ok (n self) b0 → consistent self b0 → values_ok (n self) b ∧ consistent self b).

(** The domains [rd] admit the board [s]: the value of every cell lies in
    the domain of the cell. *)
Definition admits (sz : Z) (rd : list (list (gset Z))) (s : board) : Prop :=
  ∀ c v d, in_grid sz c → board_get s c.1 c.2 = Some v →
           grid_get rd c.1 c.2 = Some d → v ∈ d.

(** The four entry points of the backtracking search. *)
Definition entry_points : list (Z → Z → Z → board → nat → option (board * Z)) :=
  [ backtracking; backtrackingMRV; backtrackingMRVfwd; backtrackingMRVcp ].

(** ** Properties *)

(** *** Python primitives *)

Lemma elem_of_range2 start stop x : x ∈ range2 start stop ↔ start ≤ x < stop.
Proof. unfold range2. rewrite elem_of_seqZ. lia. Qed.

Lemma elem_of_range stop x : x ∈ range stop ↔ 0 ≤ x < stop.
Proof. apply elem_of_range2. Qed.

Lemma NoDup_range2 start stop : NoDup (range2 start stop).
Proof. apply NoDup_seqZ. Qed.

Lemma set_iter_elem_of `{Countable A} (s : gset A) x : x ∈ set_iter s ↔ x ∈ s.
Proof. apply elem_of_elements. Qed.

Lemma set_iter_NoDup `{Countable A} (s : gset A) : NoDup (set_iter s).
Proof. apply NoDup_elements. Qed.

Lemma set_iter_length `{Countable A} (s : gset A) : length (set_iter s) = size s.
Proof. reflexivity. Qed.

Lemma getitem_Some {A} (l : list A) i :
  0 ≤ i < Z.of_nat (length l) → ∃ x, getitem l i = Some x ∧ l !! Z.to_nat i = Some x.
Proof.
  intros Hi. unfold getitem. rewrite decide_True by lia.
  destruct (lookup_lt_is_Some_2 l (Z.to_nat i)) as [x Hx]; [lia|]. eauto.
Qed.

Lemma getitem_nonneg {A} (l : list A) i : 0 ≤ i → getitem l i = l !! Z.to_nat i.
Proof. intros. unfold getitem. by rewrite decide_True. Qed.

Lemma setitem_nonneg {A} (l : list A) i x :
  0 ≤ i < Z.of_nat (length l) → setitem l i x = Some (<[Z.to_nat i := x]> l).
Proof. intros. unfold setitem. rewrite !decide_True by lia. done. Qed.

Lemma elem_of_foldl_add `{Countable C} {A} (f : gset C → A → gset C) (P : A → C → Prop) :
  (∀ s a y, y ∈ f s a ↔ y ∈ s ∨ P a y) →
  ∀ l s y, y ∈ foldl f s l ↔ y ∈ s ∨ ∃ a, a ∈ l ∧ P a y.
Proof.
  intros Hf l. induction l as [|a l IH]; intros s y; simpl.
  - split; [auto|]. intros [?|(a & Ha & _)]; [done|]. by apply elem_of_nil in Ha.
  - rewrite IH, Hf. split.
    + intros [[?|?]|(a' & ? & ?)]; [by left|right..].
      * exists a. split; [left|done].
      * exists a'. split; [by right|done].
    + intros [?|(a' & Ha' & ?)]; [by left; left|].
      apply elem_of_cons in Ha' as [->|?]; [by left; right|].
      right. by exists a'.
Qed.

(** *** The constraint graph *)

Lemma sb_Some i d : d ≠ 0 → sb i d = Some (i `div` d * d).
Proof. intros. unfold sb. by rewrite decide_False. Qed.

Lemma block_bounds i d : 0 < d → i `div` d * d ≤ i < i `div` d * d + d.
Proof.
  intros Hd. pose proof (Z.div_mod i d ltac:(lia)).
  pose proof (Z.mod_pos_bound i d Hd). lia.
Qed.

Lemma block_iff i a d :
  0 < d → (i `div` d * d ≤ a < i `div` d * d + d ↔ a `div` d = i `div` d).
Proof.
  intros Hd. split.
  - intros Ha. symmetry. apply (Z.div_unique_pos a d _ (a - i `div` d * d)); lia.
  - intros <-. by apply block_bounds.
Qed.

(** A cell in the block of an in-range cell is in range. *)
Lemma block_in_range size i a d :
  0 < d → size `mod` d = 0 → 0 ≤ i < size → a `div` d = i `div` d → 0 ≤ a < size.
Proof.
  intros Hd Hmod Hi Ha.
  apply Z.mod_divide in Hmod as [q Hq]; [|lia].
  assert (0 ≤ i `div` d < q) as Hiq.
  { split; [apply Z.div_pos; lia|]. apply Z.div_lt_upper_bound; [lia|]. lia. }
  rewrite <- Ha in Hiq.
  pose proof (block_bounds a d Hd). nia.
Qed.

(** What [getNeighbours] returns, by membership. *)
Lemma getNeighbours_Some self i j :
  0 < m self → 0 < k self →
  ∃ s, getNeighbours self i j = Some s ∧
       ∀ a b, (a, b) ∈ s ↔
         (a, b) ≠ (i, j) ∧
         ((a = i ∧ 0 ≤ b < n self) ∨ (b = j ∧ 0 ≤ a < n self) ∨
          (a `div` m self = i `div` m self ∧ b `div` k self = j `div` k self)).
Proof.
  intros Hm Hk. unfold getNeighbours.
  rewrite !sb_Some by lia. simpl.
  set (rowcol := foldl _ ∅ (range (n self))).
  set (nb := foldl _ rowcol _).
  assert (Hrc : ∀ y, y ∈ rowcol ↔
            ∃ x, x ∈ range (n self) ∧ (y = (x, j) ∨ y = (i, x))).
  { intros y. unfold rowcol.
    rewrite (elem_of_foldl_add _ (λ x y, y = (x, j) ∨ y = (i, x))) by set_solver.
    set_solver. }
  assert (Hnb : ∀ y, y ∈ nb ↔ y ∈ rowcol ∨
            (y.1 `div` m self = i `div` m self ∧ y.2 `div` k self = j `div` k self)).
  { intros y. unfold nb.
    rewrite (elem_of_foldl_add _
      (λ si y, ∃ sj, sj ∈ range2 (j `div` k self * k self) (j `div` k self * k self + k self)
                     ∧ y = (si, sj))).
    - apply or_iff_compat_l. split.
      + intros (si & Hsi & sj & Hsj & ->). simpl.
        apply elem_of_range2 in Hsi, Hsj. by rewrite <- !block_iff.
      + intros [H1 H2]. destruct y as [a b]; simpl in *.
        exists a. split; [apply elem_of_range2; by rewrite block_iff|].
        exists b. split; [apply elem_of_range2; by rewrite block_iff|done].
    - intros s a y'.
      rewrite (elem_of_foldl_add _ (λ sj y, y = (a, sj))) by set_solver.
      naive_solver. }
  assert (Hin : (i, j) ∈ nb) by (apply Hnb; right; done).
  rewrite decide_True by done.
  eexists; split; [done|]. intros a b.
  rewrite elem_of_difference, Hnb, Hrc, elem_of_singleton. simpl.
  setoid_rewrite elem_of_range. naive_solver.
Qed.

Lemma elem_of_others lo hi x y :
  lo ≤ x < hi → y ∈ others lo hi x ↔ lo ≤ y < hi ∧ y ≠ x.
Proof. intros. unfold others. rewrite elem_of_app, !elem_of_range2. lia. Qed.

Lemma others_ne lo hi x y : y ∈ others lo hi x → y ≠ x.
Proof. unfold others. rewrite elem_of_app, !elem_of_range2. lia. Qed.

Lemma NoDup_others lo hi x : NoDup (others lo hi x).
Proof.
  unfold others. apply NoDup_app. split_and!; [apply NoDup_range2| |apply NoDup_range2].
  intros y. rewrite !elem_of_range2. lia.
Qed.

Lemma length_others lo hi x :
  lo ≤ x < hi → Z.of_nat (length (others lo hi x)) = hi - lo - 1.
Proof.
  intros. unfold others, range2. rewrite length_app, !length_seqZ. lia.
Qed.

Lemma length_bind_fmap {A B C} (f : A → B → C) (l1 : list A) (l2 : list B) :
  length (a ← l1; f a <$> l2) = (length l1 * length l2)%nat.
Proof.
  induction l1 as [|a l1 IH]; csimpl; [done|].
  by rewrite length_app, length_fmap, IH.
Qed.

Lemma elem_of_neighbour_list self i j a b :
  valid_config self → in_grid (n self) (i, j) →
  (a, b) ∈ neighbour_list self i j ↔
    (a, b) ≠ (i, j) ∧
    ((a = i ∧ 0 ≤ b < n self) ∨ (b = j ∧ 0 ≤ a < n self) ∨
     (a `div` m self = i `div` m self ∧ b `div` k self = j `div` k self)).
Proof.
  intros (Hn & Hm & Hk & Hnm & Hnk) [Hi Hj]. simpl in *.
  unfold neighbour_list. rewrite !elem_of_app, !list_elem_of_fmap, list_elem_of_bind.
  setoid_rewrite list_elem_of_fmap.
  assert (Hr : ∀ y, y ∈ others 0 (n self) j ↔ 0 ≤ y < n self ∧ y ≠ j)
    by (intros; by apply elem_of_others).
  assert (Hc : ∀ y, y ∈ others 0 (n self) i ↔ 0 ≤ y < n self ∧ y ≠ i)
    by (intros; by apply elem_of_others).
  assert (Hbi : ∀ y, y ∈ others (i `div` m self * m self) (i `div` m self * m self + m self) i
                     ↔ y `div` m self = i `div` m self ∧ y ≠ i).
  { intros. rewrite elem_of_others by (by apply block_bounds). by rewrite block_iff. }
  assert (Hbj : ∀ y, y ∈ others (j `div` k self * k self) (j `div` k self * k self + k self) j
                     ↔ y `div` k self = j `div` k self ∧ y ≠ j).
  { intros. rewrite elem_of_others by (by apply block_bounds). by rewrite block_iff. }
  setoid_rewrite Hr. setoid_rewrite Hc. setoid_rewrite Hbi. setoid_rewrite Hbj.
  clear Hr Hc Hbi Hbj.
  split.
  - intros [(x & [= -> ->] & ? & ?)|[(x & [= -> ->] & ? & ?)|(x & (y & [= -> ->] & ? & ?) & ? & ?)]];
      (split; [congruence|]); auto.
  - intros [Hne Hc].
    destruct (decide (a = i)) as [->|Hai].
    { left. exists b. split; [done|].
      assert (b ≠ j) by congruence.
      destruct Hc as [[_ ?]|[[? ?]|[_ ?]]]; [done|done|].
      split; [|done]. by apply (block_in_range (n self) j b (k self)). }
    destruct (decide (b = j)) as [->|Hbj].
    { right; left. exists a. split; [done|].
      destruct Hc as [[? ?]|[[_ ?]|[? _]]]; [done|done|].
      split; [|done]. by apply (block_in_range (n self) i a (m self)). }
    right; right. destruct Hc as [[? _]|[[? _]|[? ?]]]; [done..|].
    exists a. split; [|done]. exists b. done.
Qed.

Lemma NoDup_neighbour_list self i j : NoDup (neighbour_list self i j).
Proof.
  unfold neighbour_list. apply NoDup_app. split_and!.
  - apply NoDup_fmap_2; [intros ?? [=]; done|apply NoDup_others].
  - intros [a b]. rewrite list_elem_of_fmap, elem_of_app, list_elem_of_fmap, list_elem_of_bind.
    setoid_rewrite list_elem_of_fmap.
    intros (x & [= -> ->] & Hx%others_ne)
           [(y & [= -> ->] & Hy%others_ne)|(y & (z & [= -> ->] & Hz%others_ne) & Hy%others_ne)];
      done.
  - apply NoDup_app. split_and!.
    + apply NoDup_fmap_2; [intros ?? [=]; done|apply NoDup_others].
    + intros [a b]. rewrite list_elem_of_fmap, list_elem_of_bind.
      setoid_rewrite list_elem_of_fmap.
      intros (x & [= -> ->] & Hx%others_ne) (y & (z & [= -> ->] & Hz%others_ne) & Hy%others_ne).
      done.
    + apply NoDup_bind; [| |apply NoDup_others].
      * intros x1 x2 [a b] _ _. rewrite !list_elem_of_fmap.
        intros (? & [= -> ->] & _) (? & [= -> _] & _). done.
      * intros x _. apply NoDup_fmap_2; [intros ?? [=]; done|apply NoDup_others].
Qed.

Lemma length_neighbour_list self i j :
  valid_config self → in_grid (n self) (i, j) →
  Z.of_nat (length (neighbour_list self i j)) =
    2 * (n self - 1) + (m self - 1) * (k self - 1).
Proof.
  intros (Hn & Hm & Hk & Hnm & Hnk) [Hi Hj]. simpl in *.
  unfold neighbour_list.
  rewrite !length_app, !length_fmap, length_bind_fmap.
  rewrite !Nat2Z.inj_add, Nat2Z.inj_mul, !length_others;
    [lia|by apply block_bounds..|done|done].
Qed.

(** The neighbour set is the set of [neighbour_list]. *)
Lemma getNeighbours_list self i j :
  valid_config self → in_grid (n self) (i, j) →
  getNeighbours self i j = Some (list_to_set (neighbour_list self i j)).
Proof.
  intros Hv Hij.
  destruct (getNeighbours_Some self i j) as (s & -> & Hs); [apply Hv..|].
  f_equal. apply set_eq. intros [a b].
  by rewrite elem_of_list_to_set, Hs, elem_of_neighbour_list.
Qed.

(** C4: for valid (n, m, k) and a cell (i, j) of the grid, getNeighbours
    returns a set that does not contain (i, j), that is symmetric over the
    cells of the grid, and whose size is 2(n-1) + (m-1)(k-1); no board is
    involved. *)
Theorem getNeighbours_irreflexive_symmetric_size self i j :
  valid_config self → in_grid (n self) (i, j) →
  ∃ s, getNeighbours self i j = Some s ∧
       (i, j) ∉ s ∧
       (∀ a b, in_grid (n self) (a, b) →
          ((a, b) ∈ s ↔ ∃ s', getNeighbours self a b = Some s' ∧ (i, j) ∈ s')) ∧
       len_set s = 2 * (n self - 1) + (m self - 1) * (k self - 1).
Proof.
  intros Hv Hij.
  destruct (getNeighbours_Some self i j) as (s & Hs & Hmem); [apply Hv..|].
  exists s. split_and!; [done| | |].
  - rewrite Hmem. naive_solver.
  - intros a b Hab.
    destruct (getNeighbours_Some self a b) as (s' & Hs' & Hmem'); [apply Hv..|].
    rewrite Hmem. destruct Hij, Hab; simpl in *. split.
    + intros [Hne Hc]. exists s'. split; [done|]. apply Hmem'.
      split; [congruence|]. naive_solver lia.
    + intros (s'' & Hs'' & Hin). rewrite Hs' in Hs''. injection Hs'' as <-.
      apply Hmem' in Hin as [Hne Hc]. split; [congruence|]. naive_solver lia.
  - rewrite getNeighbours_list in Hs by done. injection Hs as <-.
    unfold len_set. rewrite size_list_to_set by apply NoDup_neighbour_list.
    by apply length_neighbour_list.
Qed.

Lemma getNeighbours_irreflexive_symmetric_size_witness :
  ∃ s, getNeighbours (init 4 2 2 None) 1 2 = Some s ∧
       (1, 2) ∉ s ∧
       (∀ a b, in_grid 4 (a, b) →
          ((a, b) ∈ s ↔ ∃ s', getNeighbours (init 4 2 2 None) a b = Some s' ∧ (1, 2) ∈ s')) ∧
       len_set s = 2 * (4 - 1) + (2 - 1) * (2 - 1).
Proof.
  apply (getNeighbours_irreflexive_symmetric_size (init 4 2 2 None) 1 2).
  - unfold valid_config. simpl. split_and!; [lia..|reflexivity|reflexivity].
  - unfold in_grid. simpl. lia.
Defined.

(** Over a valid configuration the neighbour set holds the neighbours. *)
Lemma getNeighbours_neighbour self c :
  valid_config self → in_grid (n self) c →
  ∃ s, getNeighbours self c.1 c.2 = Some s ∧ ∀ c', c' ∈ s ↔ neighbour self c c'.
Proof.
  intros Hv Hc. destruct c as [i j].
  destruct (getNeighbours_Some self i j) as (s & Hs & Hmem); [apply Hv..|].
  exists s. split; [done|]. intros [a b]. rewrite Hmem.
  destruct Hv as (Hn & Hm & Hk & Hnm & Hnk), Hc as [Hi Hj].
  unfold neighbour, related, in_grid. simpl in *. split.
  - intros [Hne [[-> ?]|[[-> ?]|[Ha Hb]]]]; (split; [done|]).
    + split; [done|]. by left.
    + split; [done|]. right; by left.
    + split; [|by right; right].
      split; [by apply (block_in_range (n self) i a (m self))
             |by apply (block_in_range (n self) j b (k self))].
  - intros (Hne & [Ha Hb] & [->|[->|[? ?]]]); (split; [done|]); auto.
Qed.

Lemma neighbour_sym self c c' :
  in_grid (n self) c → neighbour self c c' → neighbour self c' c.
Proof.
  unfold neighbour, related. intros Hc (Hne & Hc' & Hr). split_and!; [congruence|done|].
  naive_solver.
Qed.

Lemma getNeighbours_set_checks self c i j :
  getNeighbours (set_checks self c) i j = getNeighbours self i j.
Proof. reflexivity. Qed.

Lemma getNeighbours_counted self incr i j :
  getNeighbours (counted self incr) i j = getNeighbours self i j.
Proof. by destruct incr. Qed.

(** *** Reading the board *)

Lemma grid_get_Some {A} size (g : list (list A)) c :
  square size g → in_grid size c → is_Some (grid_get g c.1 c.2).
Proof.
  intros [Hlen Hrows] [Hi Hj]. unfold grid_get.
  destruct (getitem_Some g c.1) as (row & -> & Hrow); [lia|]. simpl.
  rewrite Forall_lookup in Hrows. apply Hrows in Hrow.
  destruct (getitem_Some row c.2) as (v & -> & _); [lia|]. by eexists.
Qed.

Lemma board_get_Some size (b : board) c :
  square size b → in_grid size c → is_Some (board_get b c.1 c.2).
Proof. apply grid_get_Some. Qed.

Lemma for_each_app {A S} (body : S → A → option S) s l1 l2 :
  for_each body s (l1 ++ l2) = s' ← for_each body s l1; for_each body s' l2.
Proof.
  revert s. induction l1 as [|x l1 IH]; intros s; simpl; [done|].
  destruct (body s x); simpl; [apply IH|done].
Qed.

Lemma appeared_of_from (b : board) (cs : list cell) (s0 : gset Z) :
  (∀ c, c ∈ cs → is_Some (board_get b c.1 c.2)) →
  ∃ s, for_each (λ (s : gset Z) (c : cell), v ← board_get b c.1 c.2; Some ({[ v ]} ∪ s)) s0 cs
         = Some s ∧
       ∀ v, v ∈ s ↔ v ∈ s0 ∨ ∃ c, c ∈ cs ∧ board_get b c.1 c.2 = Some v.
Proof.
  revert s0. induction cs as [|c cs IH]; intros s0 Hcs; simpl.
  - exists s0. split; [done|]. intros v. split; [auto|].
    intros [?|(c & Hc & _)]; [done|]. by apply elem_of_nil in Hc.
  - destruct (Hcs c) as [v Hv]; [left|]. rewrite Hv. simpl.
    destruct (IH ({[ v ]} ∪ s0)) as (s & -> & Hs).
    { intros c' Hc'. apply Hcs. by right. }
    exists s. split; [done|]. intros w. rewrite Hs, elem_of_union, elem_of_singleton.
    split.
    + intros [[->|?]|(c' & ? & ?)]; [right; exists c; split; [left|done]|by left|].
      right. exists c'. split; [by right|done].
    + intros [?|(c' & [->|?]%elem_of_cons & Hw)]; [by left; right| |].
      * left; left. congruence.
      * right. by exists c'.
Qed.

Lemma appeared_of_Some (b : board) (cs : list cell) :
  (∀ c, c ∈ cs → is_Some (board_get b c.1 c.2)) →
  ∃ s, appeared_of b cs = Some s ∧
       ∀ v, v ∈ s ↔ ∃ c, c ∈ cs ∧ board_get b c.1 c.2 = Some v.
Proof.
  intros Hcs. destruct (appeared_of_from b cs ∅ Hcs) as (s & Hs & Hmem).
  exists s. split; [done|]. intros v. rewrite Hmem. set_solver.
Qed.

(** *** The single-cell test *)

(** [check] returns, and its answer is that no neighbour holds the value
    of the cell. *)
Lemma check_Some self (b : board) i j incr :
  valid_config self → square (n self) b → in_grid (n self) (i, j) →
  ∃ v r, board_get b i j = Some v ∧
         check self b i j incr = Some (r, counted self incr) ∧
         (r = false ↔ ∃ c, neighbour self (i, j) c ∧ board_get b c.1 c.2 = Some v).
Proof.
  intros Hv Hb Hij. unfold check. fold (counted self incr).
  rewrite getNeighbours_counted.
  destruct (getNeighbours_neighbour self (i, j) Hv Hij) as (s & Hs & Hmem).
  simpl in Hs. rewrite Hs. simpl.
  destruct (appeared_of_Some b (set_iter s)) as (ap & -> & Hap).
  { intros c Hc%set_iter_elem_of%Hmem. apply (board_get_Some (n self)); [done|apply Hc]. }
  simpl. destruct (board_get_Some (n self) b (i, j) Hb Hij) as [v Hget].
  simpl in Hget. rewrite Hget. simpl.
  exists v, (bool_decide (v ∉ ap)). split_and!; [done..|].
  assert (Hap' : v ∈ ap ↔ ∃ c, neighbour self (i, j) c ∧ board_get b c.1 c.2 = Some v).
  { rewrite Hap. split; intros (c & Hc & ?); exists c; (split; [|done]).
    - by apply Hmem, set_iter_elem_of.
    - by apply set_iter_elem_of, Hmem. }
  rewrite bool_decide_eq_false, <- Hap'. split; [apply dec_stable|auto].
Qed.

(** C10: on a cell that holds the sentinel -1, check treats -1 as a value:
    it answers false as soon as one neighbour is unassigned as well, and
    true when every neighbour holds an assigned value. *)
Theorem check_unassigned_cell self (b : board) i j incr :
  valid_config self → square (n self) b → in_grid (n self) (i, j) →
  board_get b i j = Some (-1) →
  ∃ s r self', getNeighbours self i j = Some s ∧
    check self b i j incr = Some (r, self') ∧
    ((∃ c, c ∈ s ∧ board_get b c.1 c.2 = Some (-1)) → r = false) ∧
    ((∀ c, c ∈ s → ∃ v, board_get b c.1 c.2 = Some v ∧ v ≠ -1) → r = true).
Proof.
  intros Hv Hb Hij Hget.
  destruct (getNeighbours_neighbour self (i, j) Hv Hij) as (s & Hs & Hmem).
  destruct (check_Some self b i j incr Hv Hb Hij) as (v & r & Hget' & Hcheck & Hr).
  rewrite Hget in Hget'. injection Hget' as <-.
  exists s, r, (counted self incr). split_and!; [done..| |].
  - intros (c & Hc & Hcv). apply Hr. exists c. split; [by apply Hmem|done].
  - intros Hall. apply not_false_iff_true. intros (c & Hc & Hcv)%Hr.
    destruct (Hall c) as (v & Hv' & Hne); [by apply Hmem|]. congruence.
Qed.

Lemma check_unassigned_cell_witness :
  ∃ s r self', getNeighbours (init 4 2 2 None) 0 1 = Some s ∧
    check (init 4 2 2 None) [[1;-1;-1;4];[-1;-1;1;-1];[-1;1;-1;-1];[4;-1;-1;1]] 0 1 true
      = Some (r, self') ∧
    ((∃ c, c ∈ s ∧
           board_get [[1;-1;-1;4];[-1;-1;1;-1];[-1;1;-1;-1];[4;-1;-1;1]] c.1 c.2 = Some (-1))
     → r = false) ∧
    ((∀ c, c ∈ s → ∃ v,
           board_get [[1;-1;-1;4];[-1;-1;1;-1];[-1;1;-1;-1];[4;-1;-1;1]] c.1 c.2 = Some v
           ∧ v ≠ -1)
     → r = true).
Proof.
  apply (check_unassigned_cell (init 4 2 2 None)
           [[1;-1;-1;4];[-1;-1;1;-1];[-1;1;-1;-1];[4;-1;-1;1]] 0 1 true).
  - unfold valid_config. simpl. split_and!; [lia..|reflexivity|reflexivity].
  - split; [reflexivity|]. repeat constructor.
  - unfold in_grid. simpl. lia.
  - reflexivity.
Defined.

(** *** The full-board test *)

Lemma scan_digits_spec ap ds :
  scan_digits ap ds = true ↔ NoDup ds ∧ ∀ d, d ∈ ds → d ∉ ap.
Proof.
  revert ap. induction ds as [|d ds IH]; intros ap; simpl.
  - split; [intros _; split; [constructor|]; intros d Hd; by apply elem_of_nil in Hd|done].
  - destruct (decide (d ∈ ap)) as [Hin|Hnin].
    + split; [done|]. intros [_ Hall]. exfalso. by apply (Hall d); [left|].
    + rewrite IH, NoDup_cons. split.
      * intros [Hnd Hall]. split_and!; [|done|].
        { intros Hd. apply (Hall d Hd). set_solver. }
        intros d' [->|Hd']%elem_of_cons; [done|].
        specialize (Hall d' Hd'). set_solver.
      * intros [[Hd Hnd] Hall]. split; [done|]. intros d' Hd'.
        rewrite elem_of_union, elem_of_singleton. intros [->|Hap]; [done|].
        apply (Hall d'); [by right|done].
Qed.

Lemma scan_cells_Some (b : board) ap cs :
  (∀ c, c ∈ cs → is_Some (board_get b c.1 c.2)) →
  scan_cells b ap cs = Some (scan_digits ap (cell_values b cs)).
Proof.
  revert ap. induction cs as [|c cs IH]; intros ap Hcs; simpl; [done|].
  destruct (Hcs c) as [v Hv]; [left|]. unfold cell_values. simpl. rewrite Hv. simpl.
  destruct (decide (v ∈ ap)); [done|]. apply IH. intros c' Hc'. apply Hcs. by right.
Qed.

Lemma all_ok_Some {A} (body : A → option bool) l :
  (∀ x, x ∈ l → is_Some (body x)) →
  ∃ r, all_ok body l = Some r ∧ (r = true ↔ ∀ x, x ∈ l → body x = Some true).
Proof.
  induction l as [|x l IH]; intros Hl; simpl.
  - exists true. split; [done|]. split; [|done]. intros _ x Hx. by apply elem_of_nil in Hx.
  - destruct (Hl x) as [[] Hx]; [left| |]; rewrite Hx; simpl.
    + destruct IH as (r & -> & Hr); [intros; apply Hl; by right|].
      exists r. split; [done|]. rewrite Hr. split.
      * intros Hall y [->|?]%elem_of_cons; auto.
      * intros Hall y Hy. apply Hall. by right.
    + exists false. split; [done|]. split; [done|]. intros Hall.
      specialize (Hall x ltac:(left)). congruence.
Qed.

Lemma omap_fmap_list {A B C} (f : B → option C) (g : A → B) (l : list A) :
  omap f (g <$> l) = omap (f ∘ g) l.
Proof. induction l as [|x l IH]; [done|]. csimpl. by rewrite IH. Qed.

Lemma omap_ext_in {A B} (f g : A → option B) (l : list A) :
  (∀ x, x ∈ l → f x = g x) → omap f l = omap g l.
Proof.
  induction l as [|x l IH]; intros Hl; [done|]. csimpl.
  rewrite (Hl x) by left. rewrite IH; [done|]. intros; apply Hl; by right.
Qed.

Lemma omap_lookup_seq {A} (pre l : list A) :
  omap (λ i : nat, (pre ++ l) !! i) (seq (length pre) (length l)) = l.
Proof.
  revert pre. induction l as [|x l IH]; intros pre; simpl; [done|].
  rewrite lookup_app_r, Nat.sub_diag by lia. simpl. f_equal.
  specialize (IH (pre ++ [x])). rewrite <- app_assoc, length_app in IH. simpl in IH.
  by rewrite Nat.add_1_r in IH.
Qed.

Lemma omap_getitem_range {A} (l : list A) :
  omap (getitem l) (range (Z.of_nat (length l))) = l.
Proof.
  unfold range, range2, seqZ. rewrite Z.sub_0_r, Nat2Z.id, omap_fmap_list.
  rewrite <- (omap_lookup_seq [] l) at 3. simpl.
  apply omap_ext_in. intros i _. simpl.
  rewrite getitem_nonneg by lia. f_equal. lia.
Qed.

Lemma cell_values_row (b : board) size i row :
  getitem b i = Some row → Z.of_nat (length row) = size →
  cell_values b (row_cells size i) = row.
Proof.
  intros Hrow <-. unfold cell_values, row_cells. rewrite omap_fmap_list.
  rewrite <- (omap_getitem_range row) at 2.
  apply omap_ext_in. intros j _. simpl.
  unfold board_get, grid_get. by rewrite Hrow.
Qed.

Lemma range3_step size d :
  0 < d → size `mod` d = 0 →
  range3 0 size d = Some ((λ q, q * d) <$> range (size `div` d)).
Proof.
  intros Hd Hmod. unfold range3. rewrite decide_False, decide_True by lia.
  f_equal. unfold range, range2.
  replace ((size - 0 + d - 1) `div` d) with (size `div` d - 0).
  - apply list_fmap_ext. intros _ q _. lia.
  - apply Z.mod_divide in Hmod as [q ->]; [|lia].
    rewrite Z.div_mul by lia.
    replace (q * d - 0 + d - 1) with (d - 1 + q * d) by lia.
    rewrite Z.div_add by lia. rewrite Z.div_small by lia. lia.
Qed.

Lemma elem_of_subgrid_cells i j h w c :
  c ∈ subgrid_cells i j h w ↔ (i ≤ c.1 < i + h) ∧ (j ≤ c.2 < j + w).
Proof.
  unfold subgrid_cells. rewrite list_elem_of_bind.
  destruct c as [a b]. simpl. split.
  - intros (si & (sj & [= -> ->] & Hsj%elem_of_range2)%list_elem_of_fmap & Hsi%elem_of_range2).
    done.
  - intros [? ?]. exists a. split; [|by apply elem_of_range2].
    apply list_elem_of_fmap. exists b. split; [done|by apply elem_of_range2].
Qed.

Lemma NoDup_subgrid_cells i j h w : NoDup (subgrid_cells i j h w).
Proof.
  unfold subgrid_cells. apply NoDup_bind; [| |apply NoDup_range2].
  - intros x1 x2 [a b] _ _. rewrite !list_elem_of_fmap.
    intros (? & [= -> ->] & _) (? & [= -> _] & _). done.
  - intros x _. apply NoDup_fmap_2; [intros ?? [=]; done|apply NoDup_range2].
Qed.

Lemma elem_of_all_cells size c : c ∈ all_cells size ↔ in_grid size c.
Proof. unfold all_cells, in_grid. rewrite elem_of_subgrid_cells. lia. Qed.

(** The cells of a unit are cells of the grid. *)
Lemma unit_cells_in_grid self u c :
  valid_config self → unit_cells self u → c ∈ u → in_grid (n self) c.
Proof.
  intros (Hn & Hm & Hk & Hnm & Hnk) Hu Hc. unfold in_grid.
  destruct Hu as [(i & Hi & ->)|[(j & Hj & ->)|(p & q & Hp & Hq & ->)]].
  - apply list_elem_of_fmap in Hc as (j & -> & Hj%elem_of_range). done.
  - apply list_elem_of_fmap in Hc as (i & -> & Hi%elem_of_range). done.
  - apply elem_of_subgrid_cells in Hc as [Hc1 Hc2].
    apply Z.mod_divide in Hnm as [qm Hqm]; [|lia].
    apply Z.mod_divide in Hnk as [qk Hqk]; [|lia].
    rewrite Hqm, Z.div_mul in Hp by lia. rewrite Hqk, Z.div_mul in Hq by lia.
    split; nia.
Qed.

Lemma unit_cells_readable self (b : board) u c :
  valid_config self → square (n self) b → unit_cells self u → c ∈ u →
  is_Some (board_get b c.1 c.2).
Proof.
  intros Hv Hb Hu Hc. apply (board_get_Some (n self)); [done|].
  by apply (unit_cells_in_grid self u).
Qed.

(** What [checkAll] returns: the counter moves by one, and the answer is
    that no unit holds a duplicate. *)
Lemma checkAll_Some self (b : board) :
  valid_config self → square (n self) b →
  ∃ r, checkAll self b = Some (r, set_checks self (checks self + 1)) ∧
       (r = true ↔ units_no_duplicate self b).
Proof.
  intros Hv Hb. pose proof Hv as (Hn & Hm & Hk & Hnm & Hnk).
  unfold checkAll. simpl.
  match goal with |- context [all_ok ?f (range (n self))] => set (body1 := f) end.
  destruct (all_ok_Some body1 (range (n self))) as (r1 & -> & Hr1).
  { intros i Hi%elem_of_range. unfold body1.
    destruct Hb as [Hlen Hrows].
    destruct (getitem_Some b i) as (row & -> & Hrow); [lia|]. simpl.
    destruct (scan_digits ∅ row); [|by eexists].
    rewrite scan_cells_Some; [by eexists|].
    intros c Hc. apply (unit_cells_readable self b (col_cells (n self) i)); [done|done| |done].
    right; left. by exists i. }
  assert (Hrc : r1 = true ↔ ∀ i, 0 ≤ i < n self →
            NoDup (cell_values b (row_cells (n self) i)) ∧
            NoDup (cell_values b (col_cells (n self) i))).
  { rewrite Hr1. apply forall_proper. intros i. rewrite elem_of_range.
    apply forall_proper. intros Hi. unfold body1.
    destruct Hb as [Hlen Hrows].
    destruct (getitem_Some b i) as (row & Hget & Hrow); [lia|]. rewrite Hget. simpl.
    rewrite (cell_values_row b (n self) i row Hget).
    2:{ rewrite Forall_lookup in Hrows. by apply (Hrows _ _ Hrow). }
    destruct (scan_digits ∅ row) eqn:Hsd.
    - apply scan_digits_spec in Hsd as [Hnd _].
      rewrite scan_cells_Some.
      2:{ intros c Hc. apply (unit_cells_readable self b (col_cells (n self) i));
            [done|by split| |done]. right; left. by exists i. }
      split.
      + intros [= Hs]. apply scan_digits_spec in Hs as [? _]. done.
      + intros [_ Hc]. f_equal. apply scan_digits_spec. split; [done|]. set_solver.
    - split; [done|]. intros [Hnd _]. exfalso.
      assert (scan_digits ∅ row = true) by (apply scan_digits_spec; set_solver).
      congruence. }
  clear Hr1. destruct r1; simpl.
  2:{ exists false. split; [done|]. split; [done|]. intros Hu. apply Hrc.
      intros i Hi. split; apply Hu; [left|right; left]; by exists i. }
  rewrite (range3_step (n self) (m self)), (range3_step (n self) (k self)) by done. simpl.
  match goal with
  | |- context [all_ok ?f (_ <$> range (n self `div` m self))] => set (body2 := f)
  end.
  assert (Hbody2 : ∀ p, 0 ≤ p < n self `div` m self →
            ∃ r, body2 (p * m self) = Some r ∧
                 (r = true ↔ ∀ q, 0 ≤ q < n self `div` k self →
                    NoDup (cell_values b
                             (subgrid_cells (p * m self) (q * k self) (m self) (k self))))).
  { intros p Hp. unfold body2.
    match goal with |- context [all_ok ?f (_ <$> range _)] => set (body3 := f) end.
    destruct (all_ok_Some body3 ((λ q, q * k self) <$> range (n self `div` k self)))
      as (r & -> & Hr).
    { intros ? (q & -> & Hq%elem_of_range)%list_elem_of_fmap. unfold body3.
      rewrite scan_cells_Some; [by eexists|]. intros c Hc.
      apply (unit_cells_readable self b
          (subgrid_cells (p * m self) (q * k self) (m self) (k self)) c Hv Hb); [|done].
      right; right. by exists p, q. }
    exists r. split; [done|]. rewrite Hr. split.
    - intros Hall q Hq. specialize (Hall (q * k self)). unfold body3 in Hall.
      rewrite scan_cells_Some in Hall.
      + assert (Hs : scan_digits ∅ (cell_values b
                  (subgrid_cells (p * m self) (q * k self) (m self) (k self))) = true).
        { assert (H1 : (q * k self) ∈ (λ q, q * k self) <$> range (n self `div` k self)).
          { apply list_elem_of_fmap. exists q. by rewrite elem_of_range. }
          specialize (Hall H1). congruence. }
        by apply scan_digits_spec in Hs as [? _].
      + intros c Hc. apply (unit_cells_readable self b
          (subgrid_cells (p * m self) (q * k self) (m self) (k self)) c Hv Hb); [|done].
        right; right. by exists p, q.
    - intros Hall ? (q & -> & Hq%elem_of_range)%list_elem_of_fmap. unfold body3.
      rewrite scan_cells_Some.
      + f_equal. apply scan_digits_spec. split; [by apply Hall|set_solver].
      + intros c Hc. apply (unit_cells_readable self b
          (subgrid_cells (p * m self) (q * k self) (m self) (k self)) c Hv Hb); [|done].
        right; right. by exists p, q. }
  destruct (all_ok_Some body2 ((λ q, q * m self) <$> range (n self `div` m self)))
    as (r2 & -> & Hr2).
  { intros ? (p & -> & Hp%elem_of_range)%list_elem_of_fmap.
    destruct (Hbody2 p Hp) as (r & -> & _). by eexists. }
  simpl. exists r2. split; [done|]. rewrite Hr2. split.
  - intros Hall u [(i & Hi & ->)|[(j & Hj & ->)|(p & q & Hp & Hq & ->)]].
    + by apply Hrc.
    + by apply Hrc.
    + destruct (Hbody2 p Hp) as (r & Hr & Hiff).
      rewrite Hall in Hr. 2:{ apply list_elem_of_fmap. exists p. by rewrite elem_of_range. }
      injection Hr as <-. by apply Hiff.
  - intros Hu ? (p & -> & Hp%elem_of_range)%list_elem_of_fmap.
    destruct (Hbody2 p Hp) as (r & -> & Hiff). f_equal. apply Hiff.
    intros q Hq. apply Hu. right; right. by exists p, q.
Qed.

Lemma getitem_elem_of {A} (l : list A) i x : getitem l i = Some x → x ∈ l.
Proof.
  unfold getitem. repeat case_decide; [| |done]; intros Hx; by apply list_elem_of_lookup_2 in Hx.
Qed.

Lemma board_get_elem_of (b : board) i j v :
  board_get b i j = Some v → ∃ row, row ∈ b ∧ v ∈ row.
Proof.
  unfold board_get, grid_get. intros (row & Hrow & Hv)%bind_Some.
  exists row. split; by eapply getitem_elem_of.
Qed.

Lemma filled_bounds self (b : board) i j v :
  filled self b → board_get b i j = Some v → 1 ≤ v ≤ n self.
Proof.
  intros Hf (row & Hrow & Hv)%board_get_elem_of. unfold filled in Hf.
  rewrite Forall_forall in Hf. specialize (Hf row Hrow).
  rewrite Forall_forall in Hf. by apply Hf.
Qed.

Lemma length_cell_values (b : board) cs :
  (∀ c, c ∈ cs → is_Some (board_get b c.1 c.2)) →
  length (cell_values b cs) = length cs.
Proof.
  induction cs as [|c cs IH]; intros Hcs; [done|].
  unfold cell_values in *. csimpl.
  destruct (Hcs c) as [v ->]; [left|]. simpl. f_equal. apply IH.
  intros c' Hc'. apply Hcs. by right.
Qed.

Lemma elem_of_cell_values (b : board) cs v :
  v ∈ cell_values b cs ↔ ∃ c, c ∈ cs ∧ board_get b c.1 c.2 = Some v.
Proof. apply list_elem_of_omap. Qed.

Lemma length_range2 start stop :
  start ≤ stop → Z.of_nat (length (range2 start stop)) = stop - start.
Proof. intros. unfold range2. rewrite length_seqZ. lia. Qed.

Lemma length_subgrid_cells i j h w :
  0 ≤ h → 0 ≤ w → Z.of_nat (length (subgrid_cells i j h w)) = h * w.
Proof.
  intros. unfold subgrid_cells. rewrite length_bind_fmap, Nat2Z.inj_mul.
  rewrite !length_range2 by lia. lia.
Qed.

(** When the sub-grids have as many cells as a row, so has every unit. *)
Lemma length_unit_cells self u :
  valid_config self → m self * k self = n self → unit_cells self u →
  Z.of_nat (length u) = n self.
Proof.
  intros (Hn & Hm & Hk & _) Hmk [(i & Hi & ->)|[(j & Hj & ->)|(p & q & Hp & Hq & ->)]].
  - unfold row_cells, range. rewrite length_fmap, length_range2; lia.
  - unfold col_cells, range. rewrite length_fmap, length_range2; lia.
  - rewrite length_subgrid_cells; lia.
Qed.

(** A list of n values of [1, n] is free of duplicates exactly when it is
    a permutation of 1..n. *)
Lemma NoDup_iff_permutation size (l : list Z) :
  Z.of_nat (length l) = size → (∀ v, v ∈ l → 1 ≤ v ≤ size) →
  NoDup l ↔ l ≡ₚ range2 1 (size + 1).
Proof.
  intros Hlen Hl. split.
  - intros Hnd. apply submseteq_length_Permutation.
    + apply NoDup_submseteq; [done|]. intros v Hv%Hl. apply elem_of_range2. lia.
    + unfold range2. rewrite length_seqZ. lia.
  - intros Hp. rewrite Hp. apply NoDup_range2.
Qed.

(** C1, as amended: on an n x n board checkAll returns true exactly when
    no row, no column and no m x k sub-grid holds a duplicate; when
    m * k = n and the cells hold values of [1, n], that is the case exactly
    when each row, column and sub-grid is a permutation of 1..n. *)
Theorem checkAll_iff_no_duplicate self (b : board) :
  valid_config self → square (n self) b →
  ∃ r self', checkAll self b = Some (r, self') ∧
    (r = true ↔ units_no_duplicate self b) ∧
    (m self * k self = n self → filled self b →
     (units_no_duplicate self b ↔ units_permutation self b)).
Proof.
  intros Hv Hb. destruct (checkAll_Some self b Hv Hb) as (r & Hr & Hiff).
  exists r, (set_checks self (checks self + 1)). split_and!; [done..|].
  intros Hmk Hf. apply forall_proper. intros u. apply forall_proper. intros Hu.
  apply NoDup_iff_permutation.
  - rewrite length_cell_values; [by apply length_unit_cells|].
    intros c Hc. by apply (unit_cells_readable self b u).
  - intros v (c & _ & Hc)%elem_of_cell_values. by eapply filled_bounds.
Qed.

Lemma checkAll_iff_no_duplicate_witness :
  ∃ r self',
    checkAll (init 4 2 2 None) [[1;3;2;4];[2;4;1;3];[3;1;4;2];[4;2;3;1]] = Some (r, self') ∧
    (r = true ↔
       units_no_duplicate (init 4 2 2 None) [[1;3;2;4];[2;4;1;3];[3;1;4;2];[4;2;3;1]]) ∧
    (units_no_duplicate (init 4 2 2 None) [[1;3;2;4];[2;4;1;3];[3;1;4;2];[4;2;3;1]] ↔
     units_permutation (init 4 2 2 None) [[1;3;2;4];[2;4;1;3];[3;1;4;2];[4;2;3;1]]).
Proof.
  destruct (checkAll_iff_no_duplicate (init 4 2 2 None)
              [[1;3;2;4];[2;4;1;3];[3;1;4;2];[4;2;3;1]]) as (r & self' & H1 & H2 & H3).
  - unfold valid_config. simpl. split_and!; [lia..|reflexivity|reflexivity].
  - split; [reflexivity|]. repeat constructor.
  - exists r, self'. split_and!; [exact H1|exact H2|].
    apply H3; [reflexivity|]. unfold filled. simpl. repeat constructor; lia.
Defined.

(** C1, the claim as stated fails: with n = 4, m = 2, k = 1 the sub-grids
    have two cells; on a Latin square checkAll returns true and no unit
    holds a duplicate, but a sub-grid is not a permutation of 1..4. *)
Lemma checkAll_permutation_counterexample :
  valid_config (init 4 2 1 None) ∧
  square 4 [[1;2;3;4];[2;1;4;3];[3;4;1;2];[4;3;2;1]] ∧
  filled (init 4 2 1 None) [[1;2;3;4];[2;1;4;3];[3;4;1;2];[4;3;2;1]] ∧
  fst <$> checkAll (init 4 2 1 None) [[1;2;3;4];[2;1;4;3];[3;4;1;2];[4;3;2;1]] = Some true ∧
  ¬ (units_no_duplicate (init 4 2 1 None) [[1;2;3;4];[2;1;4;3];[3;4;1;2];[4;3;2;1]] ↔
     units_permutation (init 4 2 1 None) [[1;2;3;4];[2;1;4;3];[3;4;1;2];[4;3;2;1]]).
Proof.
  assert (Hv : valid_config (init 4 2 1 None)).
  { unfold valid_config. simpl. split_and!; [lia..|reflexivity|reflexivity]. }
  assert (Hb : square 4 [[1;2;3;4];[2;1;4;3];[3;4;1;2];[4;3;2;1]]).
  { split; [reflexivity|]. repeat constructor. }
  split_and!; [done|done| |by vm_compute|].
  - unfold filled. simpl. repeat constructor; lia.
  - intros Hiff.
    destruct (checkAll_Some _ _ Hv Hb) as (r & Hr & Hnd).
    assert (r = true) as -> by (vm_compute in Hr; congruence).
    destruct Hnd as [Hnd _]. specialize (Hnd eq_refl).
    apply Hiff in Hnd.
    specialize (Hnd (subgrid_cells (0 * 2) (0 * 1) 2 1)).
    assert (Hu : unit_cells (init 4 2 1 None) (subgrid_cells (0 * 2) (0 * 1) 2 1)).
    { right; right. exists 0, 0. simpl. split_and!; [by vm_compute..|done]. }
    apply Hnd, Permutation_length in Hu. vm_compute in Hu. discriminate.
Qed.

(** *** The satisfiability pre-check *)

Lemma all_ok_st_Some {A S} (body : S → A → option (bool * S)) (s : S) l :
  (∀ x, x ∈ l → ∃ r, body s x = Some (r, s)) →
  ∃ r, all_ok_st body s l = Some (r, s) ∧
       (r = true ↔ ∀ x, x ∈ l → body s x = Some (true, s)) ∧
       (r = false ↔ ∃ x, x ∈ l ∧ body s x = Some (false, s)).
Proof.
  induction l as [|x l IH]; intros Hl; simpl.
  - exists true. split_and!; [done| |].
    + split; [|done]. intros _ x Hx. by apply elem_of_nil in Hx.
    + split; [done|]. intros (x & Hx & _). by apply elem_of_nil in Hx.
  - destruct (Hl x) as [[] Hx]; [left| |]; rewrite Hx; simpl.
    + destruct IH as (r & -> & Hr & Hr'); [intros; apply Hl; by right|].
      exists r. split_and!; [done| |].
      * rewrite Hr. split.
        -- intros Hall y [->|?]%elem_of_cons; auto.
        -- intros Hall y Hy. apply Hall. by right.
      * rewrite Hr'. split.
        -- intros (y & Hy & Hb). exists y. split; [by right|done].
        -- intros (y & [->|Hy]%elem_of_cons & Hb); [congruence|]. by exists y.
    + exists false. split_and!; [done| |].
      * split; [done|]. intros Hall. specialize (Hall x ltac:(left)). congruence.
      * split; [|done]. intros _. exists x. split; [left|done].
Qed.

Lemma square_truthy {A} size (g : list (list A)) :
  0 < size → square size g → truthy (Some g) = true.
Proof. intros Hs [Hlen _]. destruct g; [simpl in Hlen; lia|done]. Qed.

(** With an initial board [isSatisfiable] returns, the counter has moved
    by one, and the answer is false exactly when a given cell shares its
    value with a neighbour. *)
Lemma isSatisfiable_Some self ib :
  initialBoard self = Some ib → valid_config self → square (n self) ib →
  ∃ r, isSatisfiable self = Some (r, set_checks self (checks self + 1)) ∧
       (r = false ↔
          ∃ c c' v, in_grid (n self) c ∧ neighbour self c c' ∧ v ≠ -1 ∧
                    board_get ib c.1 c.2 = Some v ∧ board_get ib c'.1 c'.2 = Some v).
Proof.
  intros Hib Hv Hsq. unfold isSatisfiable. rewrite Hib.
  rewrite (square_truthy (n self) ib) by (done || apply Hv). simpl.
  set (self1 := set_checks self (checks self + 1)).
  match goal with |- context [all_ok_st ?f _ _] => set (body := f) end.
  assert (Hv1 : valid_config self1) by done.
  assert (Hbody : ∀ c, in_grid (n self) c →
            ∃ v r, board_get ib c.1 c.2 = Some v ∧ body self1 c = Some (r, self1) ∧
              (r = false ↔ v ≠ -1 ∧
                 ∃ c', neighbour self c c' ∧ board_get ib c'.1 c'.2 = Some v)).
  { intros [i j] Hc. unfold body. simpl. rewrite Hib. simpl.
    destruct (check_Some self1 ib i j false Hv1 Hsq Hc) as (v & r & Hget & Hchk & Hr).
    exists v. rewrite Hget. simpl. destruct (decide (v ≠ -1)) as [Hne|He].
    - rewrite Hchk. simpl. exists r. split_and!; [done..|]. rewrite Hr. naive_solver.
    - exists true. split_and!; [done..|]. naive_solver. }
  destruct (all_ok_st_Some body self1 (all_cells (n self))) as (r & Hr & Hiff & Hex).
  { intros c Hc%elem_of_all_cells. destruct (Hbody c Hc) as (v & r & _ & ? & _). eauto. }
  exists r. split; [done|]. rewrite Hex. split.
  - intros (c & Hc%elem_of_all_cells & Hb).
    destruct (Hbody c Hc) as (v & r' & Hget & Hb' & Hrf).
    rewrite Hb in Hb'. injection Hb' as <-.
    destruct Hrf as [[Hne (c' & Hn' & Hget')] _]; [done|]. by exists c, c', v.
  - intros (c & c' & v & Hc & Hn' & Hne & Hget & Hget').
    exists c. split; [by apply elem_of_all_cells|].
    destruct (Hbody c Hc) as (v' & r' & Hgetv & -> & Hrf).
    assert (v' = v) as -> by congruence.
    do 2 f_equal. apply Hrf. split; [done|]. by exists c'.
Qed.

(** C8: without an initial board isSatisfiable returns false and leaves
    the counter alone; with one it moves the counter by exactly one and
    returns false exactly when some given cell shares its value with a
    neighbour (which is then a given cell too), as two given cells of one
    row with the same value do. *)
Theorem isSatisfiable_spec self :
  (truthy (initialBoard self) = false → isSatisfiable self = Some (false, self)) ∧
  (∀ n0 m0 k0, isSatisfiable (init n0 m0 k0 None) = Some (false, init n0 m0 k0 None)) ∧
  (∀ ib, initialBoard self = Some ib → valid_config self → square (n self) ib →
     ∃ r self', isSatisfiable self = Some (r, self') ∧
       checks self' = checks self + 1 ∧
       (r = false ↔
          ∃ c c' v, in_grid (n self) c ∧ neighbour self c c' ∧ v ≠ -1 ∧
                    board_get ib c.1 c.2 = Some v ∧ board_get ib c'.1 c'.2 = Some v) ∧
       (∀ i j j' v, in_grid (n self) (i, j) → in_grid (n self) (i, j') → j ≠ j' →
          v ≠ -1 → board_get ib i j = Some v → board_get ib i j' = Some v → r = false)).
Proof.
  split_and!.
  - intros Ht. unfold isSatisfiable. by rewrite Ht.
  - done.
  - intros ib Hib Hv Hsq.
    destruct (isSatisfiable_Some self ib Hib Hv Hsq) as (r & Hr & Hfalse).
    exists r, (set_checks self (checks self + 1)). split_and!; [done|done|done|].
    intros i j j' v Hc Hc' Hjj Hne Hget Hget'.
    apply Hfalse. exists (i, j), (i, j'), v. split_and!; [done| |done..].
    split_and!; [congruence|done|by left].
Qed.

Lemma isSatisfiable_spec_witness :
  isSatisfiable (init 4 2 2 None) = Some (false, init 4 2 2 None) ∧
  ∃ r self',
    isSatisfiable (init 4 2 2 (Some [[1;1;-1;4];[-1;-1;2;-1];[-1;2;-1;-1];[4;-1;-1;3]]))
      = Some (r, self') ∧
    checks self' = 1 ∧ r = false.
Proof.
  destruct (isSatisfiable_spec
              (init 4 2 2 (Some [[1;1;-1;4];[-1;-1;2;-1];[-1;2;-1;-1];[4;-1;-1;3]])))
    as (_ & Hnone & Hsome).
  split; [apply Hnone|].
  destruct (Hsome [[1;1;-1;4];[-1;-1;2;-1];[-1;2;-1;-1];[4;-1;-1;3]])
    as (r & self' & Hr & Hc & _ & Hrow).
  - reflexivity.
  - unfold valid_config. simpl. split_and!; [lia..|reflexivity|reflexivity].
  - split; [reflexivity|]. repeat constructor.
  - exists r, self'. split_and!; [exact Hr|exact Hc|].
    apply (Hrow 0 0 1 1); unfold in_grid; simpl; try lia; reflexivity.
Defined.

(** *** The check counter *)

Lemma check_engine self (b : board) i j incr r self' :
  check self b i j incr = Some (r, self') → self' = counted self incr.
Proof. unfold check, counted. intros. by simplify_option_eq. Qed.

Lemma checkAll_engine self (b : board) r self' :
  checkAll self b = Some (r, self') → self' = set_checks self (checks self + 1).
Proof.
  unfold checkAll. intros H. simplify_option_eq.
  repeat (match goal with
          | H : context [if ?x then _ else _] |- _ => destruct x
          end; simplify_option_eq); done.
Qed.

Lemma all_ok_st_invariant {A S} (P : S → Prop) (body : S → A → option (bool * S)) l :
  (∀ s x r s', body s x = Some (r, s') → P s → P s') →
  ∀ s r s', all_ok_st body s l = Some (r, s') → P s → P s'.
Proof.
  intros Hbody. induction l as [|x l IH]; intros s r s' Hrun Hs; simpl in Hrun.
  - by simplify_eq.
  - destruct (body s x) as [[[] s1]|] eqn:Hx; simpl in Hrun; [|simplify_eq|done].
    + eapply IH; [done|]. by eapply Hbody.
    + by eapply Hbody.
Qed.

Lemma for_each_invariant {A S} (P : S → Prop) (body : S → A → option S) l :
  (∀ s x s', body s x = Some s' → P s → P s') →
  ∀ s s', for_each body s l = Some s' → P s → P s'.
Proof.
  intros Hbody. induction l as [|x l IH]; intros s s' Hrun Hs; simpl in Hrun.
  - by simplify_eq.
  - destruct (body s x) as [s1|] eqn:Hx; simpl in Hrun; [|done].
    eapply IH; [done|]. by eapply Hbody.
Qed.

Lemma isSatisfiable_checks self r self' :
  isSatisfiable self = Some (r, self') →
  checks self ≤ checks self' ≤ checks self + 1.
Proof.
  unfold isSatisfiable. destruct (truthy (initialBoard self)); simpl.
  - intros Hrun.
    eapply (all_ok_st_invariant (λ s, checks s = checks self + 1)) in Hrun; [lia| |done].
    intros s c r0 s0 Hb Hs.
    destruct (initialBoard s); [|done]. simpl in Hb.
    destruct (board_get _ _ _); [|done]. simpl in Hb.
    case_decide; [|by simplify_eq].
    destruct (check s _ c.1 c.2 false) as [[ok s1]|] eqn:Hc; [|done]. simpl in Hb.
    apply check_engine in Hc as ->. by simplify_eq.
  - intros [= _ <-]. lia.
Qed.

Lemma swapMinConflicts_checks self draw (b : board) c b' self' :
  swapMinConflicts self draw b = Some (c, b', self') → checks self' = checks self.
Proof.
  unfold swapMinConflicts. intros Hrun.
  destruct (conflictingCells self b) as [[cs self1]|] eqn:Hcs; [|done]. simpl in Hrun.
  assert (checks self1 = checks self) as <-.
  { unfold conflictingCells in Hcs.
    eapply (for_each_invariant (λ st, checks st.2 = checks self)) in Hcs; [done| |done].
    intros [cs0 s0] c0 st' Hb Hs. simpl in *.
    destruct (initialBoard s0); [|done]. simpl in Hb.
    destruct (board_get _ _ _); [|done]. simpl in Hb.
    case_decide; [|by simplify_eq].
    destruct (check s0 b c0.1 c0.2 false) as [[ok s1]|] eqn:Hc; [|done]. simpl in Hb.
    apply check_engine in Hc as ->. destruct ok; by simplify_eq. }
  destruct (choice cs draw) as [[si sj]|]; [|done]. simpl in Hrun.
  destruct (getNeighbours self1 si sj); [|done]. simpl in Hrun.
  destruct (mapM _ _); [|done]. simpl in Hrun.
  destruct (foldl _ _ _). destruct (board_set b si sj _); [|done].
  simpl in Hrun. by simplify_eq.
Qed.

Lemma computeReducedDomains_checks self self' :
  computeReducedDomains self = Some self' → checks self' = checks self.
Proof.
  unfold computeReducedDomains. intros Hrun.
  destruct (ac_init self) as [[rd arcs]|]; [|done]. simpl in Hrun.
  destruct (ac_loop _ _ _ _); [|done]. simpl in Hrun. by simplify_eq.
Qed.

(** C9: no call of an engine method lowers the check counter; check adds
    exactly one when it counts and nothing when it does not, checkAll adds
    exactly one, and getLegalValues, getLCVList, getNeighbours,
    getUnassignedNeighbours, getOpenCellMRV and getFirstOpenCell add
    nothing. *)
Theorem checks_monotone (c : call) self self' :
  engine_after c self = Some self' →
  checks self ≤ checks self' ∧
  ∀ d, counter_step c = Some d → checks self' = checks self + d.
Proof.
  intros Hrun.
  destruct c; simpl in Hrun;
    try (simplify_option_eq; split; [lia|intros d [= <-]; lia]).
  - destruct (check self b i j incrCheckCount) as [[r s1]|] eqn:Hc; [|done].
    simpl in Hrun. injection Hrun as ->. apply check_engine in Hc as ->.
    destruct incrCheckCount; simpl; (split; [lia|intros d [= <-]; lia]).
  - destruct (checkAll self b) as [[r s1]|] eqn:Hc; [|done].
    simpl in Hrun. injection Hrun as ->. apply checkAll_engine in Hc as ->.
    simpl; (split; [lia|intros d [= <-]; lia]).
  - destruct (isSatisfiable self) as [[r s1]|] eqn:Hc; [|done].
    simpl in Hrun. injection Hrun as ->. apply isSatisfiable_checks in Hc.
    split; [lia|done].
  - apply computeReducedDomains_checks in Hrun. split; [lia|done].
  - destruct (swapMinConflicts self draw b) as [[[c' b'] s1]|] eqn:Hc; [|done].
    simpl in Hrun. injection Hrun as ->. apply swapMinConflicts_checks in Hc.
    split; [lia|done].
Qed.

Lemma checks_monotone_witness :
  ∃ self',
    engine_after (CallCheck [[1;-1;-1;4];[-1;-1;1;-1];[-1;1;-1;-1];[4;-1;-1;1]] 0 0 true)
                 (init 4 2 2 None) = Some self' ∧
    checks (init 4 2 2 None) ≤ checks self' ∧
    checks self' = checks (init 4 2 2 None) + 1.
Proof.
  eexists. split; [reflexivity|].
  destruct (checks_monotone
              (CallCheck [[1;-1;-1;4];[-1;-1;1;-1];[-1;1;-1;-1];[4;-1;-1;1]] 0 0 true)
              (init 4 2 2 None) _ eq_refl) as [Hle Hstep].
  split; [exact Hle|]. apply Hstep. reflexivity.
Defined.

(** *** Conflicting cells *)

Lemma NoDup_cell_values (b : board) cs :
  NoDup cs →
  (∀ c c' v, c ∈ cs → c' ∈ cs → c ≠ c' →
     board_get b c.1 c.2 = Some v → board_get b c'.1 c'.2 = Some v → False) →
  NoDup (cell_values b cs).
Proof.
  induction 1 as [|c cs Hc Hnd IH]; intros Hcs; [constructor|].
  unfold cell_values in *. csimpl.
  destruct (board_get b c.1 c.2) as [v|] eqn:Hv.
  - constructor.
    + intros (c' & Hc' & Hv')%list_elem_of_omap.
      apply (Hcs c c' v); [left|by right|congruence|done..].
    + apply IH. intros c1 c2 w H1 H2. apply Hcs; by right.
  - apply IH. intros c1 c2 w H1 H2. apply Hcs; by right.
Qed.

Lemma NoDup_unit_cells self u : unit_cells self u → NoDup u.
Proof.
  intros [(i & _ & ->)|[(j & _ & ->)|(p & q & _ & _ & ->)]].
  - apply NoDup_fmap_2; [intros ?? [=]; done|apply NoDup_range2].
  - apply NoDup_fmap_2; [intros ?? [=]; done|apply NoDup_range2].
  - apply NoDup_subgrid_cells.
Qed.

Lemma div_block p d a : 0 < d → p * d ≤ a < p * d + d → a `div` d = p.
Proof. intros. symmetry. apply (Z.div_unique_pos a d p (a - p * d)); lia. Qed.

(** Two cells of one unit share a row, a column or a sub-grid. *)
Lemma unit_cells_related self u c c' :
  valid_config self → unit_cells self u → c ∈ u → c' ∈ u → related self c c'.
Proof.
  intros (Hn & Hm & Hk & _) Hu Hc Hc'. unfold related.
  destruct Hu as [(i & _ & ->)|[(j & _ & ->)|(p & q & _ & _ & ->)]].
  - apply list_elem_of_fmap in Hc as (? & -> & _), Hc' as (? & -> & _). by left.
  - apply list_elem_of_fmap in Hc as (? & -> & _), Hc' as (? & -> & _). right; by left.
  - apply elem_of_subgrid_cells in Hc as [H1 H2], Hc' as [H1' H2'].
    right; right. split.
    + by rewrite !(div_block p).
    + by rewrite !(div_block q).
Qed.

(** When no cell shares its value with a neighbour, no unit holds a
    duplicate. *)
Lemma no_conflict_units self (b : board) :
  valid_config self →
  (∀ c c' v, in_grid (n self) c → neighbour self c c' →
     board_get b c.1 c.2 = Some v → board_get b c'.1 c'.2 = Some v → False) →
  units_no_duplicate self b.
Proof.
  intros Hv Hfree u Hu. apply NoDup_cell_values; [by eapply NoDup_unit_cells|].
  intros c c' v Hc Hc' Hne Hget Hget'.
  apply (Hfree c c' v); [by eapply unit_cells_in_grid| |done..].
  split_and!; [congruence|by eapply unit_cells_in_grid|by eapply unit_cells_related].
Qed.

Lemma conflictingCells_from self ib (b : board) l acc :
  valid_config self → initialBoard self = Some ib →
  square (n self) ib → square (n self) b →
  (∀ c, c ∈ l → in_grid (n self) c) →
  ∃ cs, for_each (λ (st : list cell * SudokuCSP) (c : cell),
                    ib ← initialBoard st.2;
                    v ← board_get ib c.1 c.2;
                    if decide (v = -1)
                    then '(ok, self') ← check st.2 b c.1 c.2 false;
                         if ok : bool then Some (st.1, self') else Some (st.1 ++ [c], self')
                    else Some st)
                 (acc, self) l = Some (acc ++ cs, self) ∧
        ∀ c, c ∈ cs ↔ c ∈ l ∧ board_get ib c.1 c.2 = Some (-1) ∧
                       fst <$> check self b c.1 c.2 false = Some false.
Proof.
  intros Hv Hib Hsi Hsb. revert acc. induction l as [|c l IH]; intros acc Hl; simpl.
  - exists []. rewrite app_nil_r. split; [done|]. intros c.
    split; [by intros ?%elem_of_nil|by intros [?%elem_of_nil _]].
  - rewrite Hib. simpl.
    destruct (board_get_Some (n self) ib c Hsi) as [v Hget]; [apply Hl; left|].
    rewrite Hget. simpl.
    destruct (check_Some self b c.1 c.2 false Hv Hsb) as (w & r & Hw & Hchk & Hr).
    { destruct c. apply Hl. left. }
    simpl in Hchk.
    destruct (decide (v = -1)) as [->|Hne].
    + rewrite Hchk. simpl. destruct r.
      * destruct (IH acc) as (cs & Hrun & Hcs); [intros; apply Hl; by right|].
        exists cs. split; [exact Hrun|]. intros c'. rewrite Hcs, elem_of_cons. split.
        -- intros (? & ? & ?). auto.
        -- intros ([->|?] & ? & Hf); [|done]. rewrite Hchk in Hf. done.
      * destruct (IH (acc ++ [c])) as (cs & Hrun & Hcs); [intros; apply Hl; by right|].
        exists (c :: cs). split.
        { replace (acc ++ c :: cs) with ((acc ++ [c]) ++ cs) by (by rewrite <- app_assoc).
          exact Hrun. }
        intros c'. rewrite !elem_of_cons, Hcs. split.
        -- intros [->|(? & ? & ?)]; [|by auto]. split_and!; [by left|done|by rewrite Hchk].
        -- intros ([->|?] & ? & ?); [by left|by right].
    + destruct (IH acc) as (cs & Hrun & Hcs); [intros; apply Hl; by right|].
      exists cs. split; [exact Hrun|]. intros c'. rewrite Hcs, elem_of_cons. split.
      * intros (? & ? & ?). auto.
      * intros ([->|?] & Hg & ?); [|done]. rewrite Hget in Hg. congruence.
Qed.

Lemma conflictingCells_Some self ib (b : board) :
  valid_config self → initialBoard self = Some ib →
  square (n self) ib → square (n self) b →
  ∃ cs, conflictingCells self b = Some (cs, self) ∧
        ∀ c, c ∈ cs ↔ in_grid (n self) c ∧ board_get ib c.1 c.2 = Some (-1) ∧
                       fst <$> check self b c.1 c.2 false = Some false.
Proof.
  intros Hv Hib Hsi Hsb. unfold conflictingCells.
  destruct (conflictingCells_from self ib b (all_cells (n self)) [] Hv Hib Hsi Hsb)
    as (cs & Hcs & Hmem).
  { intros c. by rewrite elem_of_all_cells. }
  exists cs. split; [done|]. intros c. by rewrite Hmem, elem_of_all_cells.
Qed.

Lemma setitem_Some {A} (l : list A) i x :
  0 ≤ i < Z.of_nat (length l) → is_Some (setitem l i x).
Proof. intros. rewrite setitem_nonneg by done. by eexists. Qed.

Lemma grid_set_Some {A} size (g : list (list A)) c x :
  square size g → in_grid size c →
  ∃ row, g !! Z.to_nat c.1 = Some row ∧
         grid_set g c.1 c.2 x = Some (<[Z.to_nat c.1 := <[Z.to_nat c.2 := x]> row]> g).
Proof.
  intros [Hlen Hrows] [Hi Hj]. unfold grid_set.
  destruct (getitem_Some g c.1) as (row & -> & Hrow); [lia|]. simpl.
  exists row. split; [done|].
  rewrite Forall_lookup in Hrows. apply Hrows in Hrow.
  rewrite setitem_nonneg by lia. simpl. by rewrite setitem_nonneg by lia.
Qed.

Lemma choice_Some {A} (cs : list A) draw :
  cs ≠ [] → ∃ c, choice cs draw = Some c ∧ c ∈ cs.
Proof.
  intros Hne. unfold choice.
  destruct (lookup_lt_is_Some_2 cs (draw `mod` length cs)%nat) as [c Hc].
  { apply Nat.mod_upper_bound. by destruct cs. }
  exists c. split; [done|]. by eapply list_elem_of_lookup_2.
Qed.

(** With at least one conflicting cell the repair step returns. *)
Lemma swapMinConflicts_Some self ib (b : board) cs draw :
  valid_config self → initialBoard self = Some ib →
  square (n self) ib → square (n self) b →
  conflictingCells self b = Some (cs, self) →
  (∀ c, c ∈ cs → in_grid (n self) c) → cs ≠ [] →
  is_Some (swapMinConflicts self draw b).
Proof.
  intros Hv Hib Hsi Hsb Hcs Hin Hne. unfold swapMinConflicts. rewrite Hcs. simpl.
  destruct (choice_Some cs draw Hne) as ([si sj] & -> & Hsel). simpl.
  apply Hin in Hsel.
  destruct (getNeighbours_neighbour self (si, sj) Hv Hsel) as (s & Hs & Hmem).
  simpl in Hs. rewrite Hs. simpl.
  match goal with |- context [mapM ?f ?l] => destruct (mapM_is_Some_2 f l) as [vs ->] end.
  { apply Forall_forall. intros c Hc%set_iter_elem_of%Hmem. simpl.
    apply (board_get_Some (n self)); [done|apply Hc]. }
  simpl. destruct (foldl _ _ _) as [mc mv].
  destruct (grid_set_Some (n self) b (si, sj) mv Hsb Hsel) as (row & _ & Hset).
  unfold board_set. simpl in Hset. rewrite Hset. by eexists.
Qed.

(** C3, as amended: when the given cells of the initial board do not
    conflict (isSatisfiable returns true) and the board agrees with the
    initial board on the given cells, then whenever checkAll returns false
    some cell that is unassigned in the initial board fails check, so that
    the list of conflicting cells is not empty and swapMinConflicts returns
    for every draw. *)
Theorem swapMinConflicts_finds_conflict self ib (b : board) :
  valid_config self → initialBoard self = Some ib →
  square (n self) ib → square (n self) b →
  fst <$> isSatisfiable self = Some true →
  (∀ c v, in_grid (n self) c → board_get ib c.1 c.2 = Some v → v ≠ -1 →
          board_get b c.1 c.2 = Some v) →
  fst <$> checkAll self b = Some false →
  (∃ c, in_grid (n self) c ∧ board_get ib c.1 c.2 = Some (-1) ∧
        fst <$> check self b c.1 c.2 false = Some false) ∧
  (∃ cs, fst <$> conflictingCells self b = Some cs ∧ cs ≠ []) ∧
  (∀ draw, is_Some (swapMinConflicts self draw b)).
Proof.
  intros Hv Hib Hsi Hsb Hsat Hagree Hall.
  destruct (conflictingCells_Some self ib b Hv Hib Hsi Hsb) as (cs & Hcs & Hmem).
  destruct (checkAll_Some self b Hv Hsb) as (r & Hr & Hiff).
  rewrite Hr in Hall. simpl in Hall. injection Hall as ->.
  destruct (isSatisfiable_Some self ib Hib Hv Hsi) as (rs & Hrs & Hsiff).
  rewrite Hrs in Hsat. simpl in Hsat. injection Hsat as ->.
  assert (Hne : cs ≠ []).
  { intros ->. assert (false = true); [|done]. apply Hiff.
    apply no_conflict_units; [done|]. intros c c' v Hc Hn' Hget Hget'.
    assert (Hc' : in_grid (n self) c') by apply Hn'.
    assert (Hfail : ∀ c1 c2, in_grid (n self) c1 → neighbour self c1 c2 →
              board_get b c1.1 c1.2 = Some v → board_get b c2.1 c2.2 = Some v →
              board_get ib c1.1 c1.2 = Some (-1) → False).
    { intros [i1 j1] c2 H1 H12 Hg1 Hg2 Hopen.
      destruct (check_Some self b i1 j1 false Hv Hsb H1) as (w & r & Hw & Hchk & Hrf).
      simpl in Hg1. assert (w = v) as -> by congruence.
      assert (r = false) as -> by (apply Hrf; by exists c2).
      apply (elem_of_nil (i1, j1)), Hmem. split_and!; [done..|]. simpl. by rewrite Hchk. }
    destruct (board_get_Some (n self) ib c Hsi Hc) as [vi Hvi].
    destruct (decide (vi = -1)) as [->|Hnei]; [by eapply (Hfail c c')|].
    destruct (board_get_Some (n self) ib c' Hsi Hc') as [vi' Hvi'].
    destruct (decide (vi' = -1)) as [->|Hnei'].
    { eapply (Hfail c' c); [done|by apply neighbour_sym|done..]. }
    pose proof (Hagree c vi Hc Hvi Hnei) as Hb1.
    pose proof (Hagree c' vi' Hc' Hvi' Hnei') as Hb2.
    assert (vi = v) as -> by congruence. assert (vi' = v) as -> by congruence.
    assert (true = false); [|done]. apply Hsiff. by exists c, c', v. }
  split_and!.
  - destruct cs as [|c cs]; [done|]. exists c. apply Hmem. left.
  - exists cs. by rewrite Hcs.
  - intros draw. apply (swapMinConflicts_Some self ib b cs); try done.
    intros c Hc. by apply Hmem in Hc as [? _].
Qed.

Lemma swapMinConflicts_finds_conflict_witness :
  (∃ c, in_grid 4 c ∧
        board_get [[1;-1;-1;4];[-1;-1;1;-1];[-1;1;-1;-1];[4;-1;-1;1]] c.1 c.2 = Some (-1) ∧
        fst <$> check (init 4 2 2 (Some [[1;-1;-1;4];[-1;-1;1;-1];[-1;1;-1;-1];[4;-1;-1;1]]))
                      [[1;2;2;4];[2;2;1;2];[2;1;2;2];[4;2;2;1]] c.1 c.2 false = Some false) ∧
  (∃ cs, fst <$> conflictingCells
                   (init 4 2 2 (Some [[1;-1;-1;4];[-1;-1;1;-1];[-1;1;-1;-1];[4;-1;-1;1]]))
                   [[1;2;2;4];[2;2;1;2];[2;1;2;2];[4;2;2;1]] = Some cs ∧ cs ≠ []) ∧
  (∀ draw, is_Some (swapMinConflicts
                      (init 4 2 2 (Some [[1;-1;-1;4];[-1;-1;1;-1];[-1;1;-1;-1];[4;-1;-1;1]]))
                      draw [[1;2;2;4];[2;2;1;2];[2;1;2;2];[4;2;2;1]])).
Proof.
  apply (swapMinConflicts_finds_conflict
           (init 4 2 2 (Some [[1;-1;-1;4];[-1;-1;1;-1];[-1;1;-1;-1];[4;-1;-1;1]]))
           [[1;-1;-1;4];[-1;-1;1;-1];[-1;1;-1;-1];[4;-1;-1;1]]
           [[1;2;2;4];[2;2;1;2];[2;1;2;2];[4;2;2;1]]).
  - unfold valid_config. simpl. split_and!; [lia..|reflexivity|reflexivity].
  - reflexivity.
  - split; [reflexivity|]. repeat constructor.
  - split; [reflexivity|]. repeat constructor.
  - vm_compute. reflexivity.
  - intros [i j] v [Hi Hj] Hget Hne. simpl in *.
    assert (Hi' : i = 0 ∨ i = 1 ∨ i = 2 ∨ i = 3) by lia.
    assert (Hj' : j = 0 ∨ j = 1 ∨ j = 2 ∨ j = 3) by lia.
    destruct Hi' as [-> | [-> | [-> | ->]]], Hj' as [-> | [-> | [-> | ->]]];
      vm_compute in Hget; injection Hget as <-; done.
  - vm_compute. reflexivity.
Defined.

(** C3, the claim as stated fails: the given cells (0,0), (0,1) and (2,0)
    all hold 2, the board completes them without any further clash;
    checkAll returns false, no cell that is open in the initial board fails
    check, the list of conflicting cells is empty and the selection raises
    for every draw. *)
Lemma swapMinConflicts_counterexample :
  fst <$> checkAll (init 4 2 2 (Some [[2;2;-1;-1];[-1;-1;-1;-1];[2;-1;-1;-1];[-1;-1;-1;-1]]))
                   [[2;2;3;4];[3;4;1;2];[2;1;4;3];[4;3;2;1]] = Some false ∧
  fst <$> conflictingCells
            (init 4 2 2 (Some [[2;2;-1;-1];[-1;-1;-1;-1];[2;-1;-1;-1];[-1;-1;-1;-1]]))
            [[2;2;3;4];[3;4;1;2];[2;1;4;3];[4;3;2;1]] = Some [] ∧
  ∀ draw, swapMinConflicts
            (init 4 2 2 (Some [[2;2;-1;-1];[-1;-1;-1;-1];[2;-1;-1;-1];[-1;-1;-1;-1]]))
            draw [[2;2;3;4];[3;4;1;2];[2;1;4;3];[4;3;2;1]] = None.
Proof.
  split_and!; [by vm_compute|by vm_compute|].
  intros draw. unfold swapMinConflicts.
  replace (conflictingCells _ _) with
    (Some ([] : list (Z * Z),
           init 4 2 2 (Some [[2;2;-1;-1];[-1;-1;-1;-1];[2;-1;-1;-1];[-1;-1;-1;-1]])))
    by (by vm_compute).
  reflexivity.
Qed.

(** *** Legal values and the LCV order *)

Lemma cell_domain_Some self i j :
  domains_ok self → in_grid (n self) (i, j) → is_Some (cell_domain self i j).
Proof.
  intros Hd Hij. unfold cell_domain.
  destruct (reducedDomains self) as [rd|] eqn:Hrd; simpl; [|by eexists].
  destruct rd as [|row rd]; [by eexists|].
  apply (grid_get_Some (n self) (row :: rd) (i, j)); [by apply Hd|done].
Qed.

Lemma getLegalValues_Some self (b : board) i j :
  valid_config self → domains_ok self → square (n self) b → in_grid (n self) (i, j) →
  ∃ lv d, getLegalValues self b i j = Some lv ∧ cell_domain self i j = Some d ∧
          ∀ v, v ∈ lv ↔ v ∈ d ∧
                 ¬ ∃ c, neighbour self (i, j) c ∧ board_get b c.1 c.2 = Some v.
Proof.
  intros Hv Hd Hb Hij. unfold getLegalValues.
  destruct (getNeighbours_neighbour self (i, j) Hv Hij) as (s & Hs & Hmem).
  simpl in Hs. rewrite Hs. simpl.
  destruct (appeared_of_Some b (set_iter s)) as (ap & -> & Hap).
  { intros c Hc%set_iter_elem_of%Hmem. apply (board_get_Some (n self)); [done|apply Hc]. }
  simpl. destruct (cell_domain_Some self i j Hd Hij) as [d Hdom].
  fold (cell_domain self i j). rewrite Hdom. simpl.
  exists (d ∖ ap), d. split_and!; [done..|]. intros v.
  rewrite elem_of_difference, Hap. apply and_iff_compat_l, not_iff_compat.
  split; intros (c & Hc & ?); exists c; (split; [|done]).
  - by apply Hmem, set_iter_elem_of.
  - by apply set_iter_elem_of, Hmem.
Qed.

Lemma for_each_ext {A S} (f g : S → A → option S) s l :
  (∀ s x, x ∈ l → f s x = g s x) → for_each f s l = for_each g s l.
Proof.
  revert s. induction l as [|x l IH]; intros s Hfg; simpl; [done|].
  rewrite Hfg by left. destruct (g s x); simpl; [|done].
  apply IH. intros; apply Hfg; by right.
Qed.

Lemma for_each_bind {A B S} (g : S → B → option S) (f : A → list B) l s :
  for_each (λ s x, for_each g s (f x)) s l = for_each g s (l ≫= f).
Proof.
  revert s. induction l as [|x l IH]; intros s; csimpl; [done|].
  rewrite for_each_app. destruct (for_each g s (f x)); simpl; [apply IH|done].
Qed.

Lemma for_each_fmap {A B S} (g : S → B → option S) (f : A → B) l s :
  for_each (λ s x, g s (f x)) s l = for_each g s (f <$> l).
Proof.
  revert s. induction l as [|x l IH]; intros s; csimpl; [done|].
  destruct (g s (f x)); simpl; [apply IH|done].
Qed.

Lemma add_if_unassigned_from (b : board) cs s0 :
  (∀ c, c ∈ cs → is_Some (board_get b c.1 c.2)) →
  ∃ s, for_each (λ s c, add_if_unassigned b c s) s0 cs = Some s ∧
       ∀ y, y ∈ s ↔ y ∈ s0 ∨ (y ∈ cs ∧ board_get b y.1 y.2 = Some (-1)).
Proof.
  revert s0. induction cs as [|c cs IH]; intros s0 Hcs.
  - exists s0. split; [done|]. intros y. split; [auto|].
    intros [?|[?%elem_of_nil _]]; done.
  - destruct (Hcs c) as [v Hv]; [left|]. cbn [for_each].
    assert (Ha : add_if_unassigned b c s0
                 = Some (if decide (v = -1) then {[c]} ∪ s0 else s0))
      by (unfold add_if_unassigned; by rewrite Hv).
    rewrite Ha. cbn [mbind option_bind].
    destruct (IH (if decide (v = -1) then {[c]} ∪ s0 else s0)) as (s & Hrun & Hs).
    { intros c' Hc'. apply Hcs. by right. }
    exists s. split; [exact Hrun|]. intros y. rewrite Hs, elem_of_cons.
    destruct (decide (v = -1)) as [->|Hne].
    + rewrite elem_of_union, elem_of_singleton. naive_solver.
    + split; [naive_solver|]. intros [?|[[->|?] Hy]]; [by left| |by right].
      congruence.
Qed.

(** The unassigned neighbours are the neighbours that hold -1. *)
Lemma getUnassignedNeighbours_Some self (b : board) i j :
  valid_config self → square (n self) b → in_grid (n self) (i, j) →
  ∃ s, getUnassignedNeighbours self b i j = Some s ∧
       ∀ c, c ∈ s ↔ neighbour self (i, j) c ∧ board_get b c.1 c.2 = Some (-1).
Proof.
  intros Hv Hb Hij. pose proof Hv as (Hn & Hm & Hk & Hnm & Hnk).
  destruct (getNeighbours_Some self i j Hm Hk) as (nb & Hnb & Hform).
  destruct (getNeighbours_neighbour self (i, j) Hv Hij) as (nb' & Hnb' & Hnbr).
  simpl in Hnb'. rewrite Hnb in Hnb'. injection Hnb' as <-.
  unfold getUnassignedNeighbours.
  rewrite (for_each_ext _ (λ s x, for_each (λ s c, add_if_unassigned b c s) s
                                           ((λ x, [(i, x); (x, j)]) x))).
  2:{ intros s x _. simpl. destruct (add_if_unassigned b (i, x) s); simpl; [|done].
      by destruct (add_if_unassigned b _ _). }
  rewrite for_each_bind.
  destruct Hij as [Hi Hj]. simpl in Hi, Hj.
  destruct (add_if_unassigned_from b (range (n self) ≫= λ x, [(i, x); (x, j)]) ∅)
    as (s1 & -> & Hs1).
  { intros c (x & Hc & Hx%elem_of_range)%list_elem_of_bind.
    apply (board_get_Some (n self)); [done|].
    apply elem_of_cons in Hc as [->|Hc]; [done|].
    apply list_elem_of_singleton in Hc as ->. done. }
  simpl. rewrite !sb_Some by lia. simpl.
  rewrite (for_each_ext _
             (λ s si, for_each (λ s c, add_if_unassigned b c s) s
                        ((λ sj, (si, sj)) <$> range2 (j `div` k self * k self)
                                                     (j `div` k self * k self + k self))))
    by (intros; by rewrite <- for_each_fmap).
  rewrite (for_each_bind (λ s c, add_if_unassigned b c s)
             (λ si, (λ sj, (si, sj)) <$> range2 (j `div` k self * k self)
                                              (j `div` k self * k self + k self))).
  fold (subgrid_cells (i `div` m self * m self) (j `div` k self * k self) (m self) (k self)).
  destruct (add_if_unassigned_from b
              (subgrid_cells (i `div` m self * m self) (j `div` k self * k self)
                             (m self) (k self)) s1) as (s2 & -> & Hs2).
  { intros c [H1 H2]%elem_of_subgrid_cells.
    apply (board_get_Some (n self)); [done|]. split.
    - apply (block_in_range (n self) i c.1 (m self)); [done..|]. by apply block_iff.
    - apply (block_in_range (n self) j c.2 (k self)); [done..|]. by apply block_iff. }
  simpl. eexists. split; [done|]. intros [a c].
  rewrite elem_of_difference, elem_of_singleton, Hs2, Hs1, <- Hnbr, Hform.
  rewrite elem_of_subgrid_cells, list_elem_of_bind. simpl.
  rewrite !block_iff by done.
  split.
  - intros [[[[]%elem_of_empty|[(x & Hc & Hx%elem_of_range) Hopen]]|[[H1 H2] Hopen]] Hne].
    + split; [|done]. split; [done|].
      apply elem_of_cons in Hc as [[= -> ->]|Hc]; [by left|].
      apply list_elem_of_singleton in Hc as [= -> ->]. right; by left.
    + split; [|done]. split; [done|]. by right; right.
  - intros [[Hne Hc] Hopen]. split; [|done].
    destruct Hc as [[-> ?]|[[-> ?]|[? ?]]].
    + left; right. split; [|done]. exists c. rewrite elem_of_range. split; [left|done].
    + left; right. split; [|done]. exists a. rewrite elem_of_range.
      split; [right; left|done].
    + right. done.
Qed.

Lemma lcv_sum_from self (b : board) cs value acc :
  (∀ c, c ∈ cs → is_Some (getLegalValues self b c.1 c.2)) →
  for_each (λ sizeNeighboursDomain (c : Z * Z),
              legalNeighbourValues ← getLegalValues self b c.1 c.2;
              Some (sizeNeighboursDomain + len_set (legalNeighbourValues ∖ {[ value ]})))
           acc cs
  = Some (acc + foldr Z.add 0
                  ((λ c : Z * Z, default 0 (lv ← getLegalValues self b c.1 c.2;
                                           Some (len_set (lv ∖ {[ value ]})))) <$> cs)).
Proof.
  revert acc. induction cs as [|c cs IH]; intros acc Hcs; csimpl.
  - f_equal. lia.
  - destruct (Hcs c) as [lv Hlv]; [left|]. rewrite Hlv. csimpl.
    rewrite IH by (intros; apply Hcs; by right). f_equal. lia.
Qed.

Lemma lcv_sum_score (self : SudokuCSP) (b : board) (neighbours : gset (Z * Z)) value :
  (∀ c : Z * Z, c ∈ neighbours → is_Some (getLegalValues self b c.1 c.2)) →
  lcv_sum self b (set_iter neighbours) value = Some (lcv_score self b neighbours value).
Proof.
  intros Hn'. unfold lcv_sum, lcv_score. rewrite lcv_sum_from; [done|].
  intros c Hc%set_iter_elem_of. by apply Hn'.
Qed.

Lemma tuple_ge_trans : Transitive tuple_ge.
Proof. intros [a1 a2] [b1 b2] [c1 c2]. unfold tuple_ge, tuple_le. simpl. lia. Qed.

Lemma tuple_ge_total : Total tuple_ge.
Proof. intros [a1 a2] [b1 b2]. unfold tuple_ge, tuple_le. simpl. lia. Qed.

Lemma mapM_fmap_total {A B} (f : A → option B) (g : A → B) (l : list A) :
  (∀ x, x ∈ l → f x = Some (g x)) → mapM f l = Some (g <$> l).
Proof.
  intros Hf. apply mapM_Some_2. induction l as [|x l IH]; csimpl; constructor.
  - apply Hf. left.
  - apply IH. intros; apply Hf; by right.
Qed.

Lemma StronglySorted_strengthen {A B} (R : relation A) (P : A → Prop) (f : A → B) l :
  StronglySorted R l → NoDup (f <$> l) → Forall P l →
  StronglySorted (λ x y, R x y ∧ P x ∧ P y ∧ f x ≠ f y) l.
Proof.
  induction 1 as [|x l Hl IH Hx]; intros Hnd HP; [constructor|].
  csimpl in Hnd. apply NoDup_cons in Hnd as [Hnin Hnd].
  apply Forall_cons in HP as [Hpx HP].
  constructor; [by apply IH|].
  rewrite Forall_forall in Hx, HP. apply Forall_forall. intros y Hy.
  split_and!; [by apply Hx|done|by apply HP|].
  intros Heq. apply Hnin. rewrite Heq. apply list_elem_of_fmap. by exists y.
Qed.

(** What [getLCVList] returns: the (sum, value) tuples of the legal
    values, sorted, with the sums dropped. *)
Lemma getLCVList_Some self (b : board) pos_i pos_j :
  valid_config self → domains_ok self → square (n self) b →
  in_grid (n self) (pos_i, pos_j) →
  ∃ legalValues neighbours,
    getLegalValues self b pos_i pos_j = Some legalValues ∧
    getUnassignedNeighbours self b pos_i pos_j = Some neighbours ∧
    getLCVList self b pos_i pos_j
    = Some (snd <$> merge_sort tuple_ge
                      ((λ v, (lcv_score self b neighbours v, v)) <$> set_iter legalValues)) ∧
    snd <$> merge_sort tuple_ge
              ((λ v, (lcv_score self b neighbours v, v)) <$> set_iter legalValues)
    ≡ₚ set_iter legalValues.
Proof.
  intros Hv Hd Hb Hpos.
  destruct (getLegalValues_Some self b pos_i pos_j Hv Hd Hb Hpos) as (lv & d & Hlv & _ & _).
  destruct (getUnassignedNeighbours_Some self b pos_i pos_j Hv Hb Hpos) as (un & Hun & Hmem).
  assert (Hlegal : ∀ c : Z * Z, c ∈ un → is_Some (getLegalValues self b c.1 c.2)).
  { intros [i j] [(_ & Hc & _) _]%Hmem.
    destruct (getLegalValues_Some self b i j Hv Hd Hb Hc) as (lv' & ? & Hlv' & _).
    by exists lv'. }
  exists lv, un. split_and!; [done|done| |].
  - unfold getLCVList. rewrite Hlv, Hun. simpl.
    rewrite (mapM_fmap_total _ (λ v, (lcv_score self b un v, v))); [done|].
    intros v _. by rewrite lcv_sum_score.
  - rewrite merge_sort_Permutation, <- list_fmap_compose. by rewrite list_fmap_id.
Qed.

(** C2, as amended: getLCVList returns every legal value of the cell
    exactly once, in descending order of the sum over the unassigned
    neighbours; values whose sums tie appear in descending value order. *)
Theorem getLCVList_sorted self (b : board) pos_i pos_j :
  valid_config self → domains_ok self → square (n self) b →
  in_grid (n self) (pos_i, pos_j) →
  ∃ legalValues neighbours l,
    getLegalValues self b pos_i pos_j = Some legalValues ∧
    getUnassignedNeighbours self b pos_i pos_j = Some neighbours ∧
    getLCVList self b pos_i pos_j = Some l ∧
    NoDup l ∧ (∀ v, v ∈ l ↔ v ∈ legalValues) ∧
    StronglySorted
      (λ v w, lcv_score self b neighbours v > lcv_score self b neighbours w ∨
              (lcv_score self b neighbours v = lcv_score self b neighbours w ∧ v > w)) l.
Proof.
  intros Hv Hd Hb Hpos.
  destruct (getLCVList_Some self b pos_i pos_j Hv Hd Hb Hpos)
    as (lv & un & Hlv & Hun & Hrun & Hperm).
  set (tuples := (λ v, (lcv_score self b un v, v)) <$> set_iter lv) in *.
  exists lv, un, (snd <$> merge_sort tuple_ge tuples). split_and!; [done..| | |].
  - rewrite Hperm. apply set_iter_NoDup.
  - intros v. by rewrite Hperm, set_iter_elem_of.
  - apply (StronglySorted_fmap snd
             (λ t t', tuple_ge t t' ∧ t.1 = lcv_score self b un t.2 ∧
                      t'.1 = lcv_score self b un t'.2 ∧ t.2 ≠ t'.2)).
    + intros [s1 v1] [s2 v2] (Hge & H1 & H2 & Hne). unfold tuple_ge, tuple_le in Hge.
      simpl in *. lia.
    + apply (StronglySorted_strengthen tuple_ge (λ t, t.1 = lcv_score self b un t.2) snd).
      * apply StronglySorted_merge_sort; [apply tuple_ge_trans|apply tuple_ge_total].
      * rewrite Hperm. apply set_iter_NoDup.
      * rewrite merge_sort_Permutation. apply Forall_forall.
        intros t (v & -> & _)%list_elem_of_fmap. done.
Qed.

Lemma getLCVList_sorted_witness :
  ∃ legalValues neighbours l,
    getLegalValues (init 4 2 2 None)
      [[1;-1;-1;4];[-1;-1;1;-1];[-1;1;-1;-1];[4;-1;-1;1]] 1 1 = Some legalValues ∧
    getUnassignedNeighbours (init 4 2 2 None)
      [[1;-1;-1;4];[-1;-1;1;-1];[-1;1;-1;-1];[4;-1;-1;1]] 1 1 = Some neighbours ∧
    getLCVList (init 4 2 2 None)
      [[1;-1;-1;4];[-1;-1;1;-1];[-1;1;-1;-1];[4;-1;-1;1]] 1 1 = Some l ∧
    NoDup l ∧ (∀ v, v ∈ l ↔ v ∈ legalValues) ∧
    StronglySorted
      (λ v w,
         lcv_score (init 4 2 2 None)
           [[1;-1;-1;4];[-1;-1;1;-1];[-1;1;-1;-1];[4;-1;-1;1]] neighbours v >
         lcv_score (init 4 2 2 None)
           [[1;-1;-1;4];[-1;-1;1;-1];[-1;1;-1;-1];[4;-1;-1;1]] neighbours w ∨
         (lcv_score (init 4 2 2 None)
            [[1;-1;-1;4];[-1;-1;1;-1];[-1;1;-1;-1];[4;-1;-1;1]] neighbours v =
          lcv_score (init 4 2 2 None)
            [[1;-1;-1;4];[-1;-1;1;-1];[-1;1;-1;-1];[4;-1;-1;1]] neighbours w ∧ v > w)) l.
Proof.
  apply (getLCVList_sorted (init 4 2 2 None)
           [[1;-1;-1;4];[-1;-1;1;-1];[-1;1;-1;-1];[4;-1;-1;1]] 1 1).
  - unfold valid_config. simpl. split_and!; [lia..|reflexivity|reflexivity].
  - intros rd Hrd. discriminate Hrd.
  - split; [reflexivity|]. repeat constructor.
  - unfold in_grid. simpl. lia.
Defined.

(** C2, the claim as stated fails: at the cell (0, 1) the legal values 2 and
    3 have the same sum, and 3 comes before 2. *)
Lemma getLCVList_tie_counterexample :
  ∃ neighbours,
    getUnassignedNeighbours (init 4 2 2 None)
      [[1;-1;-1;4];[-1;-1;1;-1];[-1;1;-1;-1];[4;-1;-1;1]] 0 1 = Some neighbours ∧
    getLCVList (init 4 2 2 None)
      [[1;-1;-1;4];[-1;-1;1;-1];[-1;1;-1;-1];[4;-1;-1;1]] 0 1 = Some [3; 2] ∧
    lcv_score (init 4 2 2 None)
      [[1;-1;-1;4];[-1;-1;1;-1];[-1;1;-1;-1];[4;-1;-1;1]] neighbours 3 =
    lcv_score (init 4 2 2 None)
      [[1;-1;-1;4];[-1;-1;1;-1];[-1;1;-1;-1];[4;-1;-1;1]] neighbours 2 ∧
    ¬ StronglySorted
        (λ v w,
           lcv_score (init 4 2 2 None)
             [[1;-1;-1;4];[-1;-1;1;-1];[-1;1;-1;-1];[4;-1;-1;1]] neighbours v >
           lcv_score (init 4 2 2 None)
             [[1;-1;-1;4];[-1;-1;1;-1];[-1;1;-1;-1];[4;-1;-1;1]] neighbours w ∨
           (lcv_score (init 4 2 2 None)
              [[1;-1;-1;4];[-1;-1;1;-1];[-1;1;-1;-1];[4;-1;-1;1]] neighbours v =
            lcv_score (init 4 2 2 None)
              [[1;-1;-1;4];[-1;-1;1;-1];[-1;1;-1;-1];[4;-1;-1;1]] neighbours w ∧ v < w))
        [3; 2].
Proof.
  set (un := default ∅ (getUnassignedNeighbours (init 4 2 2 None)
                          [[1;-1;-1;4];[-1;-1;1;-1];[-1;1;-1;-1];[4;-1;-1;1]] 0 1)).
  exists un. split; [by vm_compute|]. split; [by vm_compute|].
  assert (Hscore : lcv_score (init 4 2 2 None)
            [[1;-1;-1;4];[-1;-1;1;-1];[-1;1;-1;-1];[4;-1;-1;1]] un 3 =
          lcv_score (init 4 2 2 None)
            [[1;-1;-1;4];[-1;-1;1;-1];[-1;1;-1;-1];[4;-1;-1;1]] un 2) by (by vm_compute).
  split; [exact Hscore|].
  intros Hs. apply StronglySorted_inv in Hs as [_ Hall].
  apply Forall_cons in Hall as [Hhd _]. rewrite Hscore in Hhd. lia.
Qed.

(** *** Writing into a grid *)

Lemma grid_get_nonneg {A} (g : list (list A)) i j :
  0 ≤ i → 0 ≤ j →
  grid_get g i j = row ← g !! Z.to_nat i; row !! Z.to_nat j.
Proof.
  intros. unfold grid_get. rewrite getitem_nonneg by done.
  destruct (g !! Z.to_nat i); simpl; [|done]. by rewrite getitem_nonneg.
Qed.

Lemma grid_set_square {A} size (g g' : list (list A)) c x :
  square size g → in_grid size c → grid_set g c.1 c.2 x = Some g' → square size g'.
Proof.
  intros Hg Hc Hset.
  destruct (grid_set_Some size g c x Hg Hc) as (row & Hrow & Hset').
  rewrite Hset' in Hset. injection Hset as <-.
  destruct Hg as [Hlen Hrows]. split; [by rewrite length_insert|].
  apply Forall_insert; [done|]. rewrite length_insert.
  rewrite Forall_lookup in Hrows. by apply (Hrows _ _ Hrow).
Qed.

Lemma grid_get_set_eq {A} size (g g' : list (list A)) c x :
  square size g → in_grid size c → grid_set g c.1 c.2 x = Some g' →
  grid_get g' c.1 c.2 = Some x.
Proof.
  intros Hg Hc Hset.
  destruct (grid_set_Some size g c x Hg Hc) as (row & Hrow & Hset').
  rewrite Hset' in Hset. injection Hset as <-.
  destruct Hg as [Hlen Hrows], Hc as [Hi Hj].
  rewrite grid_get_nonneg by lia.
  rewrite list_lookup_insert_eq by lia. simpl.
  rewrite Forall_lookup in Hrows. apply Hrows in Hrow.
  by rewrite list_lookup_insert_eq by lia.
Qed.

Lemma grid_get_set_ne {A} size (g g' : list (list A)) c c' x :
  square size g → in_grid size c → in_grid size c' → c' ≠ c →
  grid_set g c.1 c.2 x = Some g' →
  grid_get g' c'.1 c'.2 = grid_get g c'.1 c'.2.
Proof.
  intros Hg Hc Hc' Hne Hset.
  destruct (grid_set_Some size g c x Hg Hc) as (row & Hrow & Hset').
  rewrite Hset' in Hset. injection Hset as <-.
  destruct Hg as [Hlen Hrows], Hc as [Hi Hj], Hc' as [Hi' Hj'].
  rewrite !grid_get_nonneg by lia.
  destruct (decide (Z.to_nat c.1 = Z.to_nat c'.1)) as [Heq|Hneq].
  - rewrite <- Heq, list_lookup_insert_eq, Hrow by lia. simpl.
    rewrite list_lookup_insert_ne; [done|].
    intros Heq'. apply Hne. destruct c, c'. simpl in *. f_equal; lia.
  - by rewrite list_lookup_insert_ne.
Qed.

(** Writing back what a cell holds leaves the grid as it is. *)
Lemma grid_set_same {A} size (g : list (list A)) c x :
  square size g → in_grid size c → grid_get g c.1 c.2 = Some x →
  grid_set g c.1 c.2 x = Some g.
Proof.
  intros Hg Hc Hget.
  destruct (grid_set_Some size g c x Hg Hc) as (row & Hrow & ->).
  destruct Hc as [Hi Hj]. rewrite grid_get_nonneg, Hrow in Hget by lia. simpl in Hget.
  f_equal. rewrite (list_insert_id row) by done. by apply list_insert_id.
Qed.

(** A second write to the same cell overrides the first. *)
Lemma grid_set_set {A} size (g g1 : list (list A)) c x y :
  square size g → in_grid size c → grid_set g c.1 c.2 x = Some g1 →
  grid_set g1 c.1 c.2 y = grid_set g c.1 c.2 y.
Proof.
  intros Hg Hc Hset. pose proof (grid_set_square size g g1 c x Hg Hc Hset) as Hg1.
  destruct (grid_set_Some size g c x Hg Hc) as (row & Hrow & Hset').
  rewrite Hset' in Hset. injection Hset as <-.
  destruct (grid_set_Some size g c y Hg Hc) as (row' & Hrow' & ->).
  assert (row' = row) as -> by congruence.
  destruct (grid_set_Some size _ c y Hg1 Hc) as (row1 & Hrow1 & ->).
  destruct Hg as [Hlen Hrows], Hc as [Hi Hj].
  rewrite list_lookup_insert_eq in Hrow1 by lia. injection Hrow1 as <-.
  by rewrite list_insert_insert_eq, list_insert_insert_eq.
Qed.

Lemma sum_list_insert (l : list nat) i x y :
  l !! i = Some x → (sum_list (<[i := y]> l) + x = sum_list l + y)%nat.
Proof.
  revert i. induction l as [|z l IH]; intros [|i] Hi; simpl in *; try done.
  - injection Hi as ->. lia.
  - specialize (IH i Hi). lia.
Qed.

Lemma grid_sum_set {A} (f : A → nat) sz (g g' : list (list A)) c x x' :
  square sz g → in_grid sz c →
  grid_get g c.1 c.2 = Some x → grid_set g c.1 c.2 x' = Some g' →
  (grid_sum f g' + f x = grid_sum f g + f x')%nat.
Proof.
  intros Hg Hc Hget Hset.
  destruct (grid_set_Some sz g c x' Hg Hc) as (row & Hrow & Hset').
  rewrite Hset' in Hset. injection Hset as <-.
  destruct Hc as [Hi Hj]. rewrite grid_get_nonneg, Hrow in Hget by lia. simpl in Hget.
  unfold grid_sum. rewrite list_fmap_insert.
  pose proof (sum_list_insert
                ((λ row : list A, sum_list (f <$> row)) <$> g)
                (Z.to_nat c.1) (sum_list (f <$> row))
                (sum_list (f <$> <[Z.to_nat c.2 := x']> row))) as H1.
  rewrite list_lookup_fmap, Hrow in H1. specialize (H1 eq_refl).
  rewrite list_fmap_insert in H1 |- *.
  pose proof (sum_list_insert (f <$> row) (Z.to_nat c.2) (f x) (f x')) as H2.
  rewrite list_lookup_fmap, Hget in H2. specialize (H2 eq_refl).
  lia.
Qed.

Lemma total_size_set sz (rd rd' : list (list (gset Z))) c d d' :
  square sz rd → in_grid sz c →
  grid_get rd c.1 c.2 = Some d → grid_set rd c.1 c.2 d' = Some rd' →
  (total_size rd' + size d = total_size rd + size d')%nat.
Proof. apply grid_sum_set. Qed.

(** *** Arc consistency *)

Lemma for_each_prefix {A S} (P : list A → S → Prop) (body : S → A → option S) l s0 :
  P [] s0 →
  (∀ pre x s, x ∈ l → P pre s → ∃ s', body s x = Some s' ∧ P (pre ++ [x]) s') →
  ∃ s', for_each body s0 l = Some s' ∧ P l s'.
Proof.
  intros H0 Hstep.
  assert (Hgen : ∀ l' pre s, (∀ x, x ∈ l' → x ∈ l) → P pre s →
            ∃ s', for_each body s l' = Some s' ∧ P (pre ++ l') s').
  { induction l' as [|x l' IH]; intros pre s Hsub Hp; simpl.
    - exists s. by rewrite app_nil_r.
    - destruct (Hstep pre x s) as (s1 & -> & Hp1); [apply Hsub; left|done|]. simpl.
      destruct (IH (pre ++ [x]) s1) as (s' & -> & Hp'); [intros; apply Hsub; by right|done|].
      exists s'. split; [done|]. by rewrite <- app_assoc in Hp'. }
  by apply (Hgen l [] s0).
Qed.

Lemma const_grid_square {A} sz (x : A) :
  0 ≤ sz → square sz ((λ _, (λ _, x) <$> range sz) <$> range sz).
Proof.
  intros Hsz. unfold square, range. rewrite length_fmap, length_range2 by lia.
  split; [lia|]. apply Forall_fmap, Forall_forall. intros i _. simpl.
  rewrite length_fmap, length_range2 by lia. lia.
Qed.

Lemma const_grid_get {A} sz (x : A) c :
  in_grid sz c → grid_get ((λ _, (λ _, x) <$> range sz) <$> range sz) c.1 c.2 = Some x.
Proof.
  intros [Hi Hj]. rewrite grid_get_nonneg by lia.
  destruct (lookup_lt_is_Some_2 (range sz) (Z.to_nat c.1)) as [i Hi'].
  { pose proof (length_range2 0 sz). unfold range. lia. }
  destruct (lookup_lt_is_Some_2 (range sz) (Z.to_nat c.2)) as [j Hj'].
  { pose proof (length_range2 0 sz). unfold range. lia. }
  rewrite list_lookup_fmap, Hi'. simpl. by rewrite list_lookup_fmap, Hj'.
Qed.

Lemma arcs_ok_app self ib arcs1 arcs2 :
  arcs_ok self ib arcs1 → arcs_ok self ib arcs2 → arcs_ok self ib (arcs1 ++ arcs2).
Proof. intros H1 H2 x y [?|?]%elem_of_app; auto. Qed.

Lemma arcs_ok_from self ib x nb :
  valid_config self → in_grid (n self) x → board_get ib x.1 x.2 = Some (-1) →
  getNeighbours self x.1 x.2 = Some nb → arcs_ok self ib (arcs_from x nb).
Proof.
  intros Hv Hx Hopen Hnb x' y (y' & [= -> ->] & Hy%set_iter_elem_of)%list_elem_of_fmap.
  destruct (getNeighbours_neighbour self x Hv Hx) as (s & Hs & Hmem).
  rewrite Hnb in Hs. injection Hs as <-. apply Hmem in Hy as (_ & Hy & _). done.
Qed.

(** The state on entry to the worklist loop: the domain of a given cell is
    the singleton of its value, the domain of an open cell is the full one. *)
Lemma ac_init_Some self ib :
  valid_config self → initialBoard self = Some ib → square (n self) ib →
  ∃ rd arcs, ac_init self = Some (rd, arcs) ∧ square (n self) rd ∧ arcs_ok self ib arcs ∧
    ∀ c v, in_grid (n self) c → board_get ib c.1 c.2 = Some v →
           grid_get rd c.1 c.2 = Some (if decide (v = -1) then domain self else {[ v ]}).
Proof.
  intros Hv Hib Hsq. unfold ac_init.
  destruct (for_each_prefix
    (λ pre (st : list (list (gset Z)) * list (Z * Z * (Z * Z))),
       square (n self) st.1 ∧ arcs_ok self ib st.2 ∧
       ∀ c v, in_grid (n self) c → board_get ib c.1 c.2 = Some v →
              grid_get st.1 c.1 c.2
              = Some (if decide (v = -1 ∨ c ∉ pre) then domain self else {[ v ]}))
    (λ st c, ib ← initialBoard self; init_cell self ib st c)
    (all_cells (n self))
    ((λ _, (λ _, domain self) <$> range (n self)) <$> range (n self), []))
    as ([rd arcs] & Hrun & Hsq' & Harcs & Hdom).
  - simpl. split_and!.
    + apply const_grid_square. destruct Hv. lia.
    + intros x y Hin. by apply elem_of_nil in Hin.
    + intros c v Hc _. rewrite const_grid_get by done.
      rewrite decide_True; [done|]. right. apply not_elem_of_nil.
  - intros pre x [rd arcs] Hx%elem_of_all_cells (Hsq' & Harcs & Hdom). simpl in *.
    rewrite Hib. simpl.
    destruct (board_get_Some (n self) ib x Hsq Hx) as [v Hget]. rewrite Hget. simpl.
    destruct (decide (v = -1)) as [->|Hne].
    + destruct (getNeighbours_neighbour self x Hv Hx) as (nb & Hnb & _).
      rewrite Hnb. simpl. eexists. split; [done|]. simpl. split_and!; [done| |].
      * apply arcs_ok_app; [done|]. by apply (arcs_ok_from self ib x nb).
      * intros c w Hc Hw. rewrite (Hdom c w Hc Hw).
        destruct (decide (c = x)) as [->|Hcx].
        -- assert (w = -1) as -> by congruence. by rewrite !decide_True by auto.
        -- f_equal. apply decide_ext. rewrite elem_of_app, list_elem_of_singleton. tauto.
    + destruct (grid_set_Some (n self) rd x {[v]} Hsq' Hx) as (row & Hrow & Hset).
      rewrite Hset. simpl. eexists. split; [done|]. simpl. split_and!; [|done|].
      * by eapply grid_set_square.
      * intros c w Hc Hw. destruct (decide (c = x)) as [->|Hcx].
        -- rewrite (grid_get_set_eq (n self) rd _ x {[v]}) by done.
           assert (w = v) as -> by congruence.
           rewrite decide_False; [done|]. intros [?|Hnin]; [done|].
           apply Hnin, elem_of_app. right. by apply list_elem_of_singleton.
        -- rewrite (grid_get_set_ne (n self) rd _ x c {[v]}) by done.
           rewrite (Hdom c w Hc Hw). f_equal. apply decide_ext.
           rewrite elem_of_app, list_elem_of_singleton. tauto.
  - exists rd, arcs. simpl in *. split_and!; [done..|].
    intros c v Hc Hget. rewrite (Hdom c v Hc Hget). f_equal. apply decide_ext.
    rewrite elem_of_all_cells. tauto.
Qed.

Lemma size_remove (d : gset Z) v : v ∈ d → (size (d ∖ {[ v ]}) < size d)%nat.
Proof. intros Hv. apply subset_size. set_solver. Qed.

Lemma revise_value_eq (rd : list (list (gset Z))) x y dy dxc xval removed :
  grid_get rd y.1 y.2 = Some dy → grid_get rd x.1 x.2 = Some dxc → xval ∈ dxc →
  revise_value x y (rd, removed) xval =
    if decide (len_set (dy ∖ {[ xval ]}) = 0)
    then rd' ← grid_set rd x.1 x.2 (dxc ∖ {[ xval ]}); Some (rd', true)
    else Some (rd, removed).
Proof.
  intros Hdy Hdx Hin. unfold revise_value. rewrite Hdy. simpl.
  case_decide; [|done]. rewrite Hdx. simpl. by rewrite decide_True.
Qed.

(** The inner loop of the worklist over the remaining values of [x]: the
    grid stays square, only the domain of [x] changes and it only shrinks,
    and the flag is raised exactly when the total size has gone down. *)
Lemma revise_loop sz (rd0 : list (list (gset Z))) x y dx xvals :
  in_grid sz x → in_grid sz y → NoDup xvals →
  ∀ rd removed,
    square sz rd →
    (∀ c, in_grid sz c → c ≠ x → grid_get rd c.1 c.2 = grid_get rd0 c.1 c.2) →
    (∃ dxc, grid_get rd x.1 x.2 = Some dxc ∧ dxc ⊆ dx ∧ ∀ v, v ∈ xvals → v ∈ dxc) →
    (if removed : bool then (total_size rd < total_size rd0)%nat else rd = rd0) →
    ∃ rd' removed',
      for_each (revise_value x y) (rd, removed) xvals = Some (rd', removed') ∧
      square sz rd' ∧
      (∀ c, in_grid sz c → c ≠ x → grid_get rd' c.1 c.2 = grid_get rd0 c.1 c.2) ∧
      (∃ dx', grid_get rd' x.1 x.2 = Some dx' ∧ dx' ⊆ dx) ∧
      (if removed' : bool then (total_size rd' < total_size rd0)%nat else rd' = rd0).
Proof.
  intros Hx Hy Hnd. induction Hnd as [|xval xvals Hnin Hnd IH];
    intros rd removed Hsq Hother (dxc & Hdxc & Hsub & Hrem) Hflag.
  - exists rd, removed. split_and!; [done..| |done]. by exists dxc.
  - cbn [for_each].
    destruct (grid_get_Some sz rd y Hsq Hy) as [dy Hdy].
    rewrite (revise_value_eq rd x y dy dxc xval removed Hdy Hdxc) by (apply Hrem; left).
    destruct (decide (len_set (dy ∖ {[xval]}) = 0)) as [Hz|Hnz]; cbn [mbind option_bind].
    + destruct (grid_set_Some sz rd x (dxc ∖ {[xval]}) Hsq Hx) as (row & Hrow & Hset).
      rewrite Hset. cbn [mbind option_bind].
      set (rd1 := <[Z.to_nat x.1 := <[Z.to_nat x.2 := dxc ∖ {[xval]}]> row]> rd) in *.
      apply (IH rd1 true).
      * apply (grid_set_square sz rd rd1 x _ Hsq Hx Hset).
      * intros c Hc Hcx. rewrite <- Hother by done.
        apply (grid_get_set_ne sz rd rd1 x c _ Hsq Hx Hc Hcx Hset).
      * exists (dxc ∖ {[xval]}). split_and!.
        -- apply (grid_get_set_eq sz rd rd1 x _ Hsq Hx Hset).
        -- set_solver.
        -- intros v Hv. apply elem_of_difference. split; [apply Hrem; by right|].
           rewrite elem_of_singleton. intros ->. done.
      * pose proof (total_size_set sz rd rd1 x dxc (dxc ∖ {[xval]}) Hsq Hx Hdxc Hset) as Ht.
        pose proof (size_remove dxc xval (Hrem xval ltac:(left))) as Hlt.
        destruct removed; [lia|]. subst rd0. lia.
    + apply (IH rd removed); [done..| |done].
      exists dxc. split_and!; [done..|]. intros v Hv. apply Hrem. by right.
Qed.

(** One turn of the worklist loop on an arc of the grid. *)
Lemma ac_step_Some self (rd : list (list (gset Z))) x y arcs :
  valid_config self → square (n self) rd → in_grid (n self) x → in_grid (n self) y →
  ∃ rd' arcs',
    ac_step self rd x y arcs = Some (rd', arcs') ∧
    square (n self) rd' ∧
    (∀ c, in_grid (n self) c → c ≠ x → grid_get rd' c.1 c.2 = grid_get rd c.1 c.2) ∧
    (∃ dx dx', grid_get rd x.1 x.2 = Some dx ∧ grid_get rd' x.1 x.2 = Some dx' ∧ dx' ⊆ dx) ∧
    ((rd' = rd ∧ arcs' = arcs) ∨
     ((total_size rd' < total_size rd)%nat ∧
      ∃ nb, getNeighbours self x.1 x.2 = Some nb ∧ arcs' = arcs ++ arcs_from x nb)).
Proof.
  intros Hv Hsq Hx Hy. unfold ac_step.
  destruct (grid_get_Some (n self) rd x Hsq Hx) as [dx Hdx]. rewrite Hdx. cbn [mbind option_bind].
  destruct (revise_loop (n self) rd x y dx (set_iter dx) Hx Hy (set_iter_NoDup dx) rd false)
    as (rd' & removed & Hrun & Hsq' & Hother & (dx' & Hdx' & Hsub) & Hflag); [done|done| |done|].
  { exists dx. split_and!; [done..|]. intros v. by rewrite set_iter_elem_of. }
  rewrite Hrun. cbn [mbind option_bind].
  destruct removed.
  - destruct (getNeighbours_neighbour self x Hv Hx) as (nb & Hnb & _).
    rewrite Hnb. cbn [mbind option_bind]. eexists _, _. split_and!; [done..| |].
    + by exists dx, dx'.
    + right. split; [done|]. by exists nb.
  - subst rd'. eexists _, _. split_and!; [done..| |by left]. by exists dx, dx'.
Qed.

Lemma ac_loop_more_fuel self fuel fuel' rd arcs rd' :
  ac_loop fuel self rd arcs = Some rd' → (fuel ≤ fuel')%nat →
  ac_loop fuel' self rd arcs = Some rd'.
Proof.
  revert fuel' rd arcs. induction fuel as [|fuel IH]; intros fuel' rd arcs Hrun Hle.
  - destruct arcs as [|[x y] arcs]; [|done]. by destruct fuel'.
  - destruct arcs as [|[x y] arcs]; [by destruct fuel'|].
    destruct fuel' as [|fuel']; [lia|]. simpl in *.
    destruct (ac_step self rd x y arcs) as [[rd1 arcs1]|]; [|done]. simpl in *.
    apply IH; [done|lia].
Qed.

(** An upper bound of the number of neighbours of a cell. *)
Lemma neighbours_bound self x nb :
  valid_config self → in_grid (n self) x → getNeighbours self x.1 x.2 = Some nb →
  (size nb ≤ Z.to_nat (2 * n self + m self * k self))%nat.
Proof.
  intros Hv Hx Hnb. destruct x as [i j].
  rewrite getNeighbours_list in Hnb by done. injection Hnb as <-.
  rewrite size_list_to_set by apply NoDup_neighbour_list.
  pose proof (length_neighbour_list self i j Hv Hx).
  destruct Hv as (? & ? & ? & _). nia.
Qed.

(** The worklist loop returns when its fuel covers the measure
    [ac_fuel]: the domains in the result are subsets of the ones it
    started from, and the domains of the given cells are untouched. *)
Lemma ac_loop_Some self ib :
  valid_config self →
  ∀ fuel (rd : list (list (gset Z))) arcs,
    square (n self) rd → arcs_ok self ib arcs →
    (ac_fuel self rd arcs ≤ fuel)%nat →
    ∃ rd', ac_loop fuel self rd arcs = Some rd' ∧ square (n self) rd' ∧
      ∀ c d, in_grid (n self) c → grid_get rd c.1 c.2 = Some d →
        ∃ d', grid_get rd' c.1 c.2 = Some d' ∧ d' ⊆ d ∧
              (board_get ib c.1 c.2 ≠ Some (-1) → d' = d).
Proof.
  intros Hv. unfold ac_fuel.
  pose proof (neighbours_bound self) as Hbound. revert Hbound.
  generalize (Z.to_nat (2 * n self + m self * k self)). intros B Hbound.
  induction fuel as [|fuel IH]; intros rd arcs Hsq Harcs Hfuel.
  - destruct arcs as [|[x y] arcs]; [|cbn [length] in Hfuel; lia].
    exists rd. split_and!; [done..|]. intros c d _ Hd. by exists d.
  - destruct arcs as [|[x y] arcs].
    { exists rd. split_and!; [done..|]. intros c d _ Hd. by exists d. }
    destruct (Harcs x y) as (Hx & Hy & Hopen); [left|].
    assert (Harcs' : arcs_ok self ib arcs) by (intros ???; apply Harcs; by right).
    destruct (ac_step_Some self rd x y arcs Hv Hsq Hx Hy)
      as (rd1 & arcs1 & Hstep & Hsq1 & Hother & (dx & dx1 & Hdx & Hdx1 & Hsub) & Hcase).
    cbn [ac_loop]. rewrite Hstep. cbn [mbind option_bind].
    destruct (IH rd1 arcs1) as (rd' & Hrun & Hsq' & Hres); [done| | |].
    + destruct Hcase as [[-> ->]|(_ & nb & Hnb & ->)]; [done|].
      apply arcs_ok_app; [done|]. by apply (arcs_ok_from self ib x nb).
    + cbn [length] in Hfuel.
      destruct Hcase as [[-> ->]|(Hlt & nb & Hnb & ->)]; [lia|].
      rewrite length_app. unfold arcs_from. rewrite length_fmap, set_iter_length.
      pose proof (Hbound x nb Hv Hx Hnb). nia.
    + exists rd'. split_and!; [done..|]. intros c d Hc Hd.
      destruct (decide (c = x)) as [->|Hcx].
      * assert (d = dx) as -> by congruence.
        destruct (Hres x dx1 Hx Hdx1) as (d' & Hd' & Hsub' & _).
        exists d'. split_and!; [done|set_solver|]. intros Hgiven. by destruct Hgiven.
      * rewrite <- Hother in Hd by done.
        destruct (Hres c d Hc Hd) as (d' & Hd' & Hsub' & Hgiven). by exists d'.
Qed.

Lemma ac_init_set_reducedDomains self x :
  ac_init (set_reducedDomains self x) = ac_init self.
Proof. reflexivity. Qed.

Lemma ac_loop_set_reducedDomains self x fuel rd arcs :
  ac_loop fuel (set_reducedDomains self x) rd arcs = ac_loop fuel self rd arcs.
Proof.
  revert rd arcs. induction fuel as [|fuel IH]; intros rd arcs; [done|].
  destruct arcs as [|[a b] arcs]; [done|]. simpl.
  change (ac_step (set_reducedDomains self x) rd a b arcs) with (ac_step self rd a b arcs).
  destruct (ac_step self rd a b arcs) as [[rd1 arcs1]|]; [|done]. simpl. apply IH.
Qed.

(** The engine a run from scratch produces does not depend on the reduced
    domains the engine held before. *)
Lemma computeReducedDomains_again self self' :
  computeReducedDomains self = Some self' → computeReducedDomains self' = Some self'.
Proof.
  unfold computeReducedDomains. intros Hrun.
  destruct (ac_init self) as [[rd arcs]|] eqn:Hinit; [|done]. simpl in Hrun.
  destruct (ac_loop _ self rd arcs) as [rd'|] eqn:Hloop; [|done]. simpl in Hrun.
  injection Hrun as <-. rewrite ac_init_set_reducedDomains, Hinit. simpl.
  rewrite ac_loop_set_reducedDomains.
  change (ac_fuel (set_reducedDomains self (Some rd')) rd arcs) with (ac_fuel self rd arcs).
  by rewrite Hloop.
Qed.

Lemma givens_valid_bounds self (ib : board) i j v :
  givens_valid self ib → board_get ib i j = Some v → v ≠ -1 → 1 ≤ v ≤ n self.
Proof.
  intros Hg (row & Hrow & Hv)%board_get_elem_of Hne. unfold givens_valid in Hg.
  rewrite Forall_forall in Hg. specialize (Hg row Hrow).
  rewrite Forall_forall in Hg. destruct (Hg v Hv); [done|lia].
Qed.

(** The run of [computeReducedDomains] over a valid configuration and an
    n x n initial board. *)
Lemma computeReducedDomains_Some self ib :
  valid_config self → initialBoard self = Some ib → square (n self) ib →
  ∃ rd0 arcs rd,
    ac_init self = Some (rd0, arcs) ∧
    ac_loop (ac_fuel self rd0 arcs) self rd0 arcs = Some rd ∧
    computeReducedDomains self = Some (set_reducedDomains self (Some rd)) ∧
    square (n self) rd ∧
    ∀ c v, in_grid (n self) c → board_get ib c.1 c.2 = Some v →
      ∃ d, grid_get rd c.1 c.2 = Some d ∧
           if decide (v = -1) then d ⊆ domain self else d = {[ v ]}.
Proof.
  intros Hv Hib Hsq.
  destruct (ac_init_Some self ib Hv Hib Hsq) as (rd0 & arcs & Hinit & Hsq0 & Harcs & Hdom0).
  destruct (ac_loop_Some self ib Hv (ac_fuel self rd0 arcs) rd0 arcs Hsq0 Harcs)
    as (rd & Hloop & Hsq' & Hres); [done|].
  exists rd0, arcs, rd. split_and!; [done|done| |done|].
  - unfold computeReducedDomains. rewrite Hinit. simpl. by rewrite Hloop.
  - intros c v Hc Hget.
    destruct (Hres c _ Hc (Hdom0 c v Hc Hget)) as (d & Hd & Hsub & Hgiven).
    exists d. split; [done|]. destruct (decide (v = -1)) as [->|Hne]; [done|].
    apply Hgiven. congruence.
Qed.

(** C7: the worklist loop of computeReducedDomains terminates.  A turn of
    the loop never enlarges a domain; it either leaves the domains alone and
    only drops its arc, or strictly lowers the total domain size and appends
    the arcs of one cell; and the run returns for every fuel from
    [ac_fuel] on, with the same result. *)
Theorem computeReducedDomains_terminates self ib :
  valid_config self → initialBoard self = Some ib → square (n self) ib →
  (∀ (rd : list (list (gset Z))) x y arcs,
     square (n self) rd → in_grid (n self) x → in_grid (n self) y →
     ∃ rd' arcs',
       ac_step self rd x y arcs = Some (rd', arcs') ∧
       (∀ c d, in_grid (n self) c → grid_get rd c.1 c.2 = Some d →
               ∃ d', grid_get rd' c.1 c.2 = Some d' ∧ d' ⊆ d) ∧
       ((rd' = rd ∧ arcs' = arcs) ∨
        ((total_size rd' < total_size rd)%nat ∧
         ∃ nb, getNeighbours self x.1 x.2 = Some nb ∧ arcs' = arcs ++ arcs_from x nb))) ∧
  ∃ rd0 arcs self',
    ac_init self = Some (rd0, arcs) ∧
    computeReducedDomains self = Some self' ∧
    ∀ fuel, (ac_fuel self rd0 arcs ≤ fuel)%nat →
            computeReducedDomains_fuel fuel self = Some self'.
Proof.
  intros Hv Hib Hsq. split.
  - intros rd x y arcs Hsqr Hx Hy.
    destruct (ac_step_Some self rd x y arcs Hv Hsqr Hx Hy)
      as (rd' & arcs' & Hstep & _ & Hother & (dx & dx' & Hdx & Hdx' & Hsub) & Hcase).
    exists rd', arcs'. split_and!; [done| |done].
    intros c d Hc Hd. destruct (decide (c = x)) as [->|Hcx].
    + exists dx'. split; [done|]. assert (d = dx) as -> by congruence. done.
    + exists d. split; [|done]. by rewrite Hother.
  - destruct (computeReducedDomains_Some self ib Hv Hib Hsq)
      as (rd0 & arcs & rd & Hinit & Hloop & Hrun & _).
    exists rd0, arcs, (set_reducedDomains self (Some rd)). split_and!; [done..|].
    intros fuel Hfuel. unfold computeReducedDomains_fuel. rewrite Hinit. simpl.
    by rewrite (ac_loop_more_fuel self _ fuel rd0 arcs rd Hloop Hfuel).
Qed.

Lemma computeReducedDomains_terminates_witness :
  ∃ rd0 arcs self',
    ac_init (init 4 2 2 (Some [[1;-1;-1;4];[-1;-1;1;-1];[-1;1;-1;-1];[4;-1;-1;1]]))
      = Some (rd0, arcs) ∧
    computeReducedDomains
      (init 4 2 2 (Some [[1;-1;-1;4];[-1;-1;1;-1];[-1;1;-1;-1];[4;-1;-1;1]])) = Some self' ∧
    ∀ fuel,
      (ac_fuel (init 4 2 2 (Some [[1;-1;-1;4];[-1;-1;1;-1];[-1;1;-1;-1];[4;-1;-1;1]]))%Z
               rd0 arcs ≤ fuel)%nat →
      computeReducedDomains_fuel fuel
        (init 4 2 2 (Some [[1;-1;-1;4];[-1;-1;1;-1];[-1;1;-1;-1];[4;-1;-1;1]])) = Some self'.
Proof.
  apply (computeReducedDomains_terminates
           (init 4 2 2 (Some [[1;-1;-1;4];[-1;-1;1;-1];[-1;1;-1;-1];[4;-1;-1;1]]))
           [[1;-1;-1;4];[-1;-1;1;-1];[-1;1;-1;-1];[4;-1;-1;1]]).
  - unfold valid_config. simpl. split_and!; [lia..|reflexivity|reflexivity].
  - reflexivity.
  - split; [reflexivity|]. repeat constructor.
Defined.

(** C6: after computeReducedDomains every reduced domain is a subset of
    1..n, a cell given in the initial board has the singleton of its value
    as its reduced domain, and a second run yields the same reduced
    domains. *)
Theorem computeReducedDomains_domains self ib :
  valid_config self → domain self = list_to_set (range2 1 (n self + 1)) →
  initialBoard self = Some ib → square (n self) ib → givens_valid self ib →
  ∃ self' rd,
    computeReducedDomains self = Some self' ∧
    reducedDomains self' = Some rd ∧ square (n self) rd ∧
    (∀ c, in_grid (n self) c →
       ∃ d, grid_get rd c.1 c.2 = Some d ∧
            (∀ v, v ∈ d → 1 ≤ v ≤ n self) ∧
            (∀ v, board_get ib c.1 c.2 = Some v → v ≠ -1 → d = {[ v ]})) ∧
    computeReducedDomains self' = Some self'.
Proof.
  intros Hv Hdomain Hib Hsq Hgiv.
  destruct (computeReducedDomains_Some self ib Hv Hib Hsq)
    as (rd0 & arcs & rd & _ & _ & Hrun & Hsq' & Hres).
  exists (set_reducedDomains self (Some rd)), rd. split_and!; [done..| |].
  - intros c Hc. destruct (board_get_Some (n self) ib c Hsq Hc) as [v Hget].
    destruct (Hres c v Hc Hget) as (d & Hd & Hcase).
    exists d. split_and!; [done| |].
    + intros w Hw. destruct (decide (v = -1)) as [->|Hne].
      * apply Hcase in Hw. rewrite Hdomain in Hw.
        apply elem_of_list_to_set, elem_of_range2 in Hw. lia.
      * subst d. apply elem_of_singleton in Hw as ->.
        by apply (givens_valid_bounds self ib c.1 c.2).
    + intros w Hw Hne. rewrite Hget in Hw. injection Hw as <-.
      by rewrite decide_False in Hcase.
  - by apply (computeReducedDomains_again self).
Qed.

Lemma computeReducedDomains_domains_witness :
  ∃ self' rd,
    computeReducedDomains
      (init 4 2 2 (Some [[1;-1;-1;4];[-1;-1;1;-1];[-1;1;-1;-1];[4;-1;-1;1]])) = Some self' ∧
    reducedDomains self' = Some rd ∧ square 4 rd ∧
    (∀ c, in_grid 4 c →
       ∃ d, grid_get rd c.1 c.2 = Some d ∧
            (∀ v, v ∈ d → 1 ≤ v ≤ 4) ∧
            (∀ v, board_get [[1;-1;-1;4];[-1;-1;1;-1];[-1;1;-1;-1];[4;-1;-1;1]] c.1 c.2
                  = Some v → v ≠ -1 → d = {[ v ]})) ∧
    computeReducedDomains self' = Some self'.
Proof.
  apply (computeReducedDomains_domains
           (init 4 2 2 (Some [[1;-1;-1;4];[-1;-1;1;-1];[-1;1;-1;-1];[4;-1;-1;1]]))
           [[1;-1;-1;4];[-1;-1;1;-1];[-1;1;-1;-1];[4;-1;-1;1]]).
  - unfold valid_config. simpl. split_and!; [lia..|reflexivity|reflexivity].
  - reflexivity.
  - reflexivity.
  - split; [reflexivity|]. repeat constructor.
  - unfold givens_valid. simpl. repeat constructor; lia.
Defined.

(** *** Open cells *)

Lemma complete_no_open (b : board) i j : complete b → board_get b i j ≠ Some (-1).
Proof.
  intros Hc (row & Hrow & Hv)%board_get_elem_of. unfold complete in Hc.
  rewrite Forall_forall in Hc. specialize (Hc row Hrow).
  rewrite Forall_forall in Hc. by apply (Hc (-1)).
Qed.

Lemma no_open_complete sz (b : board) :
  square sz b → (∀ c, in_grid sz c → board_get b c.1 c.2 ≠ Some (-1)) → complete b.
Proof.
  intros [Hlen Hrows] Hno. apply Forall_lookup. intros i row Hrow.
  apply Forall_lookup. intros j v Hv ->.
  rewrite Forall_lookup in Hrows. pose proof (Hrows i row Hrow) as Hlr.
  apply lookup_lt_Some in Hrow as Hi. apply lookup_lt_Some in Hv as Hj.
  apply (Hno (Z.of_nat i, Z.of_nat j)); [split; simpl; lia|]. simpl.
  unfold board_get. rewrite grid_get_nonneg by lia. by rewrite !Nat2Z.id, Hrow.
Qed.

(** Filling an open cell with a value lowers the number of open cells. *)
Lemma open_count_fill sz (b b' : board) c v :
  square sz b → in_grid sz c → board_get b c.1 c.2 = Some (-1) → v ≠ -1 →
  board_set b c.1 c.2 v = Some b' → (open_count b' + 1 = open_count b)%nat.
Proof.
  intros Hb Hc Hget Hv Hset. unfold open_count.
  pose proof (grid_sum_set (λ v, if decide (v = -1) then 1%nat else 0%nat)
                sz b b' c (-1) v Hb Hc Hget Hset) as Hsum.
  simpl in Hsum. rewrite decide_False in Hsum by done. lia.
Qed.

(** Writing a value and then the sentinel into an open cell gives the
    board back. *)
Lemma board_set_undo sz (b b1 : board) c v :
  square sz b → in_grid sz c → board_get b c.1 c.2 = Some (-1) →
  board_set b c.1 c.2 v = Some b1 → board_set b1 c.1 c.2 (-1) = Some b.
Proof.
  intros Hb Hc Hget Hset. unfold board_set in *.
  rewrite (grid_set_set sz b b1 c v (-1) Hb Hc Hset).
  by apply (grid_set_same sz).
Qed.

(** *** Cell selection *)

Lemma first_open_Some sz (b : board) cs :
  square sz b → (∀ c, c ∈ cs → in_grid sz c) →
  ∃ c, first_open b cs = Some c ∧
       ((c = (-1, -1) ∧ ∀ c', c' ∈ cs → board_get b c'.1 c'.2 ≠ Some (-1)) ∨
        (in_grid sz c ∧ board_get b c.1 c.2 = Some (-1))).
Proof.
  intros Hb. induction cs as [|c cs IH]; intros Hcs; simpl.
  - exists (-1, -1). split; [done|]. left. split; [done|]. by intros c' ?%elem_of_nil.
  - destruct (board_get_Some sz b c Hb) as [v Hv]; [apply Hcs; left|]. rewrite Hv. simpl.
    destruct (decide (v = -1)) as [->|Hne].
    + exists c. split; [done|]. right. split; [apply Hcs; left|done].
    + destruct IH as (c0 & -> & Hc0); [intros; apply Hcs; by right|].
      exists c0. split; [done|]. destruct Hc0 as [[-> Hall]|?]; [|by right].
      left. split; [done|]. intros c' [->|?]%elem_of_cons; [congruence|by apply Hall].
Qed.

(** [getFirstOpenCell] returns (-1, -1) on a complete board and an open
    cell of the grid otherwise. *)
Lemma getFirstOpenCell_Some self (b : board) :
  square (n self) b →
  ∃ c, getFirstOpenCell self b = Some c ∧
       ((c = (-1, -1) ∧ complete b) ∨
        (in_grid (n self) c ∧ board_get b c.1 c.2 = Some (-1))).
Proof.
  intros Hb. unfold getFirstOpenCell.
  destruct (first_open_Some (n self) b (all_cells (n self)) Hb) as (c & -> & Hc).
  { intros c. by rewrite elem_of_all_cells. }
  exists c. split; [done|]. destruct Hc as [[-> Hall]|?]; [|by right].
  left. split; [done|]. apply (no_open_complete (n self)); [done|].
  intros c Hc. by apply Hall, elem_of_all_cells.
Qed.

Lemma size_bounded (d : gset Z) sz :
  0 ≤ sz → (∀ v, v ∈ d → 1 ≤ v ≤ sz) → len_set d ≤ sz.
Proof.
  intros Hsz Hd. unfold len_set.
  assert (Hsub : d ⊆ list_to_set (range2 1 (sz + 1))).
  { intros v Hv. apply elem_of_list_to_set, elem_of_range2. apply Hd in Hv. lia. }
  apply subseteq_size in Hsub.
  rewrite size_list_to_set in Hsub by apply NoDup_range2.
  pose proof (length_range2 1 (sz + 1)). lia.
Qed.

Lemma cell_domain_bounds self i j d v :
  engine_ok self → cell_domain self i j = Some d → v ∈ d → 1 ≤ v ≤ n self.
Proof.
  intros (_ & _ & Hdom & Hrd). unfold cell_domain.
  destruct (truthy (reducedDomains self)).
  - intros (rd & Hrd' & Hget)%bind_Some Hv. by eapply Hrd.
  - intros [= <-]. apply Hdom.
Qed.

Lemma legal_values_bounds self (b : board) i j lv v :
  engine_ok self → square (n self) b → in_grid (n self) (i, j) →
  getLegalValues self b i j = Some lv → v ∈ lv → 1 ≤ v ≤ n self.
Proof.
  intros Hok Hb Hij Hlv Hv. pose proof Hok as (Hvc & Hd & _).
  destruct (getLegalValues_Some self b i j Hvc Hd Hb Hij) as (lv' & d & Hlv' & Hdom & Hmem).
  rewrite Hlv in Hlv'. injection Hlv' as <-.
  apply Hmem in Hv as [Hv _]. by eapply cell_domain_bounds.
Qed.

(** [getOpenCellMRV] returns (-1, -1) on a complete board and an open cell
    of the grid otherwise. *)
Lemma getOpenCellMRV_Some self (b : board) :
  engine_ok self → square (n self) b →
  ∃ c, getOpenCellMRV self b = Some c ∧
       ((c = (-1, -1) ∧ complete b) ∨
        (in_grid (n self) c ∧ board_get b c.1 c.2 = Some (-1))).
Proof.
  intros Hok Hb. pose proof Hok as (Hvc & Hd & _). unfold getOpenCellMRV.
  match goal with
  | |- context [for_each ?f _ _] =>
      destruct (for_each_prefix
        (λ pre (st : Z * (Z * Z)),
           (st = (n self + 1, (-1, -1)) ∧
            ∀ c', c' ∈ pre → board_get b c'.1 c'.2 ≠ Some (-1)) ∨
           (in_grid (n self) st.2 ∧ board_get b st.2.1 st.2.2 = Some (-1)))
        f (all_cells (n self)) (n self + 1, (-1, -1))) as (st & Hrun & Hst)
  end.
  - left. split; [done|]. by intros c' ?%elem_of_nil.
  - intros pre c st Hc%elem_of_all_cells Hpre.
    destruct (board_get_Some (n self) b c Hb Hc) as [v Hv]. rewrite Hv. simpl.
    destruct (decide (v = -1)) as [->|Hne].
    + destruct c as [i j].
      destruct (getLegalValues_Some self b i j Hvc Hd Hb Hc) as (lv & d & Hlv & _ & _).
      simpl. rewrite Hlv. simpl.
      destruct (decide (len_set lv < st.1)) as [Hlt|Hge].
      * eexists. split; [done|]. right. done.
      * eexists. split; [done|]. destruct Hpre as [[-> _]|?]; [|by right].
        exfalso. apply Hge. simpl.
        assert (len_set lv ≤ n self); [|lia].
        apply size_bounded; [destruct Hvc; lia|].
        intros v. by apply (legal_values_bounds self b i j).
    + eexists. split; [done|]. destruct Hpre as [[-> Hall]|?]; [|by right].
      left. split; [done|]. intros c' [?|Hc']%elem_of_app; [by apply Hall|].
      apply list_elem_of_singleton in Hc' as ->. congruence.
  - rewrite Hrun. simpl. exists st.2. split; [done|].
    destruct Hst as [[-> Hall]|?]; [|by right].
    left. split; [done|]. apply (no_open_complete (n self)); [done|].
    intros c Hc. by apply Hall, elem_of_all_cells.
Qed.

(** *** The recursive drivers *)

Lemma engine_ok_set_checks self x : engine_ok self → engine_ok (set_checks self x).
Proof. intros H. exact H. Qed.

Lemma set_checks_id self : set_checks self (checks self) = self.
Proof. by destruct self. Qed.

Lemma board_set_Some sz (b : board) c v :
  square sz b → in_grid sz c →
  ∃ b', board_set b c.1 c.2 v = Some b' ∧ square sz b'.
Proof.
  intros Hb Hc. destruct (grid_set_Some sz b c v Hb Hc) as (row & _ & Hset).
  eexists. split; [exact Hset|]. by apply (grid_set_square sz b _ c v).
Qed.

Lemma not_square_failure sz (b : board) : 0 < sz → square sz b → [[]] ≠ b.
Proof.
  intros Hsz [Hlen Hrows] <-. apply Forall_cons in Hrows as [Hrow _]. simpl in Hrow. lia.
Qed.

Section BacktrackingProperties.

Variable select : SudokuCSP → list (list Z) → option (Z * Z).
Variable candidates : SudokuCSP → list (list Z) → Z → Z → option (list Z).
Variable admissible : SudokuCSP → list (list Z) → Z → Z → option (bool * SudokuCSP).

Hypothesis select_Some : ∀ csp (b : list (list Z)),
  engine_ok csp → square (n csp) b →
  ∃ c, select csp b = Some c ∧
       ((c = (-1, -1) ∧ complete b) ∨
        (in_grid (n csp) c ∧ board_get b c.1 c.2 = Some (-1))).

Hypothesis candidates_Some : ∀ csp (b : list (list Z)) i j,
  engine_ok csp → square (n csp) b → in_grid (n csp) (i, j) →
  ∃ vs, candidates csp b i j = Some vs ∧ Forall (λ v, v ≠ -1) vs.

Hypothesis admissible_Some : ∀ csp (b : list (list Z)) i j,
  engine_ok csp → square (n csp) b → in_grid (n csp) (i, j) →
  ∃ r, admissible csp b i j = Some (r, set_checks csp (checks csp + 1)).

(** Selection yields (-1, -1) exactly on a complete board. *)
Lemma select_complete csp (b : list (list Z)) :
  engine_ok csp → square (n csp) b → (select csp b = Some (-1, -1) ↔ complete b).
Proof.
  intros Hok Hb. destruct (select_Some csp b Hok Hb) as (c & Hsel & Hc). rewrite Hsel.
  destruct Hc as [[-> Hcomp]|[[Hi _] Hopen]].
  - done.
  - split.
    + intros [= ->]. simpl in Hi. lia.
    + intros Hcomp. by apply complete_no_open in Hopen.
Qed.

(** The loop over the candidate values at an open cell, given what the
    recursive call does with the fuel it gets. *)
Lemma try_values_spec fuel i j (b : list (list Z)) csp0 :
  (∀ (b' : list (list Z)) csp', engine_ok csp' → square (n csp') b' →
     (∀ o, backtrack select candidates admissible fuel b' csp' = Some o →
           driver_post b' csp' o) ∧
     ((open_count b' < fuel)%nat →
      is_Some (backtrack select candidates admissible fuel b' csp'))) →
  engine_ok csp0 → square (n csp0) b → in_grid (n csp0) (i, j) →
  board_get b i j = Some (-1) →
  ∀ vs x, Forall (λ v, v ≠ -1) vs → checks csp0 ≤ x →
    (∀ o, try_values admissible (backtrack select candidates admissible fuel)
                     i j vs b (set_checks csp0 x) = Some o →
          driver_post b csp0 o) ∧
    ((open_count b ≤ fuel)%nat →
     is_Some (try_values admissible (backtrack select candidates admissible fuel)
                         i j vs b (set_checks csp0 x))).
Proof.
  intros IHfuel Hok Hb Hij Hopen. induction vs as [|value vs IH]; intros x Hvs Hx.
  - simpl. split; [|by eexists]. intros o [= <-]. split; [by exists x|]. simpl.
    split_and!; [done..|]. intros Hc. by apply complete_no_open in Hopen.
  - apply Forall_cons in Hvs as [Hvalue Hvs]. cbn [try_values].
    destruct (board_set_Some (n csp0) b (i, j) value Hb Hij) as (b1 & Hset & Hb1).
    simpl in Hset. rewrite Hset. cbn [mbind option_bind].
    pose proof (board_set_undo (n csp0) b b1 (i, j) value Hb Hij Hopen Hset) as Hundo.
    simpl in Hundo.
    destruct (admissible_Some (set_checks csp0 x) b1 i j) as (ok & Hadm); [done..|].
    rewrite Hadm. cbn [mbind option_bind]. simpl.
    change (set_checks (set_checks csp0 x) (x + 1)) with (set_checks csp0 (x + 1)).
    destruct ok.
    + destruct (IHfuel b1 (set_checks csp0 (x + 1))) as [Hpart Htot]; [done..|].
      assert (Hcont : ∀ r, backtrack select candidates admissible fuel b1
                             (set_checks csp0 (x + 1)) = Some r →
                (result r = true ∧ driver_post b csp0 r) ∨
                (result r = false ∧ boardAfter r = b1 ∧
                 ∃ x', engineAfter r = set_checks csp0 x' ∧ checks csp0 ≤ x')).
      { intros r Hr. destruct (Hpart r Hr) as [(x' & Hx' & Hle) Hres]. simpl in Hle.
        destruct (result r) eqn:Hrr.
        - left. split; [done|]. split; [exists x'; split; [done|lia]|].
          rewrite Hrr. exact Hres.
        - right. split; [done|]. destruct Hres as (Hba & _). split; [done|].
          exists x'. split; [done|lia]. }
      split.
      * intros o Ho.
        destruct (backtrack select candidates admissible fuel b1 (set_checks csp0 (x + 1)))
          as [r|] eqn:Hr; [|done]. cbn [mbind option_bind] in Ho.
        destruct (Hcont r eq_refl) as [[Hrr Hpost]|(Hrr & Hba & x' & Hx' & Hle)];
          rewrite Hrr in Ho.
        -- by injection Ho as <-.
        -- rewrite Hba, Hundo in Ho. cbn [mbind option_bind] in Ho. rewrite Hx' in Ho.
           by apply (IH x').
      * intros Hfuel.
        destruct Htot as [r Hr].
        { pose proof (open_count_fill (n csp0) b b1 (i, j) value Hb Hij Hopen Hvalue Hset).
          lia. }
        rewrite Hr. cbn [mbind option_bind].
        destruct (Hcont r Hr) as [[Hrr Hpost]|(Hrr & Hba & x' & Hx' & Hle)]; rewrite Hrr.
        -- by eexists.
        -- rewrite Hba, Hundo. cbn [mbind option_bind]. rewrite Hx'. by apply (IH x').
    + rewrite Hundo. cbn [mbind option_bind]. apply IH; [done|lia].
Qed.

(** The recursive driver, for every fuel. *)
Lemma backtrack_spec fuel :
  ∀ (b : list (list Z)) csp, engine_ok csp → square (n csp) b →
    (∀ o, backtrack select candidates admissible fuel b csp = Some o → driver_post b csp o) ∧
    ((open_count b < fuel)%nat →
     is_Some (backtrack select candidates admissible fuel b csp)).
Proof.
  induction fuel as [|fuel IH]; intros b csp Hok Hb.
  - split; [done|lia].
  - cbn [backtrack].
    destruct (select_Some csp b Hok Hb) as ([i j] & -> & Hc). cbn [mbind option_bind].
    destruct Hc as [[[= -> ->] Hcomp]|[Hij Hopen]].
    + rewrite decide_True by done. split; [|by eexists].
      intros o [= <-]. split; [exists (checks csp); by rewrite set_checks_id|]. simpl. done.
    + rewrite decide_False by (destruct Hij as [Hi _]; simpl in Hi; lia).
      destruct (candidates_Some csp b i j Hok Hb Hij) as (vs & -> & Hvs).
      cbn [mbind option_bind].
      destruct (try_values_spec fuel i j b csp IH Hok Hb Hij Hopen vs (checks csp) Hvs)
        as [Hpart Htot]; [lia|].
      rewrite set_checks_id in Hpart, Htot. split; [done|]. intros Hfuel. apply Htot. lia.
Qed.

(** The properties of a driver in terms of its cell selection. *)
Lemma backtrack_driver (b : list (list Z)) csp :
  engine_ok csp → square (n csp) b →
  (select csp b = Some (-1, -1) →
   ∀ fuel, backtrack select candidates admissible (S fuel) b csp
           = Some (mkOutcome true b b csp)) ∧
  (∀ fuel, (open_count b < fuel)%nat →
           is_Some (backtrack select candidates admissible fuel b csp)) ∧
  (∀ fuel o, backtrack select candidates admissible fuel b csp = Some o →
     if result o
     then resultBoard o = boardAfter o ∧
          select (engineAfter o) (boardAfter o) = Some (-1, -1) ∧
          (boardAfter o = b → select csp b = Some (-1, -1))
     else boardAfter o = b ∧ resultBoard o = [[]] ∧
          select csp b ≠ Some (-1, -1) ∧
          ∀ b' : list (list Z), square (n csp) b' → resultBoard o ≠ b').
Proof.
  intros Hok Hb. split_and!.
  - intros Hsel fuel. cbn [backtrack]. rewrite Hsel. cbn [mbind option_bind].
    by rewrite decide_True.
  - intros fuel. by apply backtrack_spec.
  - intros fuel o Ho. destruct (backtrack_spec fuel b csp Hok Hb) as [Hpart _].
    destruct (Hpart o Ho) as [(x & Hx & Hle) Hres].
    destruct (result o).
    + destruct Hres as (Hrb & Hsq & Hcomp). split_and!; [done| |].
      * rewrite Hx. apply select_complete; [by apply engine_ok_set_checks|done..].
      * intros <-. by apply select_complete.
    + destruct Hres as (Hba & Hrb & Hnc). split_and!; [done..| |].
      * by rewrite select_complete.
      * intros b' Hb'. rewrite Hrb. apply (not_square_failure (n csp)); [|done].
        destruct Hok as ((? & _) & _). done.
Qed.

End BacktrackingProperties.

Lemma domain_candidates csp (b : board) i j :
  engine_ok csp → square (n csp) b → in_grid (n csp) (i, j) →
  ∃ vs, Some (set_iter (getDomain csp)) = Some vs ∧ Forall (λ v, v ≠ -1) vs.
Proof.
  intros (_ & _ & Hdom & _) _ _. eexists. split; [done|].
  apply Forall_forall. intros v Hv%set_iter_elem_of%Hdom. lia.
Qed.

Lemma getLCVList_candidates csp (b : board) i j :
  engine_ok csp → square (n csp) b → in_grid (n csp) (i, j) →
  ∃ vs, getLCVList csp b i j = Some vs ∧ Forall (λ v, v ≠ -1) vs.
Proof.
  intros Hok Hb Hij. pose proof Hok as (Hvc & Hd & _).
  destruct (getLCVList_Some csp b i j Hvc Hd Hb Hij) as (lv & un & Hlv & _ & Hrun & Hperm).
  eexists. split; [exact Hrun|]. rewrite Hperm.
  apply Forall_forall. intros v Hv%set_iter_elem_of.
  pose proof (legal_values_bounds csp b i j lv v Hok Hb Hij Hlv Hv). lia.
Qed.

Lemma check_admissible csp (b : board) i j :
  engine_ok csp → square (n csp) b → in_grid (n csp) (i, j) →
  ∃ r, check csp b i j true = Some (r, set_checks csp (checks csp + 1)).
Proof.
  intros (Hvc & _) Hb Hij.
  destruct (check_Some csp b i j true Hvc Hb Hij) as (v & r & _ & Hchk & _). by exists r.
Qed.

(** The forward check returns on a board of the grid. *)
Lemma checkNeighboursConsistent_Some csp (b : board) i j :
  engine_ok csp → square (n csp) b → in_grid (n csp) (i, j) →
  is_Some (checkNeighboursConsistent csp b i j).
Proof.
  intros Hok Hb Hij. pose proof Hok as (Hvc & Hd & _). unfold checkNeighboursConsistent.
  destruct (getUnassignedNeighbours_Some csp b i j Hvc Hb Hij) as (un & -> & Hmem).
  cbn [mbind option_bind].
  match goal with
  | |- context [all_ok ?f ?l] => destruct (all_ok_Some f l) as (r & -> & _); [|by eexists]
  end.
  intros [a c] [(_ & Hc & _) _]%set_iter_elem_of%Hmem. simpl.
  destruct (getLegalValues_Some csp b a c Hvc Hd Hb Hc) as (lv & ? & -> & _). by eexists.
Qed.

Lemma check_fwd_admissible csp (b : board) i j :
  engine_ok csp → square (n csp) b → in_grid (n csp) (i, j) →
  ∃ r, check_fwd csp b i j = Some (r, set_checks csp (checks csp + 1)).
Proof.
  intros Hok Hb Hij. unfold check_fwd.
  destruct (check_admissible csp b i j Hok Hb Hij) as (r & ->). cbn [mbind option_bind].
  destruct r; [|by eexists].
  destruct (checkNeighboursConsistent_Some (set_checks csp (checks csp + 1)) b i j) as [r ->];
    [done..|].
  by eexists.
Qed.

(** C5: for each of the four recursive drivers, with the cell selection it
    uses: when the selection yields (-1, -1) on entry the driver returns
    success with the board as it is; with fuel beyond the number of open
    cells it returns; a success returns the working board, on which the
    selection yields (-1, -1), and leaves the board unchanged only if the
    selection yielded (-1, -1) on entry; a failure leaves the board as it
    was on entry and returns [[[]]], which is no n x n board. *)
Theorem backtracking_drivers_spec driver select (b : board) csp :
  (driver, select) ∈ driver_family →
  engine_ok csp → square (n csp) b →
  (select csp b = Some (-1, -1) →
   ∀ fuel, driver (S fuel) b csp = Some (mkOutcome true b b csp)) ∧
  (∀ fuel, (open_count b < fuel)%nat → is_Some (driver fuel b csp)) ∧
  (∀ fuel o, driver fuel b csp = Some o →
     if result o
     then resultBoard o = boardAfter o ∧
          select (engineAfter o) (boardAfter o) = Some (-1, -1) ∧
          (boardAfter o = b → select csp b = Some (-1, -1))
     else boardAfter o = b ∧ resultBoard o = [[]] ∧
          select csp b ≠ Some (-1, -1) ∧
          ∀ b' : list (list Z), square (n csp) b' → resultBoard o ≠ b').
Proof.
  intros Hin Hok Hb. unfold driver_family in Hin.
  repeat (apply elem_of_cons in Hin as [Hin|Hin]; [injection Hin as -> ->|]).
  - apply backtrack_driver; [|apply domain_candidates|apply check_admissible|done..].
    intros csp' b' _. apply getFirstOpenCell_Some.
  - apply backtrack_driver;
      [apply getOpenCellMRV_Some|apply getLCVList_candidates|apply check_admissible|done..].
  - apply backtrack_driver;
      [apply getOpenCellMRV_Some|apply getLCVList_candidates|apply check_fwd_admissible
      |done..].
  - apply backtrack_driver;
      [apply getOpenCellMRV_Some|apply getLCVList_candidates|apply check_admissible|done..].
  - by apply elem_of_nil in Hin.
Qed.

Lemma backtracking_drivers_spec_witness :
  (∀ fuel, backtrackingRecursive (S fuel)
             [[1;3;2;4];[2;4;1;3];[3;1;4;2];[4;2;3;1]] (init 4 2 2 None)
           = Some (mkOutcome true [[1;3;2;4];[2;4;1;3];[3;1;4;2];[4;2;3;1]]
                             [[1;3;2;4];[2;4;1;3];[3;1;4;2];[4;2;3;1]]
                             (init 4 2 2 None))) ∧
  is_Some (backtrackingMRVfwdRecursive 13
             [[1;-1;-1;4];[-1;-1;1;-1];[-1;1;-1;-1];[4;-1;-1;1]] (init 4 2 2 None)).
Proof.
  assert (Hok : engine_ok (init 4 2 2 None)).
  { split_and!.
    - unfold valid_config. simpl. split_and!; [lia..|reflexivity|reflexivity].
    - intros rd Hrd. discriminate Hrd.
    - intros v Hv. unfold init, domain in Hv.
      apply elem_of_list_to_set, elem_of_range2 in Hv. simpl. lia.
    - intros rd i j d v Hrd. discriminate Hrd. }
  split.
  - destruct (backtracking_drivers_spec backtrackingRecursive getFirstOpenCell
                [[1;3;2;4];[2;4;1;3];[3;1;4;2];[4;2;3;1]] (init 4 2 2 None))
      as (Hbase & _ & _).
    + unfold driver_family. apply list_elem_of_here.
    + exact Hok.
    + split; [reflexivity|]. repeat constructor.
    + apply Hbase. reflexivity.
  - destruct (backtracking_drivers_spec backtrackingMRVfwdRecursive getOpenCellMRV
                [[1;-1;-1;4];[-1;-1;1;-1];[-1;1;-1;-1];[4;-1;-1;1]] (init 4 2 2 None))
      as (_ & Htotal & _).
    + unfold driver_family. do 2 apply list_elem_of_further. apply list_elem_of_here.
    + exact Hok.
    + split; [reflexivity|]. repeat constructor.
    + apply Htotal. vm_compute. lia.
Defined.

(** ** Further properties of the engine *)

(** *** Single-cell and full-board consistency *)

Lemma NoDup_cell_values_distinct (b : board) cs c c' v :
  NoDup (cell_values b cs) → c ∈ cs → c' ∈ cs → c ≠ c' →
  board_get b c.1 c.2 = Some v → board_get b c'.1 c'.2 = Some v → False.
Proof.
  unfold cell_values. induction cs as [|x cs IH]; intros Hnd Hc Hc' Hne Hv Hv'.
  - by apply elem_of_nil in Hc.
  - csimpl in Hnd.
    assert (Hin : ∀ y, y ∈ cs → board_get b y.1 y.2 = Some v →
              v ∈ omap (λ c : Z * Z, board_get b c.1 c.2) cs).
    { intros y Hy Hyv. apply list_elem_of_omap. by exists y. }
    apply elem_of_cons in Hc as [->|Hc]; apply elem_of_cons in Hc' as [->|Hc'].
    + done.
    + rewrite Hv in Hnd. apply NoDup_cons in Hnd as [Hnin _]. apply Hnin. by apply (Hin c').
    + rewrite Hv' in Hnd. apply NoDup_cons in Hnd as [Hnin _]. apply Hnin. by apply (Hin c).
    + apply IH; [|done..]. destruct (board_get b x.1 x.2); [|done].
      by apply NoDup_cons in Hnd as [_ ?].
Qed.

(** Two neighbouring cells of the grid lie in a common unit. *)
Lemma neighbour_common_unit self c c' :
  valid_config self → in_grid (n self) c → neighbour self c c' →
  ∃ u, unit_cells self u ∧ c ∈ u ∧ c' ∈ u.
Proof.
  intros (Hn & Hm & Hk & Hnm & Hnk) [Hi Hj] (_ & [Hi' Hj'] & Hrel).
  destruct c as [i j], c' as [i' j']. simpl in *.
  destruct Hrel as [Hr|[Hr|[Hr1 Hr2]]]; simpl in *.
  - subst i'. exists (row_cells (n self) i). split; [left; by exists i|].
    split; apply list_elem_of_fmap; eexists; (split; [done|by apply elem_of_range]).
  - subst j'. exists (col_cells (n self) j). split; [right; left; by exists j|].
    split; apply list_elem_of_fmap; eexists; (split; [done|by apply elem_of_range]).
  - exists (subgrid_cells (i `div` m self * m self) (j `div` k self * k self)
                          (m self) (k self)).
    split_and!.
    + right; right. exists (i `div` m self), (j `div` k self).
      split; [|split]; [| |done].
      * apply Z.mod_divide in Hnm as [q Hq]; [|lia]. rewrite Hq in Hi |- *.
        rewrite Z.div_mul by lia. split; [apply Z.div_pos; lia|].
        apply Z.div_lt_upper_bound; lia.
      * apply Z.mod_divide in Hnk as [q Hq]; [|lia]. rewrite Hq in Hj |- *.
        rewrite Z.div_mul by lia. split; [apply Z.div_pos; lia|].
        apply Z.div_lt_upper_bound; lia.
    + apply elem_of_subgrid_cells. simpl. split; by apply block_bounds.
    + apply elem_of_subgrid_cells. simpl. split; apply block_iff; done.
Qed.

(** No unit holds a duplicate exactly when no cell shares its value with a
    neighbour. *)
Lemma units_no_duplicate_iff self (b : board) :
  valid_config self →
  units_no_duplicate self b ↔
  ∀ c c' v, in_grid (n self) c → neighbour self c c' →
            board_get b c.1 c.2 = Some v → board_get b c'.1 c'.2 = Some v → False.
Proof.
  intros Hv. split; [|by apply no_conflict_units].
  intros Hu c c' v Hc Hn' Hget Hget'.
  destruct (neighbour_common_unit self c c' Hv Hc Hn') as (u & Hunit & Hcu & Hcu').
  apply (NoDup_cell_values_distinct b u c c' v); [by apply Hu|done|done| |done|done].
  destruct Hn' as (Hne & _). congruence.
Qed.

(** X1: on an n x n board checkAll returns true exactly when check returns
    true at every cell of the grid. *)
Theorem checkAll_iff_check_everywhere self (b : board) :
  valid_config self → square (n self) b →
  ∃ r, fst <$> checkAll self b = Some r ∧
       (r = true ↔
        ∀ i j, in_grid (n self) (i, j) → fst <$> check self b i j false = Some true).
Proof.
  intros Hv Hb. destruct (checkAll_Some self b Hv Hb) as (r & Hr & Hiff).
  exists r. split; [by rewrite Hr|]. rewrite Hiff, units_no_duplicate_iff by done. split.
  - intros Hfree i j Hij.
    destruct (check_Some self b i j false Hv Hb Hij) as (v & r' & Hget & -> & Hr').
    simpl. f_equal. destruct r'; [done|]. exfalso.
    destruct Hr' as [(c' & Hn' & Hget') _]; [done|]. by apply (Hfree (i, j) c' v).
  - intros Hall [i j] c' v Hc Hn' Hget Hget'.
    destruct (check_Some self b i j false Hv Hb Hc) as (w & r' & Hw & Hchk & Hr').
    specialize (Hall i j Hc). rewrite Hchk in Hall. simpl in *. injection Hall as ->.
    assert (w = v) as -> by congruence.
    destruct Hr' as [_ Hr']. discriminate Hr'. by exists c'.
Qed.

Lemma checkAll_iff_check_everywhere_witness :
  ∃ r, fst <$> checkAll (init 4 2 2 None) [[1;3;2;4];[2;4;1;3];[3;1;4;2];[4;2;3;1]] = Some r ∧
       (r = true ↔
        ∀ i j, in_grid 4 (i, j) →
               fst <$> check (init 4 2 2 None) [[1;3;2;4];[2;4;1;3];[3;1;4;2];[4;2;3;1]]
                             i j false = Some true).
Proof.
  apply (checkAll_iff_check_everywhere (init 4 2 2 None)
           [[1;3;2;4];[2;4;1;3];[3;1;4;2];[4;2;3;1]]).
  - unfold valid_config. simpl. split_and!; [lia..|reflexivity|reflexivity].
  - split; [reflexivity|]. repeat constructor.
Defined.

(** *** Neighbours and legal values *)

(** X2: getNeighbours raises exactly when a sub-grid side is zero: with
    m = 0 or k = 0 the division fails, and with positive m and k the cell is
    always among the cells collected, so that removing it never fails,
    whatever the indices are. *)
Theorem getNeighbours_raises self i j :
  (m self = 0 ∨ k self = 0 → getNeighbours self i j = None) ∧
  (0 < m self → 0 < k self → is_Some (getNeighbours self i j)).
Proof.
  split.
  - intros Hz. unfold getNeighbours, sb.
    destruct (decide (m self = 0)) as [Hm|Hm]; [done|].
    destruct Hz as [?|Hk]; [done|]. simpl. by rewrite decide_True.
  - intros Hm Hk. destruct (getNeighbours_Some self i j Hm Hk) as (s & -> & _). by eexists.
Qed.

Lemma getNeighbours_raises_witness :
  getNeighbours (init 4 0 2 None) 1 1 = None ∧
  is_Some (getNeighbours (init 4 2 2 None) (-3) 7).
Proof.
  split.
  - apply (getNeighbours_raises (init 4 0 2 None) 1 1). left. reflexivity.
  - apply (getNeighbours_raises (init 4 2 2 None) (-3) 7); simpl; lia.
Defined.

(** X3: the unassigned neighbours of a cell are exactly the cells of its
    neighbour set that hold -1 on the board. *)
Theorem getUnassignedNeighbours_filter self (b : board) i j :
  valid_config self → square (n self) b → in_grid (n self) (i, j) →
  ∃ nb un, getNeighbours self i j = Some nb ∧
           getUnassignedNeighbours self b i j = Some un ∧
           ∀ c, c ∈ un ↔ c ∈ nb ∧ board_get b c.1 c.2 = Some (-1).
Proof.
  intros Hv Hb Hij.
  destruct (getNeighbours_neighbour self (i, j) Hv Hij) as (nb & Hnb & Hmem).
  destruct (getUnassignedNeighbours_Some self b i j Hv Hb Hij) as (un & Hun & Hmem').
  exists nb, un. split_and!; [done..|]. intros c. by rewrite Hmem', Hmem.
Qed.

Lemma getUnassignedNeighbours_filter_witness :
  ∃ nb un,
    getNeighbours (init 4 2 2 None) 0 1 = Some nb ∧
    getUnassignedNeighbours (init 4 2 2 None)
      [[1;-1;-1;4];[-1;-1;1;-1];[-1;1;-1;-1];[4;-1;-1;1]] 0 1 = Some un ∧
    ∀ c, c ∈ un ↔
         c ∈ nb ∧
         board_get [[1;-1;-1;4];[-1;-1;1;-1];[-1;1;-1;-1];[4;-1;-1;1]] c.1 c.2 = Some (-1).
Proof.
  apply (getUnassignedNeighbours_filter (init 4 2 2 None)
           [[1;-1;-1;4];[-1;-1;1;-1];[-1;1;-1;-1];[4;-1;-1;1]] 0 1).
  - unfold valid_config. simpl. split_and!; [lia..|reflexivity|reflexivity].
  - split; [reflexivity|]. repeat constructor.
  - unfold in_grid. simpl. lia.
Defined.

(** After writing [v] into a cell, check at that cell answers whether a
    neighbour holds [v] on the board before the write. *)
Lemma check_after_set self (b b1 : board) i j v :
  valid_config self → square (n self) b → in_grid (n self) (i, j) →
  board_set b i j v = Some b1 →
  ∃ r, check self b1 i j true = Some (r, set_checks self (checks self + 1)) ∧
       (r = false ↔ ∃ c, neighbour self (i, j) c ∧ board_get b c.1 c.2 = Some v).
Proof.
  intros Hv Hb Hij Hset.
  pose proof (grid_set_square (n self) b b1 (i, j) v Hb Hij Hset) as Hb1.
  destruct (check_Some self b1 i j true Hv Hb1 Hij) as (w & r & Hw & Hchk & Hr).
  pose proof (grid_get_set_eq (n self) b b1 (i, j) v Hb Hij Hset) as Heq.
  simpl in Heq. unfold board_get in Hw. rewrite Heq in Hw. injection Hw as <-.
  exists r. split; [done|]. rewrite Hr.
  split; intros (c & Hc & Hget); exists c; (split; [done|]).
  - rewrite <- Hget. symmetry.
    apply (grid_get_set_ne (n self) b b1 (i, j) c v Hb Hij); [apply Hc|apply Hc|done].
  - rewrite <- Hget.
    apply (grid_get_set_ne (n self) b b1 (i, j) c v Hb Hij); [apply Hc|apply Hc|done].
Qed.

(** X4: a value is legal at a cell exactly when it belongs to the domain of
    the cell and check passes once the value is written into the cell. *)
Theorem getLegalValues_iff_check self (b : board) i j :
  valid_config self → domains_ok self → square (n self) b → in_grid (n self) (i, j) →
  ∃ lv d, getLegalValues self b i j = Some lv ∧ cell_domain self i j = Some d ∧
    ∀ v, v ∈ lv ↔
         v ∈ d ∧ ∃ b1, board_set b i j v = Some b1 ∧
                       fst <$> check self b1 i j true = Some true.
Proof.
  intros Hv Hd Hb Hij.
  destruct (getLegalValues_Some self b i j Hv Hd Hb Hij) as (lv & d & Hlv & Hdom & Hmem).
  exists lv, d. split_and!; [done..|]. intros v. rewrite Hmem.
  apply and_iff_compat_l.
  destruct (board_set_Some (n self) b (i, j) v Hb Hij) as (b1 & Hset & _). simpl in Hset.
  destruct (check_after_set self b b1 i j v Hv Hb Hij Hset) as (r & Hchk & Hr).
  split.
  - intros Hfree. exists b1. split; [done|]. rewrite Hchk. simpl. f_equal.
    destruct r; [done|]. exfalso. by apply Hfree, Hr.
  - intros (b1' & Hset' & Hok) Hex. rewrite Hset in Hset'. injection Hset' as <-.
    rewrite Hchk in Hok. simpl in Hok. injection Hok as ->.
    apply Hr in Hex. done.
Qed.

Lemma getLegalValues_iff_check_witness :
  ∃ lv d,
    getLegalValues (init 4 2 2 None)
      [[1;-1;-1;4];[-1;-1;1;-1];[-1;1;-1;-1];[4;-1;-1;1]] 0 1 = Some lv ∧
    cell_domain (init 4 2 2 None) 0 1 = Some d ∧
    ∀ v, v ∈ lv ↔
         v ∈ d ∧
         ∃ b1, board_set [[1;-1;-1;4];[-1;-1;1;-1];[-1;1;-1;-1];[4;-1;-1;1]] 0 1 v = Some b1 ∧
               fst <$> check (init 4 2 2 None) b1 0 1 true = Some true.
Proof.
  apply (getLegalValues_iff_check (init 4 2 2 None)
           [[1;-1;-1;4];[-1;-1;1;-1];[-1;1;-1;-1];[4;-1;-1;1]] 0 1).
  - unfold valid_config. simpl. split_and!; [lia..|reflexivity|reflexivity].
  - intros rd Hrd. discriminate Hrd.
  - split; [reflexivity|]. repeat constructor.
  - unfold in_grid. simpl. lia.
Defined.

(** What the forward check answers. *)
Lemma checkNeighboursConsistent_spec self (b : board) pos_i pos_j :
  valid_config self → domains_ok self → square (n self) b →
  in_grid (n self) (pos_i, pos_j) →
  ∃ r, checkNeighboursConsistent self b pos_i pos_j = Some r ∧
       (r = true ↔
        ∀ c, neighbour self (pos_i, pos_j) c → board_get b c.1 c.2 = Some (-1) →
             ∃ lv, getLegalValues self b c.1 c.2 = Some lv ∧ lv ≠ ∅).
Proof.
  intros Hv Hd Hb Hpos. unfold checkNeighboursConsistent.
  destruct (getUnassignedNeighbours_Some self b pos_i pos_j Hv Hb Hpos) as (un & -> & Hmem).
  cbn [mbind option_bind].
  assert (Hbody : ∀ c : Z * Z, c ∈ set_iter un →
            ∃ lv, getLegalValues self b c.1 c.2 = Some lv).
  { intros [a c] [(_ & Hc & _) _]%set_iter_elem_of%Hmem.
    destruct (getLegalValues_Some self b a c Hv Hd Hb Hc) as (lv & ? & Hlv & _).
    by exists lv. }
  match goal with
  | |- context [all_ok ?f ?l] => destruct (all_ok_Some f l) as (r & -> & Hr)
  end.
  { intros c Hc. destruct (Hbody c Hc) as [lv ->]. by eexists. }
  exists r. split; [done|]. rewrite Hr. split.
  - intros Hall c Hn' Hopen.
    assert (Hc : c ∈ set_iter un) by (by apply set_iter_elem_of, Hmem).
    destruct (Hbody c Hc) as [lv Hlv]. exists lv. split; [done|].
    specialize (Hall c Hc). rewrite Hlv in Hall. simpl in Hall.
    injection Hall as Hall. apply negb_true_iff, bool_decide_eq_false in Hall.
    intros ->. apply Hall. unfold len_set. by rewrite size_empty.
  - intros Hall c Hc. pose proof Hc as [Hn' Hopen]%set_iter_elem_of%Hmem.
    destruct (Hall c Hn' Hopen) as (lv & -> & Hne). simpl. f_equal.
    apply negb_true_iff, bool_decide_eq_false. unfold len_set. intros Hz.
    apply Hne, leibniz_equiv, size_empty_iff. lia.
Qed.

(** X5: checkNeighboursConsistent returns true exactly when every
    unassigned neighbour of the cell has at least one legal value left. *)
Theorem checkNeighboursConsistent_iff self (b : board) pos_i pos_j :
  valid_config self → domains_ok self → square (n self) b →
  in_grid (n self) (pos_i, pos_j) →
  ∃ r un, getUnassignedNeighbours self b pos_i pos_j = Some un ∧
          checkNeighboursConsistent self b pos_i pos_j = Some r ∧
          (r = true ↔
           ∀ c, c ∈ un → ∃ lv, getLegalValues self b c.1 c.2 = Some lv ∧ lv ≠ ∅).
Proof.
  intros Hv Hd Hb Hpos.
  destruct (getUnassignedNeighbours_Some self b pos_i pos_j Hv Hb Hpos) as (un & Hun & Hmem).
  destruct (checkNeighboursConsistent_spec self b pos_i pos_j Hv Hd Hb Hpos)
    as (r & Hr & Hiff).
  exists r, un. split_and!; [done..|]. rewrite Hiff. split.
  - intros Hall c [Hn' Hopen]%Hmem. by apply Hall.
  - intros Hall c Hn' Hopen. apply Hall, Hmem. done.
Qed.

Lemma checkNeighboursConsistent_iff_witness :
  ∃ r un,
    getUnassignedNeighbours (init 4 2 2 None)
      [[1;2;-1;4];[-1;-1;1;-1];[-1;1;-1;-1];[4;-1;-1;1]] 0 1 = Some un ∧
    checkNeighboursConsistent (init 4 2 2 None)
      [[1;2;-1;4];[-1;-1;1;-1];[-1;1;-1;-1];[4;-1;-1;1]] 0 1 = Some r ∧
    (r = true ↔
     ∀ c, c ∈ un →
          ∃ lv, getLegalValues (init 4 2 2 None)
                  [[1;2;-1;4];[-1;-1;1;-1];[-1;1;-1;-1];[4;-1;-1;1]] c.1 c.2 = Some lv ∧
                lv ≠ ∅).
Proof.
  apply (checkNeighboursConsistent_iff (init 4 2 2 None)
           [[1;2;-1;4];[-1;-1;1;-1];[-1;1;-1;-1];[4;-1;-1;1]] 0 1).
  - unfold valid_config. simpl. split_and!; [lia..|reflexivity|reflexivity].
  - intros rd Hrd. discriminate Hrd.
  - split; [reflexivity|]. repeat constructor.
  - unfold in_grid. simpl. lia.
Defined.

(** *** The order of the scans *)

Lemma StronglySorted_range2 start stop : StronglySorted Z.lt (range2 start stop).
Proof.
  unfold range2. destruct (decide (0 ≤ stop - start)) as [Hle|Hgt].
  - rewrite <- (Z2Nat.id (stop - start)) by done.
    induction (Z.to_nat (stop - start)) as [|len IH]; [constructor|].
    rewrite seqZ_S. apply StronglySorted_app_2; [|done|repeat constructor].
    intros x1 x2 Hx1%elem_of_seqZ Hx2%list_elem_of_singleton. lia.
  - replace (seqZ start (stop - start)) with (@nil Z); [constructor|].
    symmetry. apply length_zero_iff_nil. rewrite length_seqZ. lia.
Qed.

Lemma StronglySorted_bind {A B} (R : relation A) (R' : relation B) (f : A → list B) l :
  (∀ a a' x x', R a a' → x ∈ f a → x' ∈ f a' → R' x x') →
  (∀ a, StronglySorted R' (f a)) →
  StronglySorted R l → StronglySorted R' (l ≫= f).
Proof.
  intros Hcross Hf. induction 1 as [|a l Hl IH Ha]; csimpl; [constructor|].
  apply StronglySorted_app_2; [|done..].
  intros x x' Hx (a' & Hx' & Ha')%list_elem_of_bind.
  rewrite Forall_forall in Ha. by apply (Hcross a a'); [apply Ha|..].
Qed.

(** The nested loops visit the cells in row-major order. *)
Lemma StronglySorted_all_cells sz : StronglySorted before (all_cells sz).
Proof.
  unfold all_cells, subgrid_cells.
  apply (StronglySorted_bind Z.lt before); [| |apply StronglySorted_range2].
  - intros a a' x x' Hlt (? & -> & _)%list_elem_of_fmap (? & -> & _)%list_elem_of_fmap.
    by left.
  - intros a. apply (StronglySorted_fmap _ Z.lt); [|apply StronglySorted_range2].
    intros y y' Hlt. right. done.
Qed.

(** Where a cell sits in the scan decides what comes before it. *)
Lemma all_cells_split sz pre c post c' :
  all_cells sz = pre ++ c :: post → in_grid sz c' → before c' c → c' ∈ pre.
Proof.
  intros Hsplit Hc' Hbefore. pose proof (StronglySorted_all_cells sz) as Hs.
  rewrite Hsplit in Hs. apply elem_of_all_cells in Hc'. rewrite Hsplit in Hc'.
  apply elem_of_app in Hc' as [?|Hc']; [done|]. exfalso.
  apply StronglySorted_app_1_r, StronglySorted_inv in Hs as [_ Hpost].
  rewrite Forall_forall in Hpost. unfold before in *.
  apply elem_of_cons in Hc' as [->|Hc']; [lia|]. specialize (Hpost c' Hc'). lia.
Qed.

Lemma first_open_split sz (b : board) cs :
  square sz b → (∀ c, c ∈ cs → in_grid sz c) →
  ∃ c, first_open b cs = Some c ∧
       ((c = (-1, -1) ∧ ∀ c', c' ∈ cs → board_get b c'.1 c'.2 ≠ Some (-1)) ∨
        (board_get b c.1 c.2 = Some (-1) ∧
         ∃ pre post, cs = pre ++ c :: post ∧
                     ∀ c', c' ∈ pre → board_get b c'.1 c'.2 ≠ Some (-1))).
Proof.
  intros Hb. induction cs as [|c cs IH]; intros Hcs; simpl.
  - exists (-1, -1). split; [done|]. left. split; [done|]. by intros c' ?%elem_of_nil.
  - destruct (board_get_Some sz b c Hb) as [v Hv]; [apply Hcs; left|]. rewrite Hv. simpl.
    destruct (decide (v = -1)) as [->|Hne].
    + exists c. split; [done|]. right. split; [done|]. exists [], cs. split; [done|].
      by intros c' ?%elem_of_nil.
    + destruct IH as (c0 & -> & Hc0); [intros; apply Hcs; by right|].
      exists c0. split; [done|]. destruct Hc0 as [[-> Hall]|(Hopen & pre & post & -> & Hpre)].
      * left. split; [done|]. intros c' [->|?]%elem_of_cons; [congruence|by apply Hall].
      * right. split; [done|]. exists (c :: pre), post. split; [done|].
        intros c' [->|?]%elem_of_cons; [congruence|by apply Hpre].
Qed.

(** X6: getFirstOpenCell returns (-1, -1) exactly on a board without open
    cell, and otherwise the open cell that comes first in row-major order. *)
Theorem getFirstOpenCell_first self (b : board) :
  square (n self) b →
  ∃ c, getFirstOpenCell self b = Some c ∧
       ((c = (-1, -1) ∧ complete b) ∨
        (in_grid (n self) c ∧ board_get b c.1 c.2 = Some (-1) ∧
         ∀ c', in_grid (n self) c' → before c' c → board_get b c'.1 c'.2 ≠ Some (-1))).
Proof.
  intros Hb. unfold getFirstOpenCell.
  destruct (first_open_split (n self) b (all_cells (n self)) Hb) as (c & -> & Hc).
  { intros c. by rewrite elem_of_all_cells. }
  exists c. split; [done|].
  destruct Hc as [[-> Hall]|(Hopen & pre & post & Hsplit & Hpre)].
  - left. split; [done|]. apply (no_open_complete (n self)); [done|].
    intros c Hc. by apply Hall, elem_of_all_cells.
  - right. split_and!; [|done|].
    + apply elem_of_all_cells. rewrite Hsplit. apply elem_of_app. right. left.
    + intros c' Hc' Hbefore. apply Hpre. by apply (all_cells_split (n self) pre c post).
Qed.

Lemma getFirstOpenCell_first_witness :
  ∃ c, getFirstOpenCell (init 4 2 2 None)
         [[1;-1;-1;4];[-1;-1;1;-1];[-1;1;-1;-1];[4;-1;-1;1]] = Some c ∧
       ((c = (-1, -1) ∧ complete [[1;-1;-1;4];[-1;-1;1;-1];[-1;1;-1;-1];[4;-1;-1;1]]) ∨
        (in_grid 4 c ∧
         board_get [[1;-1;-1;4];[-1;-1;1;-1];[-1;1;-1;-1];[4;-1;-1;1]] c.1 c.2 = Some (-1) ∧
         ∀ c', in_grid 4 c' → before c' c →
               board_get [[1;-1;-1;4];[-1;-1;1;-1];[-1;1;-1;-1];[4;-1;-1;1]] c'.1 c'.2
               ≠ Some (-1))).
Proof.
  apply (getFirstOpenCell_first (init 4 2 2 None)
           [[1;-1;-1;4];[-1;-1;1;-1];[-1;1;-1;-1];[4;-1;-1;1]]).
  split; [reflexivity|]. repeat constructor.
Defined.

(** The scan of [getOpenCellMRV]: the cell it holds has the fewest legal
    values among the open cells seen, and fewer than every open cell seen
    before it. *)
Lemma getOpenCellMRV_scan self (b : board) :
  engine_ok self → square (n self) b →
  ∃ st : Z * (Z * Z), getOpenCellMRV self b = Some st.2 ∧
    ((st = (n self + 1, (-1, -1)) ∧
      ∀ c', in_grid (n self) c' → board_get b c'.1 c'.2 ≠ Some (-1)) ∨
     (board_get b st.2.1 st.2.2 = Some (-1) ∧
      (∃ lv, getLegalValues self b st.2.1 st.2.2 = Some lv ∧ len_set lv = st.1) ∧
      ∃ pre post, all_cells (n self) = pre ++ st.2 :: post ∧
        (∀ c' lv', c' ∈ pre → board_get b c'.1 c'.2 = Some (-1) →
                   getLegalValues self b c'.1 c'.2 = Some lv' → st.1 < len_set lv') ∧
        (∀ c' lv', c' ∈ post → board_get b c'.1 c'.2 = Some (-1) →
                   getLegalValues self b c'.1 c'.2 = Some lv' → st.1 ≤ len_set lv'))).
Proof.
  intros Hok Hb. pose proof Hok as (Hvc & Hd & _). unfold getOpenCellMRV.
  match goal with
  | |- context [for_each ?f _ _] =>
      destruct (for_each_prefix
        (λ seen (st : Z * (Z * Z)),
           (st = (n self + 1, (-1, -1)) ∧
            ∀ c', c' ∈ seen → board_get b c'.1 c'.2 ≠ Some (-1)) ∨
           (board_get b st.2.1 st.2.2 = Some (-1) ∧
            (∃ lv, getLegalValues self b st.2.1 st.2.2 = Some lv ∧ len_set lv = st.1) ∧
            ∃ pre post, seen = pre ++ st.2 :: post ∧
              (∀ c' lv', c' ∈ pre → board_get b c'.1 c'.2 = Some (-1) →
                         getLegalValues self b c'.1 c'.2 = Some lv' → st.1 < len_set lv') ∧
              (∀ c' lv', c' ∈ post → board_get b c'.1 c'.2 = Some (-1) →
                         getLegalValues self b c'.1 c'.2 = Some lv' → st.1 ≤ len_set lv')))
        f (all_cells (n self)) (n self + 1, (-1, -1))) as (st & Hrun & Hst)
  end.
  - left. split; [done|]. by intros c' ?%elem_of_nil.
  - intros seen c st Hc%elem_of_all_cells Hseen.
    destruct (board_get_Some (n self) b c Hb Hc) as [v Hv]. rewrite Hv. simpl.
    destruct (decide (v = -1)) as [->|Hne].
    + destruct (getLegalValues_Some self b c.1 c.2 Hvc Hd Hb) as (lv & d & Hlv & _ & _);
        [by destruct c|].
      rewrite Hlv. simpl.
      assert (Hbound : len_set lv ≤ n self).
      { apply size_bounded; [destruct Hvc; lia|]. intros v.
        apply (legal_values_bounds self b c.1 c.2); [done..|by destruct c|done]. }
      destruct (decide (len_set lv < st.1)) as [Hlt|Hge].
      * eexists. split; [done|]. right. simpl. split_and!; [done|by exists lv|].
        exists seen, []. split_and!; [done| |by intros ?? ?%elem_of_nil].
        intros c' lv' Hc' Hopen' Hlv'.
        destruct Hseen
          as [[-> Hall]|(_ & (lv0 & Hlv0 & Hsz) & pre & post & -> & Hpre & Hpost)].
        -- by apply Hall in Hopen'.
        -- apply elem_of_app in Hc' as [Hc'|Hc'].
           ++ specialize (Hpre c' lv' Hc' Hopen' Hlv'). lia.
           ++ apply elem_of_cons in Hc' as [->|Hc'].
              ** assert (lv0 = lv') as -> by congruence. lia.
              ** specialize (Hpost c' lv' Hc' Hopen' Hlv'). lia.
      * eexists. split; [done|].
        destruct Hseen as [[-> _]|(Hopen & Hsz & pre & post & -> & Hpre & Hpost)];
          [simpl in Hge; lia|].
        right. split_and!; [done..|]. exists pre, (post ++ [c]).
        split_and!; [by rewrite <- app_assoc|done|].
        intros c' lv' [Hc'|Hc']%elem_of_app Hopen' Hlv'; [by apply (Hpost c' lv')|].
        apply list_elem_of_singleton in Hc' as ->.
        assert (lv' = lv) as -> by congruence. lia.
    + eexists. split; [done|].
      destruct Hseen as [[-> Hall]|(Hopen & Hsz & pre & post & -> & Hpre & Hpost)].
      * left. split; [done|]. intros c' [?|Hc']%elem_of_app; [by apply Hall|].
        apply list_elem_of_singleton in Hc' as ->. congruence.
      * right. split_and!; [done..|]. exists pre, (post ++ [c]).
        split_and!; [by rewrite <- app_assoc|done|].
        intros c' lv' [Hc'|Hc']%elem_of_app Hopen' Hlv'; [by apply (Hpost c' lv')|].
        apply list_elem_of_singleton in Hc' as ->. congruence.
  - exists st. split; [by rewrite Hrun|].
    destruct Hst as [[-> Hall]|?]; [|by right].
    left. split; [done|]. intros c' Hc'. by apply Hall, elem_of_all_cells.
Qed.

(** X7: getOpenCellMRV returns (-1, -1) exactly on a board without open
    cell; otherwise it returns an open cell with the fewest legal values,
    and among those the first in row-major order. *)
Theorem getOpenCellMRV_minimum self (b : board) :
  engine_ok self → square (n self) b →
  ∃ c, getOpenCellMRV self b = Some c ∧
       ((c = (-1, -1) ∧ complete b) ∨
        (in_grid (n self) c ∧ board_get b c.1 c.2 = Some (-1) ∧
         ∃ lv, getLegalValues self b c.1 c.2 = Some lv ∧
           ∀ c' lv', in_grid (n self) c' → board_get b c'.1 c'.2 = Some (-1) →
                     getLegalValues self b c'.1 c'.2 = Some lv' →
                     len_set lv ≤ len_set lv' ∧ (before c' c → len_set lv < len_set lv'))).
Proof.
  intros Hok Hb.
  destruct (getOpenCellMRV_scan self b Hok Hb) as ([sz c] & Hrun & Hst).
  exists c. split; [done|]. simpl in Hst.
  destruct Hst as [[[= -> ->] Hall]|(Hopen & (lv & Hlv & <-) & pre & post & Hsplit & Hpre & Hpost)].
  - left. split; [done|]. by apply (no_open_complete (n self)).
  - right. split_and!; [|done|].
    + apply elem_of_all_cells. rewrite Hsplit. apply elem_of_app. right. left.
    + exists lv. split; [done|]. intros c' lv' Hc' Hopen' Hlv'.
      pose proof Hc' as Hin%elem_of_all_cells. rewrite Hsplit in Hin.
      apply elem_of_app in Hin as [Hin|Hin].
      * specialize (Hpre c' lv' Hin Hopen' Hlv'). lia.
      * assert (Hnb : ¬ before c' c).
        { intros Hbf. pose proof (StronglySorted_all_cells (n self)) as Hs.
          rewrite Hsplit in Hs.
          apply StronglySorted_app_1_r, StronglySorted_inv in Hs as [_ Hs].
          rewrite Forall_forall in Hs. unfold before in *.
          apply elem_of_cons in Hin as [->|Hin]; [lia|]. specialize (Hs c' Hin). lia. }
        split; [|done]. apply elem_of_cons in Hin as [->|Hin].
        -- assert (lv' = lv) as -> by congruence. lia.
        -- by apply (Hpost c' lv').
Qed.

Lemma getOpenCellMRV_minimum_witness :
  ∃ c, getOpenCellMRV (init 4 2 2 None)
         [[1;-1;-1;4];[-1;-1;1;-1];[-1;1;-1;-1];[4;-1;-1;1]] = Some c ∧
       ((c = (-1, -1) ∧ complete [[1;-1;-1;4];[-1;-1;1;-1];[-1;1;-1;-1];[4;-1;-1;1]]) ∨
        (in_grid 4 c ∧
         board_get [[1;-1;-1;4];[-1;-1;1;-1];[-1;1;-1;-1];[4;-1;-1;1]] c.1 c.2 = Some (-1) ∧
         ∃ lv, getLegalValues (init 4 2 2 None)
                 [[1;-1;-1;4];[-1;-1;1;-1];[-1;1;-1;-1];[4;-1;-1;1]] c.1 c.2 = Some lv ∧
           ∀ c' lv', in_grid 4 c' →
             board_get [[1;-1;-1;4];[-1;-1;1;-1];[-1;1;-1;-1];[4;-1;-1;1]] c'.1 c'.2
             = Some (-1) →
             getLegalValues (init 4 2 2 None)
               [[1;-1;-1;4];[-1;-1;1;-1];[-1;1;-1;-1];[4;-1;-1;1]] c'.1 c'.2 = Some lv' →
             len_set lv ≤ len_set lv' ∧ (before c' c → len_set lv < len_set lv'))).
Proof.
  apply (getOpenCellMRV_minimum (init 4 2 2 None)
           [[1;-1;-1;4];[-1;-1;1;-1];[-1;1;-1;-1];[4;-1;-1;1]]).
  - split_and!.
    + unfold valid_config. simpl. split_and!; [lia..|reflexivity|reflexivity].
    + intros rd Hrd. discriminate Hrd.
    + intros v Hv. unfold init, domain in Hv.
      apply elem_of_list_to_set, elem_of_range2 in Hv. simpl. lia.
    + intros rd i j d v Hrd. discriminate Hrd.
  - split; [reflexivity|]. repeat constructor.
Defined.

(** ** Min-conflicts repair *)

Lemma square_Forall {A} sz (g : list (list A)) (P : A → Prop) :
  square sz g → (∀ c v, in_grid sz c → grid_get g c.1 c.2 = Some v → P v) →
  Forall (Forall P) g.
Proof.
  intros [Hlen Hrows] HP. apply Forall_lookup. intros i row Hrow.
  apply Forall_lookup. intros j v Hv.
  rewrite Forall_lookup in Hrows. pose proof (Hrows i row Hrow) as Hlr.
  apply lookup_lt_Some in Hrow as Hi. apply lookup_lt_Some in Hv as Hj.
  apply (HP (Z.of_nat i, Z.of_nat j)); [split; simpl; lia|]. simpl.
  rewrite grid_get_nonneg by lia. by rewrite !Nat2Z.id, Hrow.
Qed.

Lemma extends_refl sz (b : board) : extends sz b b.
Proof. by intros c v _ Hget _. Qed.

Lemma board_get_set_eq sz (b b' : board) c v :
  square sz b → in_grid sz c → board_set b c.1 c.2 v = Some b' →
  board_get b' c.1 c.2 = Some v.
Proof. apply grid_get_set_eq. Qed.

Lemma board_get_set_ne sz (b b' : board) c c' v :
  square sz b → in_grid sz c → in_grid sz c' → c' ≠ c →
  board_set b c.1 c.2 v = Some b' →
  board_get b' c'.1 c'.2 = board_get b c'.1 c'.2.
Proof. apply grid_get_set_ne. Qed.

Lemma randint_bounds a b' draw r : randint a b' draw = Some r → a ≤ r ≤ b'.
Proof.
  unfold randint. case_decide; [|done]. intros [= <-].
  pose proof (Z.mod_pos_bound (Z.of_nat draw) (b' - a + 1)). lia.
Qed.

(** The run of [randomInitializeBoard]. *)
Lemma randomInitializeBoard_Some self rand pos (b : board) :
  0 < n self → square (n self) b →
  ∃ b' pos', randomInitializeBoard self rand pos b = Some (b', pos') ∧
    square (n self) b' ∧ (pos' = pos + open_count b)%nat ∧
    ∀ c, in_grid (n self) c →
      ∃ v v', board_get b c.1 c.2 = Some v ∧ board_get b' c.1 c.2 = Some v' ∧
              if decide (v = -1) then 1 ≤ v' ≤ n self else v' = v.
Proof.
  intros Hn Hb. unfold randomInitializeBoard.
  match goal with
  | |- context [for_each ?f _ _] =>
      destruct (for_each_prefix
        (λ seen (st : list (list Z) * nat),
           square (n self) st.1 ∧
           (st.2 + open_count st.1 = pos + open_count b)%nat ∧
           (∀ c, c ∈ seen → in_grid (n self) c → board_get st.1 c.1 c.2 ≠ Some (-1)) ∧
           ∀ c, in_grid (n self) c →
             board_get st.1 c.1 c.2 = board_get b c.1 c.2 ∨
             (board_get b c.1 c.2 = Some (-1) ∧
              ∃ v', board_get st.1 c.1 c.2 = Some v' ∧ 1 ≤ v' ≤ n self))
        f (all_cells (n self)) (b, pos)) as ([b' pos'] & Hrun & Hb' & Hpos & Hseen & Hcells)
  end.
  - simpl. split_and!; [done..| |by left]. by intros c ?%elem_of_nil.
  - intros seen c [bc p] Hc%elem_of_all_cells (Hbc & Hcount & Hseen & Hcells). simpl in *.
    destruct (board_get_Some (n self) bc c Hbc Hc) as [v Hv]. rewrite Hv. simpl.
    destruct (decide (v = -1)) as [->|Hne].
    + destruct (randint 1 (n self) (rand p)) as [r|] eqn:Hr;
        [|unfold randint in Hr; by rewrite decide_True in Hr by lia].
      apply randint_bounds in Hr. simpl.
      destruct (board_set_Some (n self) bc c r Hbc Hc) as (bc' & Hset & Hbc').
      rewrite Hset. simpl. eexists. split; [done|]. simpl. split_and!; [done| | |].
      * pose proof (open_count_fill (n self) bc bc' c r Hbc Hc Hv ltac:(lia) Hset). lia.
      * intros c' [Hc'|Hc']%elem_of_app Hg.
        -- destruct (decide (c' = c)) as [->|Hcc].
           ++ rewrite (board_get_set_eq (n self) bc bc' c r) by done. intros [=]. lia.
           ++ rewrite (board_get_set_ne (n self) bc bc' c c' r) by done. by apply Hseen.
        -- apply list_elem_of_singleton in Hc' as ->.
           rewrite (board_get_set_eq (n self) bc bc' c r) by done. intros [=]. lia.
      * intros c' Hc'. destruct (decide (c' = c)) as [->|Hcc].
        -- right. split.
           ++ destruct (Hcells c Hc) as [<-|(? & v' & Hv' & ?)]; [done|].
              rewrite Hv in Hv'. injection Hv' as <-. lia.
           ++ exists r. split; [|done]. by apply (board_get_set_eq (n self) bc bc' c r).
        -- rewrite (board_get_set_ne (n self) bc bc' c c' r) by done. by apply Hcells.
    + eexists. split; [done|]. simpl. split_and!; [done..| |done].
      intros c' [Hc'|Hc']%elem_of_app Hg; [by apply Hseen|].
      apply list_elem_of_singleton in Hc' as ->. congruence.
  - simpl in *. exists b', pos'. split_and!; [done..| |].
    + assert (Hz : open_count b' = 0%nat); [|lia].
      unfold open_count, grid_sum.
      assert (Hcomp : complete b').
      { apply (no_open_complete (n self)); [done|]. intros c Hc.
        apply Hseen; [by apply elem_of_all_cells|done]. }
      clear -Hcomp. induction Hcomp as [|row rows Hrow _ IH]; [done|]. csimpl.
      rewrite IH. cut (sum_list ((λ v : Z, if decide (v = -1) then 1%nat else 0%nat) <$> row)
                       = 0%nat); [lia|].
      induction Hrow as [|v row Hv _ IHrow]; [done|]. csimpl.
      by rewrite decide_False, IHrow.
    + intros c Hc. destruct (board_get_Some (n self) b c Hb Hc) as [v Hv].
      destruct (board_get_Some (n self) b' c Hb' Hc) as [v' Hv'].
      exists v, v'. split_and!; [done..|].
      assert (Hne : v' ≠ -1).
      { intros ->. by apply (Hseen c); [apply elem_of_all_cells|done|]. }
      destruct (Hcells c Hc) as [Heq|(Hopen & w & Hw & Hbounds)].
      * rewrite Hv, Hv' in Heq. injection Heq as ->. by rewrite decide_False.
      * rewrite Hv in Hopen. injection Hopen as ->. rewrite Hv' in Hw.
        injection Hw as ->. by rewrite decide_True.
Qed.

Lemma count_le_length value l : count value l ≤ Z.of_nat (length l).
Proof. unfold count. pose proof (length_filter (λ v, v = value) l). lia. Qed.

(** The minimum search of [swapMinConflicts] over the values of [l]. *)
Lemma min_conflict_fold vals l st0 :
  let st := foldl (λ (st : Z * Z) value,
                     let conflicts := count value vals in
                     if decide (conflicts < st.1) then (conflicts, value) else st)
                  st0 l in
  st.1 ≤ st0.1 ∧ (∀ w, w ∈ l → st.1 ≤ count w vals) ∧
  (st = st0 ∨ (st.2 ∈ l ∧ st.1 = count st.2 vals)).
Proof.
  revert st0. induction l as [|value l IH]; intros st0; simpl.
  - split_and!; [lia| |by left]. by intros w ?%elem_of_nil.
  - match goal with |- context [foldl ?f ?s l] => specialize (IH s) end.
    simpl in IH. destruct IH as (Hle & Hall & Hcase).
    destruct (decide (count value vals < st0.1)) as [Hlt|Hge]; simpl in *.
    + split_and!; [lia| |].
      * intros w [->|Hw]%elem_of_cons; [done|by apply Hall].
      * right. destruct Hcase as [->|[Hin Heq]]; [split; [left|done]|].
        split; [by right|done].
    + split_and!; [done| |].
      * intros w [->|Hw]%elem_of_cons; [lia|by apply Hall].
      * destruct Hcase as [->|[Hin Heq]]; [by left|]. right. split; [by right|done].
Qed.

Lemma divisor_le a d : 0 < a → 0 < d → a `mod` d = 0 → d ≤ a.
Proof.
  intros Ha Hd Hmod. apply Z.mod_divide in Hmod as [q Hq]; [|lia].
  assert (0 < q) by nia. nia.
Qed.

(** A cell has fewer than n * n neighbours. *)
Lemma neighbours_lt_square self c nb :
  valid_config self → in_grid (n self) c → getNeighbours self c.1 c.2 = Some nb →
  len_set nb < n self ^ 2.
Proof.
  intros Hv Hc Hnb. destruct c as [i j].
  rewrite getNeighbours_list in Hnb by done. injection Hnb as <-.
  unfold len_set. rewrite size_list_to_set by apply NoDup_neighbour_list.
  rewrite (length_neighbour_list self i j Hv Hc).
  destruct Hv as (Hn & Hm & Hk & Hnm & Hnk).
  pose proof (divisor_le _ _ Hn Hm Hnm). pose proof (divisor_le _ _ Hn Hk Hnk). nia.
Qed.

(** What one repair step does to the board. *)
Lemma swapMinConflicts_effect self ib (b b' : board) draw c self' :
  valid_config self → initialBoard self = Some ib →
  square (n self) ib → square (n self) b →
  swapMinConflicts self draw b = Some (c, b', self') →
  self' = self ∧ in_grid (n self) c ∧ board_get ib c.1 c.2 = Some (-1) ∧
  fst <$> check self b c.1 c.2 false = Some false ∧
  square (n self) b' ∧
  (∀ c', in_grid (n self) c' → c' ≠ c → board_get b' c'.1 c'.2 = board_get b c'.1 c'.2) ∧
  ∃ v nb vals,
    board_get b' c.1 c.2 = Some v ∧ getNeighbours self c.1 c.2 = Some nb ∧
    mapM (λ c' : Z * Z, board_get b c'.1 c'.2) (set_iter nb) = Some vals ∧
    (∀ w, w ∈ domain self → count v vals ≤ count w vals) ∧
    (domain self ≠ ∅ → v ∈ domain self).
Proof.
  intros Hv Hib Hsi Hsb Hrun. unfold swapMinConflicts in Hrun.
  destruct (conflictingCells_Some self ib b Hv Hib Hsi Hsb) as (cs & Hcs & Hmem).
  rewrite Hcs in Hrun. simpl in Hrun.
  destruct (choice cs draw) as [[si sj]|] eqn:Hch; [|done]. simpl in Hrun.
  assert (Hsel : (si, sj) ∈ cs) by (by eapply list_elem_of_lookup_2).
  apply Hmem in Hsel as (Hc & Hopen & Hfail).
  destruct (getNeighbours self si sj) as [nb|] eqn:Hnb; [|done]. simpl in Hrun.
  destruct (mapM _ (set_iter nb)) as [vals|] eqn:Hvals; [|done]. simpl in Hrun.
  pose proof (min_conflict_fold vals (set_iter (domain self)) (n self ^ 2, -1)) as Hmin.
  simpl in Hmin. destruct (foldl _ _ _) as [mc mv]. simpl in Hmin.
  destruct Hmin as (_ & Hall & Hcase).
  assert (Hfound : ∀ w, w ∈ domain self → (mc, mv) ≠ (n self ^ 2, -1)).
  { intros w Hw [= -> ->]. specialize (Hall w ltac:(by apply set_iter_elem_of)).
    pose proof (count_le_length w vals) as Hle.
    apply length_mapM in Hvals. rewrite <- Hvals, set_iter_length in Hle.
    pose proof (neighbours_lt_square self (si, sj) nb Hv Hc Hnb) as Hlt.
    unfold len_set in Hlt. lia. }
  destruct (board_set b si sj mv) as [b1|] eqn:Hset; [|done]. simpl in Hrun.
  injection Hrun as <- <- <-.
  split_and!; [done..| | |].
  - apply (grid_set_square (n self) b b1 (si, sj) mv Hsb Hc Hset).
  - intros c' Hc' Hne. by apply (board_get_set_ne (n self) b b1 (si, sj) c' mv).
  - exists mv, nb, vals. split_and!; [|done|done| |].
    + by apply (board_get_set_eq (n self) b b1 (si, sj) mv).
    + intros w Hw. destruct Hcase as [Heq|[_ <-]];
        [by destruct (Hfound w)|by apply Hall, set_iter_elem_of].
    + intros Hne. destruct Hcase as [Heq|[Hin _]]; [|by apply set_iter_elem_of].
      apply set_choose_L in Hne as [w Hw]. by destruct (Hfound w).
Qed.

(** X8: when swapMinConflicts returns, the board differs from the one it
    was given at the selected cell only; that cell is open in the initial
    board (given cells are never altered) and failed check; the value
    written occurs least often among the values of its neighbours, of all
    values of the domain, and it is a value of the domain. *)
Theorem swapMinConflicts_repairs self ib (b b' : board) draw c self' :
  valid_config self → initialBoard self = Some ib →
  square (n self) ib → square (n self) b → domain self ≠ ∅ →
  swapMinConflicts self draw b = Some (c, b', self') →
  in_grid (n self) c ∧ board_get ib c.1 c.2 = Some (-1) ∧
  fst <$> check self b c.1 c.2 false = Some false ∧
  (∀ c', in_grid (n self) c' → c' ≠ c → board_get b' c'.1 c'.2 = board_get b c'.1 c'.2) ∧
  ∃ v nb vals,
    board_get b' c.1 c.2 = Some v ∧ v ∈ domain self ∧
    getNeighbours self c.1 c.2 = Some nb ∧
    mapM (λ c' : Z * Z, board_get b c'.1 c'.2) (set_iter nb) = Some vals ∧
    ∀ w, w ∈ domain self → count v vals ≤ count w vals.
Proof.
  intros Hv Hib Hsi Hsb Hdom Hrun.
  destruct (swapMinConflicts_effect self ib b b' draw c self' Hv Hib Hsi Hsb Hrun)
    as (_ & Hc & Hopen & Hfail & _ & Hother & v & nb & vals & Hget & Hnb & Hvals & Hmin & Hin).
  split_and!; [done..|]. exists v, nb, vals. split_and!; [done| |done..]. by apply Hin.
Qed.

Lemma swapMinConflicts_repairs_witness :
  in_grid 4 (0, 2) ∧
  board_get [[1;-1;-1;4];[-1;-1;1;-1];[-1;1;-1;-1];[4;-1;-1;1]] 0 2 = Some (-1) ∧
  fst <$> check (init 4 2 2 (Some [[1;-1;-1;4];[-1;-1;1;-1];[-1;1;-1;-1];[4;-1;-1;1]]))
                [[1;2;2;4];[2;2;1;2];[2;1;2;2];[4;2;2;1]] 0 2 false = Some false ∧
  (∀ c', in_grid 4 c' → c' ≠ (0, 2) →
         board_get [[1;2;3;4];[2;2;1;2];[2;1;2;2];[4;2;2;1]] c'.1 c'.2
         = board_get [[1;2;2;4];[2;2;1;2];[2;1;2;2];[4;2;2;1]] c'.1 c'.2) ∧
  ∃ v nb vals,
    board_get [[1;2;3;4];[2;2;1;2];[2;1;2;2];[4;2;2;1]] 0 2 = Some v ∧
    v ∈ domain (init 4 2 2 (Some [[1;-1;-1;4];[-1;-1;1;-1];[-1;1;-1;-1];[4;-1;-1;1]])) ∧
    getNeighbours (init 4 2 2 (Some [[1;-1;-1;4];[-1;-1;1;-1];[-1;1;-1;-1];[4;-1;-1;1]]))
                  0 2 = Some nb ∧
    mapM (λ c' : Z * Z, board_get [[1;2;2;4];[2;2;1;2];[2;1;2;2];[4;2;2;1]] c'.1 c'.2)
         (set_iter nb) = Some vals ∧
    ∀ w, w ∈ domain (init 4 2 2 (Some [[1;-1;-1;4];[-1;-1;1;-1];[-1;1;-1;-1];[4;-1;-1;1]]))
         → count v vals ≤ count w vals.
Proof.
  apply (swapMinConflicts_repairs
           (init 4 2 2 (Some [[1;-1;-1;4];[-1;-1;1;-1];[-1;1;-1;-1];[4;-1;-1;1]]))
           [[1;-1;-1;4];[-1;-1;1;-1];[-1;1;-1;-1];[4;-1;-1;1]]
           [[1;2;2;4];[2;2;1;2];[2;1;2;2];[4;2;2;1]]
           [[1;2;3;4];[2;2;1;2];[2;1;2;2];[4;2;2;1]] 1 (0, 2)
           (init 4 2 2 (Some [[1;-1;-1;4];[-1;-1;1;-1];[-1;1;-1;-1];[4;-1;-1;1]]))).
  - unfold valid_config. simpl. split_and!; [lia..|reflexivity|reflexivity].
  - reflexivity.
  - split; [reflexivity|]. repeat constructor.
  - split; [reflexivity|]. repeat constructor.
  - intros Hempty. assert (H1 : (1 : Z) ∈ (∅ : gset Z)); [|by apply elem_of_empty in H1].
    rewrite <- Hempty. unfold init, domain. apply elem_of_list_to_set, elem_of_range2. lia.
  - vm_compute. reflexivity.
Defined.

(** X9: on an n x n board randomInitializeBoard returns; it keeps every
    assigned cell, gives every open cell a value of [1, n], and consumes
    one random draw per open cell. *)
Theorem randomInitializeBoard_fills self rand pos (b : board) :
  0 < n self → square (n self) b →
  ∃ b' pos', randomInitializeBoard self rand pos b = Some (b', pos') ∧
    square (n self) b' ∧ extends (n self) b b' ∧
    (∀ c, in_grid (n self) c → board_get b c.1 c.2 = Some (-1) →
          ∃ v, board_get b' c.1 c.2 = Some v ∧ 1 ≤ v ≤ n self) ∧
    pos' = (pos + open_count b)%nat.
Proof.
  intros Hn Hb.
  destruct (randomInitializeBoard_Some self rand pos b Hn Hb)
    as (b' & pos' & Hrun & Hb' & Hpos & Hcells).
  exists b', pos'. split_and!; [done..| | |done].
  - intros c v Hc Hget Hne. destruct (Hcells c Hc) as (w & w' & Hw & Hw' & Hcase).
    rewrite Hget in Hw. injection Hw as <-. rewrite decide_False in Hcase by done.
    by rewrite Hw', Hcase.
  - intros c Hc Hget. destruct (Hcells c Hc) as (w & w' & Hw & Hw' & Hcase).
    rewrite Hget in Hw. injection Hw as <-. rewrite decide_True in Hcase by done.
    by exists w'.
Qed.

Lemma randomInitializeBoard_fills_witness :
  ∃ b' pos', randomInitializeBoard (init 2 2 1 None) (λ i, i) 0%nat [[1;-1];[-1;2]]
             = Some (b', pos') ∧
    square 2 b' ∧ extends 2 [[1;-1];[-1;2]] b' ∧
    (∀ c, in_grid 2 c → board_get [[1;-1];[-1;2]] c.1 c.2 = Some (-1) →
          ∃ v, board_get b' c.1 c.2 = Some v ∧ 1 ≤ v ≤ 2) ∧
    pos' = (0 + open_count [[1;-1];[-1;2]]%Z)%nat.
Proof.
  apply (randomInitializeBoard_fills (init 2 2 1 None) (λ i, i) 0%nat [[1;-1];[-1;2]]).
  - simpl. lia.
  - split; [reflexivity|]. repeat constructor.
Defined.

(** On a board that keeps the given cells of a conflict-free initial
    board, a failed checkAll leaves the repair step something to repair. *)
Lemma conflicting_nonempty self ib (b : board) draw :
  valid_config self → initialBoard self = Some ib →
  square (n self) ib → square (n self) b →
  consistent self ib → extends (n self) ib b →
  ¬ units_no_duplicate self b →
  is_Some (swapMinConflicts self draw b).
Proof.
  intros Hv Hib Hsi Hsb Hcons Hext Hdup.
  destruct (conflictingCells_Some self ib b Hv Hib Hsi Hsb) as (cs & Hcs & Hmem).
  apply (swapMinConflicts_Some self ib b cs); try done.
  { intros c Hc. by apply Hmem in Hc as [? _]. }
  intros ->. apply Hdup.
  apply no_conflict_units; [done|]. intros c c' v Hc Hn' Hget Hget'.
  assert (Hc' : in_grid (n self) c') by apply Hn'.
  assert (Hfail : ∀ c1 c2, in_grid (n self) c1 → neighbour self c1 c2 →
            board_get b c1.1 c1.2 = Some v → board_get b c2.1 c2.2 = Some v →
            board_get ib c1.1 c1.2 = Some (-1) → False).
  { intros [i1 j1] c2 H1 H12 Hg1 Hg2 Hopen.
    destruct (check_Some self b i1 j1 false Hv Hsb H1) as (w & r & Hw & Hchk & Hrf).
    simpl in Hg1. assert (w = v) as -> by congruence.
    assert (r = false) as -> by (apply Hrf; by exists c2).
    apply (elem_of_nil (i1, j1)), Hmem. split_and!; [done..|]. simpl. by rewrite Hchk. }
  destruct (board_get_Some (n self) ib c Hsi Hc) as [vi Hvi].
  destruct (decide (vi = -1)) as [->|Hnei]; [by eapply (Hfail c c')|].
  destruct (board_get_Some (n self) ib c' Hsi Hc') as [vi' Hvi'].
  destruct (decide (vi' = -1)) as [->|Hnei'].
  { eapply (Hfail c' c); [done|by apply neighbour_sym|done..]. }
  pose proof (Hext c vi Hc Hvi Hnei) as Hb1.
  pose proof (Hext c' vi' Hc' Hvi' Hnei') as Hb2.
  assert (vi = v) as -> by congruence. assert (vi' = v) as -> by congruence.
  by apply (Hcons c c' v).
Qed.

(** The loop of [minConflict]: every round runs checkAll once, so that the
    counter tells how many rounds were run; stopping before the last round
    means that checkAll has passed. *)
Lemma minConflict_loop_Some self ib rand :
  valid_config self → initialBoard self = Some ib → square (n self) ib →
  consistent self ib → domain self ≠ ∅ → (∀ v, v ∈ domain self → 1 ≤ v ≤ n self) →
  ∀ iters pos (b : board) x,
    square (n self) b → extends (n self) ib b →
    (∀ c v, in_grid (n self) c → board_get b c.1 c.2 = Some v → 1 ≤ v ≤ n self) →
    ∃ b' x',
      minConflict_loop iters (set_checks self x) rand pos b = Some (b', set_checks self x') ∧
      square (n self) b' ∧ extends (n self) ib b' ∧
      (∀ c v, in_grid (n self) c → board_get b' c.1 c.2 = Some v → 1 ≤ v ≤ n self) ∧
      x ≤ x' ≤ x + Z.of_nat iters ∧ (iters ≠ 0%nat → x < x') ∧
      (x' < x + Z.of_nat iters → units_no_duplicate self b').
Proof.
  intros Hv Hib Hsi Hcons Hdom Hrange.
  induction iters as [|iters IH]; intros pos b x Hsb Hext Hfill.
  { exists b, x. simpl. split_and!; [done|done|done|done|lia|lia|done|lia]. }
  cbn [minConflict_loop].
  assert (Hvx : ∀ y, valid_config (set_checks self y)) by done.
  destruct (checkAll_Some (set_checks self x) b (Hvx x) Hsb) as (r & Hr & Hiff).
  rewrite Hr. change (units_no_duplicate (set_checks self x) b)
    with (units_no_duplicate self b) in Hiff.
  change (set_checks (set_checks self x) (checks (set_checks self x) + 1))
    with (set_checks self (x + 1)). simpl.
  destruct r.
  { exists b, (x + 1). split_and!; [done|done|done|done|lia|lia|lia|].
    intros _. by apply Hiff. }
  assert (Hdup : ¬ units_no_duplicate self b) by (by intros ?%Hiff).
  destruct (conflicting_nonempty (set_checks self (x + 1)) ib b (rand pos))
    as [[[c b1] s1] Hswap]; [done..|].
  rewrite Hswap. simpl.
  destruct (swapMinConflicts_effect (set_checks self (x + 1)) ib b b1 (rand pos) c s1)
    as (-> & Hc & Hopen & _ & Hsb1 & Hother & v & nb & vals & Hget & _ & _ & _ & Hin);
    [done..|].
  simpl in Hc, Hsb1, Hother, Hin.
  destruct (IH (S pos) b1 (x + 1)) as (b' & x' & Hrun & Hsb' & Hext' & Hfill' & Hx & _ & Hok).
  - done.
  - intros c' w Hc' Hw Hne. destruct (decide (c' = c)) as [->|Hcc]; [congruence|].
    rewrite Hother by done. by apply Hext.
  - intros c' w Hc' Hw. destruct (decide (c' = c)) as [->|Hcc].
    + rewrite Hget in Hw. injection Hw as <-. by apply Hrange, Hin.
    + rewrite Hother in Hw by done. by apply (Hfill c').
  - exists b', x'. split_and!; [done|done|done|done|lia|lia|lia|].
    intros Hlt. apply Hok. lia.
Qed.

(** X10: for a valid configuration and an n x n puzzle whose given cells
    hold values of [1, n] and do not conflict (isSatisfiable true),
    minConflict returns for every sequence of random draws; the board it
    returns is full, with values of [1, n], and keeps every given cell; the
    count it returns lies between 1 and 5000, and a count below 5000 means
    that the board passes checkAll. *)
Theorem minConflict_spec n0 m0 k0 (b : board) rand :
  valid_config (init n0 m0 k0 None) → square n0 b →
  givens_valid (init n0 m0 k0 None) b →
  fst <$> isSatisfiable (init n0 m0 k0 (Some b)) = Some true →
  ∃ b' cnt, minConflict n0 m0 k0 b rand = Some (b', cnt) ∧
    square n0 b' ∧ extends n0 b b' ∧ filled (init n0 m0 k0 None) b' ∧
    1 ≤ cnt ≤ 5000 ∧
    (cnt < 5000 → fst <$> checkAll (init n0 m0 k0 None) b' = Some true).
Proof.
  intros Hv Hsb Hgiv Hsat. unfold minConflict.
  assert (H5 : Z.of_nat 5000 = 5000) by (vm_compute; reflexivity).
  revert H5. generalize 5000%nat. intros iters H5.
  assert (Hn : 0 < n0) by apply Hv.
  assert (Hinit : init n0 m0 k0 (Some b) = set_checks (init n0 m0 k0 (Some b)) 0) by done.
  assert (Hib : initialBoard (init n0 m0 k0 (Some b)) = Some b).
  { unfold init. cbn [initialBoard]. by rewrite (square_truthy n0 b). }
  set (csp := init n0 m0 k0 (Some b)) in *.
  assert (Hvc : valid_config csp) by done.
  destruct (isSatisfiable_Some csp b Hib Hvc Hsb) as (rs & Hrs & Hsiff).
  rewrite Hrs in Hsat. simpl in Hsat. injection Hsat as ->.
  assert (Hcons : consistent csp b).
  { intros c c' v Hc Hnb Hne Hg Hg'. assert (true = false); [|done].
    apply Hsiff. by exists c, c', v. }
  destruct (randomInitializeBoard_Some csp rand 0%nat b Hn Hsb)
    as (b1 & pos & -> & Hsb1 & _ & Hcells). cbn [mbind option_bind].
  assert (Hgv : ∀ c v, in_grid n0 c → board_get b c.1 c.2 = Some v → v = -1 ∨ 1 ≤ v ≤ n0).
  { intros c v Hc Hget. apply board_get_elem_of in Hget as (row & Hrow & Hin).
    unfold givens_valid in Hgiv. rewrite Forall_forall in Hgiv.
    apply Hgiv in Hrow. rewrite Forall_forall in Hrow. by apply Hrow. }
  destruct (minConflict_loop_Some csp b rand Hvc Hib Hsb Hcons) with
    (iters := iters) (pos := pos) (b := b1) (x := 0)
    as (b2 & x' & Hrun & Hsb2 & Hext & Hfill & Hx & Hpos & Hok).
  - intros Hempty. assert (H1 : (1 : Z) ∈ (∅ : gset Z)); [|by apply elem_of_empty in H1].
    rewrite <- Hempty. apply elem_of_list_to_set, elem_of_range2. lia.
  - intros v Hin. apply elem_of_list_to_set, elem_of_range2 in Hin. simpl. lia.
  - done.
  - intros c v Hc Hget Hne. destruct (Hcells c Hc) as (w & w' & Hw & Hw' & Hcase).
    rewrite Hget in Hw. injection Hw as <-. rewrite decide_False in Hcase by done.
    by rewrite Hw', Hcase.
  - intros c v Hc Hget. destruct (Hcells c Hc) as (w & w' & Hw & Hw' & Hcase).
    rewrite Hget in Hw'. injection Hw' as <-. simpl.
    destruct (decide (w = -1)) as [->|Hne]; [done|]. subst v.
    destruct (Hgv c w Hc Hw) as [?|?]; [done|lia].
  - rewrite <- Hinit in Hrun. rewrite Hrun. simpl.
    rewrite H5 in Hx, Hok.
    exists b2, x'. split_and!; [done|done|done| |lia|lia|].
    + apply (square_Forall n0); [done|]. intros c v Hc Hget. by apply (Hfill c).
    + intros Hlt.
      destruct (checkAll_Some (init n0 m0 k0 None) b2 Hv Hsb2) as (r & -> & Hiff). simpl.
      f_equal. apply Hiff. by apply Hok.
Qed.

Lemma minConflict_spec_witness :
  ∃ b' cnt, minConflict 4 2 2 [[1;-1;-1;4];[-1;-1;1;-1];[-1;1;-1;-1];[4;-1;-1;1]] (λ i, i)
            = Some (b', cnt) ∧
    square 4 b' ∧ extends 4 [[1;-1;-1;4];[-1;-1;1;-1];[-1;1;-1;-1];[4;-1;-1;1]] b' ∧
    filled (init 4 2 2 None) b' ∧ 1 ≤ cnt ≤ 5000 ∧
    (cnt < 5000 → fst <$> checkAll (init 4 2 2 None) b' = Some true).
Proof.
  apply (minConflict_spec 4 2 2 [[1;-1;-1;4];[-1;-1;1;-1];[-1;1;-1;-1];[4;-1;-1;1]] (λ i, i)).
  - unfold valid_config. simpl. split_and!; [lia..|reflexivity|reflexivity].
  - split; [reflexivity|]. repeat constructor.
  - unfold givens_valid. simpl. repeat constructor; lia.
  - vm_compute. reflexivity.
Defined.

(** *** Soundness and completeness of the search *)

Lemma extends_set sz (b0 b b1 : board) c v :
  square sz b → in_grid sz c → board_get b c.1 c.2 = Some (-1) →
  board_set b c.1 c.2 v = Some b1 → extends sz b0 b → extends sz b0 b1.
Proof.
  intros Hb Hc Hopen Hset Hext c' w Hc' Hget Hne.
  destruct (decide (c' = c)) as [->|Hcc].
  - pose proof (Hext c w Hc Hget Hne). congruence.
  - rewrite (board_get_set_ne sz b b1 c c' v) by done. by apply Hext.
Qed.

Lemma values_ok_set sz (b b1 : board) c v :
  square sz b → in_grid sz c → board_set b c.1 c.2 v = Some b1 →
  1 ≤ v ≤ sz → values_ok sz b → values_ok sz b1.
Proof.
  intros Hb Hc Hset Hv Hok c' w Hc' Hget.
  destruct (decide (c' = c)) as [->|Hcc].
  - rewrite (board_get_set_eq sz b b1 c v) in Hget by done. injection Hget as <-. by right.
  - rewrite (board_get_set_ne sz b b1 c c' v) in Hget by done. by apply (Hok c').
Qed.

(** Writing a value that no neighbour of the cell holds keeps a board free
    of conflict. *)
Lemma consistent_set self (b b1 : board) c v :
  square (n self) b → in_grid (n self) c →
  board_set b c.1 c.2 v = Some b1 → consistent self b →
  (¬ ∃ c', neighbour self c c' ∧ board_get b c'.1 c'.2 = Some v) →
  consistent self b1.
Proof.
  intros Hb Hc Hset Hcons Hfree c1 c2 w Hc1 Hnb Hw Hg1 Hg2.
  assert (Hc2 : in_grid (n self) c2) by apply Hnb.
  destruct (decide (c1 = c)) as [->|H1].
  - rewrite (board_get_set_eq (n self) b b1 c v) in Hg1 by done. injection Hg1 as <-.
    rewrite (board_get_set_ne (n self) b b1 c c2 v) in Hg2 by (done || apply Hnb).
    apply Hfree. by exists c2.
  - rewrite (board_get_set_ne (n self) b b1 c c1 v) in Hg1 by done.
    destruct (decide (c2 = c)) as [->|H2].
    + rewrite (board_get_set_eq (n self) b b1 c v) in Hg2 by done. injection Hg2 as <-.
      apply Hfree. exists c1. split; [by apply neighbour_sym|done].
    + rewrite (board_get_set_ne (n self) b b1 c c2 v) in Hg2 by done.
      by apply (Hcons c1 c2 w).
Qed.

(** Two neighbouring cells with the same value rule out every solution. *)
Lemma conflict_unsolvable self (b : board) c c' v :
  in_grid (n self) c → neighbour self c c' → v ≠ -1 →
  board_get b c.1 c.2 = Some v → board_get b c'.1 c'.2 = Some v → ¬ solvable self b.
Proof.
  intros Hc Hnb Hv Hg Hg' (s & (_ & _ & Hcons & _) & Hext).
  apply (Hcons c c' v Hc Hnb Hv); apply Hext; try done. apply Hnb.
Qed.

(** A solvable board stays solvable under one assignment at any cell: the
    value the solution has there, which lies in the domains of the cell and
    which no neighbour holds. *)
Lemma solvable_set self (b : board) c :
  square (n self) b → in_grid (n self) c → solvable self b →
  ∃ v b1 d, board_set b c.1 c.2 v = Some b1 ∧ solvable self b1 ∧ v ≠ -1 ∧
    v ∈ domain self ∧ cell_domain self c.1 c.2 = Some d ∧ v ∈ d ∧
    ¬ ∃ c', neighbour self c c' ∧ board_get b c'.1 c'.2 = Some v.
Proof.
  intros Hb Hc (s & Hsol & Hext). pose proof Hsol as (Hs & Hcomp & Hcons & Hdom).
  destruct (board_get_Some (n self) s c Hs Hc) as [v Hv].
  destruct (board_set_Some (n self) b c v Hb Hc) as (b1 & Hset & Hb1).
  destruct (Hdom c v Hc Hv) as (Hin & d & Hd & Hind).
  assert (Hne : v ≠ -1). { intros ->. by apply (complete_no_open s c.1 c.2). }
  exists v, b1, d. split_and!; [done| |done..|].
  - exists s. split; [done|]. intros c' w Hc' Hget Hw.
    destruct (decide (c' = c)) as [->|Hcc].
    + rewrite (board_get_set_eq (n self) b b1 c v) in Hget by done. congruence.
    + rewrite (board_get_set_ne (n self) b b1 c c' v) in Hget by done. by apply Hext.
  - intros (c' & Hnb & Hget). apply (Hcons c c' v Hc Hnb Hne Hv).
    apply Hext; [apply Hnb|done|done].
Qed.

(** After an assignment that passes check the board is still free of
    conflict. *)
Lemma check_true_step self (b b1 : board) i j v self' :
  valid_config self → square (n self) b → in_grid (n self) (i, j) →
  board_set b i j v = Some b1 →
  check self b1 i j true = Some (true, self') →
  consistent self b → consistent self b1.
Proof.
  intros Hv Hb Hij Hset Hchk Hcons.
  destruct (check_after_set self b b1 i j v Hv Hb Hij Hset) as (r & Hr & Hiff).
  rewrite Hr in Hchk. injection Hchk as -> _.
  apply (consistent_set self b b1 (i, j) v); [done..|].
  intros Hex. by apply Hiff in Hex.
Qed.

(** After an assignment that fails check no solution is left. *)
Lemma check_false_step self (b b1 : board) i j v self' :
  valid_config self → square (n self) b → in_grid (n self) (i, j) → v ≠ -1 →
  board_set b i j v = Some b1 →
  check self b1 i j true = Some (false, self') →
  ¬ solvable self b1.
Proof.
  intros Hv Hb Hij Hne Hset Hchk.
  destruct (check_after_set self b b1 i j v Hv Hb Hij Hset) as (r & Hr & Hiff).
  rewrite Hr in Hchk. injection Hchk as -> _.
  destruct Hiff as [Hex _]. destruct (Hex eq_refl) as (c & Hnb & Hget).
  apply (conflict_unsolvable self b1 (i, j) c v); [done..| |].
  - by apply (board_get_set_eq (n self) b b1 (i, j) v).
  - rewrite (board_get_set_ne (n self) b b1 (i, j) c v); [done..|apply Hnb|apply Hnb|done].
Qed.

Lemma check_fwd_true self (b : board) i j self' :
  check_fwd self b i j = Some (true, self') → check self b i j true = Some (true, self').
Proof.
  unfold check_fwd. destruct (check self b i j true) as [[ok s1]|]; [|done].
  cbn [mbind option_bind]. destruct ok; [|done].
  destruct (checkNeighboursConsistent s1 b i j); [|done]. cbn [mbind option_bind].
  by intros [= _ ->].
Qed.

(** When the forward check turns an assignment down no solution is left. *)
Lemma check_fwd_false_step self (b b1 : board) i j v self' :
  valid_config self → domains_ok self → square (n self) b → in_grid (n self) (i, j) →
  v ≠ -1 → board_set b i j v = Some b1 →
  check_fwd self b1 i j = Some (false, self') →
  ¬ solvable self b1.
Proof.
  intros Hv Hd Hb Hij Hne Hset Hfwd.
  pose proof (grid_set_square (n self) b b1 (i, j) v Hb Hij Hset) as Hb1.
  destruct (check_after_set self b b1 i j v Hv Hb Hij Hset) as (r & Hr & _).
  unfold check_fwd in Hfwd. rewrite Hr in Hfwd. cbn [mbind option_bind] in Hfwd.
  destruct r.
  - set (self1 := set_checks self (checks self + 1)) in *.
    destruct (checkNeighboursConsistent_spec self1 b1 i j) as (r & Hcnc & Hiff); [done..|].
    rewrite Hcnc in Hfwd. cbn [mbind option_bind] in Hfwd. injection Hfwd as -> _.
    intros Hsol. assert (false = true); [|done]. apply Hiff.
    intros c Hnb Hopen. assert (Hc : in_grid (n self) c) by apply Hnb.
    destruct (solvable_set self b1 c Hb1 Hc Hsol)
      as (w & _ & d & _ & _ & _ & _ & Hdom & Hin & Hfree).
    destruct (getLegalValues_Some self1 b1 c.1 c.2) as (lv & d' & Hlv & Hdom' & Hmem);
      [done|done|done|by destruct c|].
    exists lv. split; [done|]. intros ->.
    change (cell_domain self1 c.1 c.2) with (cell_domain self c.1 c.2) in Hdom'.
    rewrite Hdom in Hdom'. injection Hdom' as <-.
    apply (not_elem_of_empty (C := gset Z) w), Hmem. split; [done|].
    intros (c' & Hnb' & Hget). apply Hfree. exists c'. split; [|done].
    by destruct c.
  - injection Hfwd as _. by apply (check_false_step self b b1 i j v _ Hv Hb Hij Hne Hset Hr).
Qed.

(** The whole domain covers the value of every solution. *)
Lemma domain_cover self (b : board) i j :
  square (n self) b → in_grid (n self) (i, j) → solvable self b →
  ∃ v b1, v ∈ set_iter (getDomain self) ∧ board_set b i j v = Some b1 ∧ solvable self b1.
Proof.
  intros Hb Hij Hsol.
  destruct (solvable_set self b (i, j) Hb Hij Hsol) as (v & b1 & d & Hset & Hsol1 & _ & Hin & _).
  exists v, b1. split_and!; [|done..]. by apply set_iter_elem_of.
Qed.

(** The LCV list covers the value of every solution. *)
Lemma getLCVList_cover self (b : board) i j vs :
  valid_config self → domains_ok self → square (n self) b → in_grid (n self) (i, j) →
  getLCVList self b i j = Some vs → solvable self b →
  ∃ v b1, v ∈ vs ∧ board_set b i j v = Some b1 ∧ solvable self b1.
Proof.
  intros Hv Hd Hb Hij Hrun Hsol.
  destruct (solvable_set self b (i, j) Hb Hij Hsol)
    as (v & b1 & d & Hset & Hsol1 & _ & _ & Hdom & Hin & Hfree).
  destruct (getLCVList_Some self b i j Hv Hd Hb Hij) as (lv & un & Hlv & _ & Hrun' & Hperm).
  rewrite Hrun' in Hrun. injection Hrun as <-.
  destruct (getLegalValues_Some self b i j Hv Hd Hb Hij) as (lv' & d' & Hlv' & Hdom' & Hmem).
  rewrite Hlv in Hlv'. injection Hlv' as <-. simpl in Hdom.
  rewrite Hdom in Hdom'. injection Hdom' as <-.
  exists v, b1. split_and!; [|done..].
  rewrite Hperm. apply set_iter_elem_of, Hmem. done.
Qed.

Section BacktrackingSearch.

Variable select : SudokuCSP → list (list Z) → option (Z * Z).
Variable candidates : SudokuCSP → list (list Z) → Z → Z → option (list Z).
Variable admissible : SudokuCSP → list (list Z) → Z → Z → option (bool * SudokuCSP).

Hypothesis select_Some : ∀ csp (b : list (list Z)),
  engine_ok csp → square (n csp) b →
  ∃ c, select csp b = Some c ∧
       ((c = (-1, -1) ∧ complete b) ∨
        (in_grid (n csp) c ∧ board_get b c.1 c.2 = Some (-1))).

Hypothesis candidates_Some : ∀ csp (b : list (list Z)) i j,
  engine_ok csp → square (n csp) b → in_grid (n csp) (i, j) →
  ∃ vs, candidates csp b i j = Some vs ∧ Forall (λ v, v ≠ -1) vs.

Hypothesis admissible_Some : ∀ csp (b : list (list Z)) i j,
  engine_ok csp → square (n csp) b → in_grid (n csp) (i, j) →
  ∃ r, admissible csp b i j = Some (r, set_checks csp (checks csp + 1)).

Variable csp0 : SudokuCSP.
Hypothesis csp0_ok : engine_ok csp0.

(** [Inv] holds of the boards the search passes through, [Sol] of the
    boards it must not give up. *)
Variable Inv : list (list Z) → Prop.
Variable Sol : list (list Z) → Prop.

Hypothesis step_true : ∀ x x' (b b1 : list (list Z)) i j vs v r,
  square (n csp0) b → in_grid (n csp0) (i, j) → board_get b i j = Some (-1) →
  candidates (set_checks csp0 x) b i j = Some vs → v ∈ vs → v ≠ -1 →
  board_set b i j v = Some b1 →
  admissible (set_checks csp0 x') b1 i j = Some (true, r) → Inv b → Inv b1.

Hypothesis step_false : ∀ x' (b b1 : list (list Z)) i j v r,
  square (n csp0) b → in_grid (n csp0) (i, j) → board_get b i j = Some (-1) →
  v ≠ -1 → board_set b i j v = Some b1 →
  admissible (set_checks csp0 x') b1 i j = Some (false, r) → ¬ Sol b1.

Hypothesis cover : ∀ x (b : list (list Z)) i j vs,
  square (n csp0) b → in_grid (n csp0) (i, j) → board_get b i j = Some (-1) →
  candidates (set_checks csp0 x) b i j = Some vs → Sol b →
  ∃ v b1, v ∈ vs ∧ board_set b i j v = Some b1 ∧ Sol b1.

(** The loop over the candidate values at an open cell. *)
Lemma try_values_search fuel i j (b : list (list Z)) vs0 x0 :
  (∀ (b' : list (list Z)) x o, square (n csp0) b' → Inv b' →
     backtrack select candidates admissible fuel b' (set_checks csp0 x) = Some o →
     if result o then Inv (boardAfter o) else ¬ Sol b') →
  square (n csp0) b → in_grid (n csp0) (i, j) → board_get b i j = Some (-1) → Inv b →
  candidates (set_checks csp0 x0) b i j = Some vs0 →
  ∀ vs x o, (∀ v, v ∈ vs → v ∈ vs0) → Forall (λ v, v ≠ -1) vs →
    try_values admissible (backtrack select candidates admissible fuel)
               i j vs b (set_checks csp0 x) = Some o →
    if result o then Inv (boardAfter o)
    else ∀ v b1, v ∈ vs → board_set b i j v = Some b1 → ¬ Sol b1.
Proof.
  intros IHfuel Hb Hij Hopen Hinv Hcand.
  induction vs as [|value vs IH]; intros x o Hsub Hvs Hrun.
  - simpl in Hrun. injection Hrun as <-. simpl. by intros v b1 ?%elem_of_nil.
  - apply Forall_cons in Hvs as [Hvalue Hvs]. cbn [try_values] in Hrun.
    destruct (board_set_Some (n csp0) b (i, j) value Hb Hij) as (b1 & Hset & Hb1).
    simpl in Hset. rewrite Hset in Hrun. cbn [mbind option_bind] in Hrun.
    pose proof (board_set_undo (n csp0) b b1 (i, j) value Hb Hij Hopen Hset) as Hundo.
    simpl in Hundo.
    assert (Hokx : ∀ y, engine_ok (set_checks csp0 y))
      by (intros y; by apply engine_ok_set_checks).
    destruct (admissible_Some (set_checks csp0 x) b1 i j) as (ok & Hadm); [done..|].
    rewrite Hadm in Hrun. cbn [mbind option_bind] in Hrun. simpl in Hrun.
    change (set_checks (set_checks csp0 x) (x + 1)) with (set_checks csp0 (x + 1)) in *.
    assert (Hrest : ∀ x' o',
              try_values admissible (backtrack select candidates admissible fuel)
                         i j vs b (set_checks csp0 x') = Some o' →
              ¬ Sol b1 →
              if result o' then Inv (boardAfter o')
              else ∀ v b2, v ∈ value :: vs → board_set b i j v = Some b2 → ¬ Sol b2).
    { intros x' o' Hrun' Hnot.
      specialize (IH x' o' (λ v Hv, Hsub v (list_elem_of_further _ _ _ Hv)) Hvs Hrun').
      destruct (result o'); [done|].
      intros v b2 [->|Hv]%elem_of_cons Hset2; [|by apply (IH v)].
      rewrite Hset in Hset2. by injection Hset2 as <-. }
    destruct ok.
    + destruct (backtrack select candidates admissible fuel b1 (set_checks csp0 (x + 1)))
        as [r|] eqn:Hr; [|done]. cbn [mbind option_bind] in Hrun.
      assert (Hinv1 : Inv b1).
      { apply (step_true x0 x b b1 i j vs0 value (set_checks csp0 (x + 1))); try done.
        apply Hsub. left. }
      pose proof (IHfuel b1 (x + 1) r Hb1 Hinv1 Hr) as Hres.
      destruct (backtrack_spec select candidates admissible
                  select_Some candidates_Some admissible_Some fuel b1
                  (set_checks csp0 (x + 1)) (Hokx _) Hb1) as [Hpost _].
      destruct (Hpost r Hr) as [(x' & Hx' & _) Hshape].
      destruct (result r) eqn:Hrr.
      * injection Hrun as <-. by rewrite Hrr.
      * destruct Hshape as (Hba & _). rewrite Hba, Hundo in Hrun.
        cbn [mbind option_bind] in Hrun. rewrite Hx' in Hrun.
        by apply (Hrest x' o).
    + rewrite Hundo in Hrun. cbn [mbind option_bind] in Hrun.
      apply (Hrest (x + 1) o Hrun).
      by apply (step_false x b b1 i j value (set_checks csp0 (x + 1))).
Qed.

(** A success ends on a board of [Inv]; a failure means that the board on
    entry was not in [Sol]. *)
Lemma backtrack_search fuel :
  ∀ (b : list (list Z)) x o, square (n csp0) b → Inv b →
    backtrack select candidates admissible fuel b (set_checks csp0 x) = Some o →
    if result o then Inv (boardAfter o) else ¬ Sol b.
Proof.
  induction fuel as [|fuel IH]; intros b x o Hb Hinv Hrun; [done|].
  cbn [backtrack] in Hrun.
  assert (Hokx : engine_ok (set_checks csp0 x)) by (by apply engine_ok_set_checks).
  destruct (select_Some (set_checks csp0 x) b Hokx Hb) as ([i j] & Hsel & Hc).
  rewrite Hsel in Hrun. cbn [mbind option_bind] in Hrun.
  destruct Hc as [[[= -> ->] Hcomp]|[Hij Hopen]].
  - rewrite decide_True in Hrun by done. by injection Hrun as <-.
  - rewrite decide_False in Hrun by (destruct Hij as [Hi _]; simpl in Hi; lia).
    destruct (candidates_Some (set_checks csp0 x) b i j Hokx Hb Hij) as (vs & Hcand & Hvs).
    rewrite Hcand in Hrun. cbn [mbind option_bind] in Hrun.
    pose proof (try_values_search fuel i j b vs x IH Hb Hij Hopen Hinv Hcand
                  vs x o (λ v Hv, Hv) Hvs Hrun) as Hres.
    destruct (result o); [done|]. intros Hsol.
    destruct (cover x b i j vs Hb Hij Hopen Hcand Hsol) as (v & b1 & Hv & Hset & Hsol1).
    by apply (Hres v b1).
Qed.

End BacktrackingSearch.

(** One admissible assignment, seen from the board on entry. *)
Lemma reached_step csp0 x' (b0 b b1 : board) i j v r :
  engine_ok csp0 → square (n csp0) b → in_grid (n csp0) (i, j) →
  board_get b i j = Some (-1) → 1 ≤ v ≤ n csp0 → board_set b i j v = Some b1 →
  check (set_checks csp0 x') b1 i j true = Some (true, r) →
  reached csp0 b0 b → reached csp0 b0 b1.
Proof.
  intros Hok Hb Hij Hopen Hv Hset Hchk [Hext Himp]. split.
  - by apply (extends_set (n csp0) b0 b b1 (i, j) v).
  - intros Hvals Hcons. destruct (Himp Hvals Hcons) as [Hvals' Hcons']. split.
    + by apply (values_ok_set (n csp0) b b1 (i, j) v).
    + apply (check_true_step (set_checks csp0 x') b b1 i j v r); try done. apply Hok.
Qed.

Lemma domain_bounds csp vs v :
  engine_ok csp → Some (set_iter (getDomain csp)) = Some vs → v ∈ vs → 1 ≤ v ≤ n csp.
Proof. intros (_ & _ & Hdom & _) [= <-] Hv%set_iter_elem_of. by apply Hdom. Qed.

Lemma getLCVList_bounds csp (b : board) i j vs v :
  engine_ok csp → square (n csp) b → in_grid (n csp) (i, j) →
  getLCVList csp b i j = Some vs → v ∈ vs → 1 ≤ v ≤ n csp.
Proof.
  intros Hok Hb Hij Hrun Hv. pose proof Hok as (Hvc & Hd & _).
  destruct (getLCVList_Some csp b i j Hvc Hd Hb Hij) as (lv & un & Hlv & _ & Hrun' & Hperm).
  rewrite Hrun' in Hrun. injection Hrun as <-. rewrite Hperm in Hv.
  apply set_iter_elem_of in Hv.
  apply (legal_values_bounds csp b i j lv v Hok Hb Hij Hlv Hv).
Qed.

(** What a run of each of the four drivers means for the board it was
    given. *)
Lemma driver_family_search driver select (b : board) csp fuel o :
  (driver, select) ∈ driver_family →
  engine_ok csp → square (n csp) b → driver fuel b csp = Some o →
  driver_post b csp o ∧
  if result o then reached csp b (boardAfter o) else ¬ solvable csp b.
Proof.
  intros Hin Hok Hb Hrun. unfold driver_family in Hin.
  assert (Hokx : ∀ y, engine_ok (set_checks csp y))
    by (intros y; by apply engine_ok_set_checks).
  assert (Hinv : reached csp b b) by (split; [apply extends_refl|done]).
  rewrite <- (set_checks_id csp) in Hrun.
  repeat (apply elem_of_cons in Hin as [Hin|Hin]; [injection Hin as -> ->|]).
  - split.
    + rewrite set_checks_id in Hrun. revert o Hrun.
      apply backtrack_spec; [|apply domain_candidates|apply check_admissible|done..].
      intros csp' b' _. apply getFirstOpenCell_Some.
    + revert Hrun. apply (backtrack_search getFirstOpenCell
        (λ csp b i j, Some (set_iter (getDomain csp))) (λ csp b i j, check csp b i j true)
        ltac:(intros csp' b' _; apply getFirstOpenCell_Some)
        domain_candidates check_admissible csp Hok (reached csp b) (solvable csp));
        [| | |done..].
      * intros x x' b1 b2 i j vs v r Hb1 Hij Hopen Hc Hv Hne Hset Hadm.
        apply (reached_step csp x' b b1 b2 i j v r); try done.
        by apply (domain_bounds (set_checks csp x) vs v).
      * intros x' b1 b2 i j v r Hb1 Hij Hopen Hne Hset Hadm.
        apply (check_false_step (set_checks csp x') b1 b2 i j v r); try done. apply Hok.
      * intros x b1 i j vs Hb1 Hij Hopen [= <-] Hsol.
        by apply (domain_cover (set_checks csp x) b1 i j).
  - split.
    + rewrite set_checks_id in Hrun. revert o Hrun.
      apply backtrack_spec;
        [apply getOpenCellMRV_Some|apply getLCVList_candidates|apply check_admissible|done..].
    + revert Hrun. apply (backtrack_search getOpenCellMRV getLCVList
        (λ csp b i j, check csp b i j true)
        getOpenCellMRV_Some getLCVList_candidates check_admissible
        csp Hok (reached csp b) (solvable csp)); [| | |done..].
      * intros x x' b1 b2 i j vs v r Hb1 Hij Hopen Hc Hv Hne Hset Hadm.
        apply (reached_step csp x' b b1 b2 i j v r); try done.
        by apply (getLCVList_bounds (set_checks csp x) b1 i j vs v).
      * intros x' b1 b2 i j v r Hb1 Hij Hopen Hne Hset Hadm.
        apply (check_false_step (set_checks csp x') b1 b2 i j v r); try done. apply Hok.
      * intros x b1 i j vs Hb1 Hij Hopen Hc Hsol.
        apply (getLCVList_cover (set_checks csp x) b1 i j vs); try done; apply Hok.
  - split.
    + rewrite set_checks_id in Hrun. revert o Hrun.
      apply backtrack_spec;
        [apply getOpenCellMRV_Some|apply getLCVList_candidates|apply check_fwd_admissible
        |done..].
    + revert Hrun. apply (backtrack_search getOpenCellMRV getLCVList check_fwd
        getOpenCellMRV_Some getLCVList_candidates check_fwd_admissible
        csp Hok (reached csp b) (solvable csp)); [| | |done..].
      * intros x x' b1 b2 i j vs v r Hb1 Hij Hopen Hc Hv Hne Hset Hadm.
        apply check_fwd_true in Hadm.
        apply (reached_step csp x' b b1 b2 i j v r); try done.
        by apply (getLCVList_bounds (set_checks csp x) b1 i j vs v).
      * intros x' b1 b2 i j v r Hb1 Hij Hopen Hne Hset Hadm.
        apply (check_fwd_false_step (set_checks csp x') b1 b2 i j v r); try done; apply Hok.
      * intros x b1 i j vs Hb1 Hij Hopen Hc Hsol.
        apply (getLCVList_cover (set_checks csp x) b1 i j vs); try done; apply Hok.
  - split.
    + rewrite set_checks_id in Hrun. revert o Hrun.
      apply backtrack_spec;
        [apply getOpenCellMRV_Some|apply getLCVList_candidates|apply check_admissible|done..].
    + revert Hrun. apply (backtrack_search getOpenCellMRV getLCVList
        (λ csp b i j, check csp b i j true)
        getOpenCellMRV_Some getLCVList_candidates check_admissible
        csp Hok (reached csp b) (solvable csp)); [| | |done..].
      * intros x x' b1 b2 i j vs v r Hb1 Hij Hopen Hc Hv Hne Hset Hadm.
        apply (reached_step csp x' b b1 b2 i j v r); try done.
        by apply (getLCVList_bounds (set_checks csp x) b1 i j vs v).
      * intros x' b1 b2 i j v r Hb1 Hij Hopen Hne Hset Hadm.
        apply (check_false_step (set_checks csp x') b1 b2 i j v r); try done. apply Hok.
      * intros x b1 i j vs Hb1 Hij Hopen Hc Hsol.
        apply (getLCVList_cover (set_checks csp x) b1 i j vs); try done; apply Hok.
  - by apply elem_of_nil in Hin.
Qed.

(** A full board without conflict passes checkAll. *)
Lemma consistent_checkAll self (b : board) :
  valid_config self → square (n self) b → complete b → consistent self b →
  fst <$> checkAll self b = Some true.
Proof.
  intros Hv Hb Hcomp Hcons.
  destruct (checkAll_Some self b Hv Hb) as (r & -> & Hiff). simpl. f_equal. apply Hiff.
  apply no_conflict_units; [done|]. intros c c' v Hc Hnb Hget Hget'.
  apply (Hcons c c' v Hc Hnb); [|done..]. intros ->.
  by apply (complete_no_open b c.1 c.2).
Qed.

(** X11: each of the four recursive drivers is sound.  On a board whose
    assigned cells hold values of [1, n] and do not conflict, a success
    returns a board that keeps every assigned cell of the board on entry, is
    full with values of [1, n], has no two neighbouring cells with the same
    value, and passes checkAll. *)
Theorem drivers_sound driver select (b : board) csp fuel o :
  (driver, select) ∈ driver_family →
  engine_ok csp → square (n csp) b → values_ok (n csp) b → consistent csp b →
  driver fuel b csp = Some o → result o = true →
  extends (n csp) b (resultBoard o) ∧ filled csp (resultBoard o) ∧
  consistent csp (resultBoard o) ∧
  fst <$> checkAll csp (resultBoard o) = Some true.
Proof.
  intros Hin Hok Hb Hvals Hcons Hrun Hres.
  destruct (driver_family_search driver select b csp fuel o Hin Hok Hb Hrun)
    as [[_ Hpost] Hsearch].
  rewrite Hres in Hpost, Hsearch. destruct Hpost as (-> & Hsq & Hcomp).
  destruct Hsearch as [Hext Himp]. destruct (Himp Hvals Hcons) as [Hvals' Hcons'].
  split_and!; [done| |done|].
  - apply (square_Forall (n csp)); [done|]. intros c v Hc Hget.
    destruct (Hvals' c v Hc Hget) as [->|?]; [|done].
    by apply (complete_no_open (boardAfter o) c.1 c.2) in Hget.
  - apply consistent_checkAll; [apply Hok|done..].
Qed.

(** X12: each of the four recursive drivers is complete.  A failure means
    that the board on entry has no solution: no full board without conflict
    keeps its assigned cells and takes every value from the domain and from
    the domain of its cell. *)
Theorem drivers_complete driver select (b : board) csp fuel o :
  (driver, select) ∈ driver_family →
  engine_ok csp → square (n csp) b →
  driver fuel b csp = Some o → result o = false →
  ¬ ∃ s, solution csp s ∧ extends (n csp) b s.
Proof.
  intros Hin Hok Hb Hrun Hres.
  destruct (driver_family_search driver select b csp fuel o Hin Hok Hb Hrun)
    as [_ Hsearch].
  rewrite Hres in Hsearch. exact Hsearch.
Qed.

(** A true answer of isSatisfiable means that the given cells do not
    conflict. *)
Lemma isSatisfiable_consistent self ib :
  valid_config self → initialBoard self = Some ib → square (n self) ib →
  fst <$> isSatisfiable self = Some true → consistent self ib.
Proof.
  intros Hv Hib Hsq Hsat.
  destruct (isSatisfiable_Some self ib Hib Hv Hsq) as (rs & Hrs & Hsiff).
  rewrite Hrs in Hsat. simpl in Hsat. injection Hsat as ->.
  intros c c' v Hc Hnb Hne Hg Hg'. assert (true = false); [|done].
  apply Hsiff. by exists c, c', v.
Qed.

Lemma givens_valid_values_ok self (b : board) :
  givens_valid self b → values_ok (n self) b.
Proof.
  intros Hgiv c v Hc Hget. destruct (decide (v = -1)) as [?|Hne]; [by left|right].
  by apply (givens_valid_bounds self b c.1 c.2).
Qed.

Lemma init_engine_ok n0 m0 k0 ib :
  valid_config (init n0 m0 k0 None) → engine_ok (init n0 m0 k0 ib).
Proof.
  intros Hv. split_and!.
  - done.
  - intros rd Hrd. discriminate Hrd.
  - intros v Hin. unfold init, domain in Hin.
    apply elem_of_list_to_set, elem_of_range2 in Hin. simpl. lia.
  - intros rd i j d v Hrd. discriminate Hrd.
Qed.

Lemma drivers_sound_witness :
  extends 4 [[1;-1;-1;4];[-1;-1;1;-1];[-1;1;-1;-1];[4;-1;-1;1]]
            [[1;3;2;4];[2;4;1;3];[3;1;4;2];[4;2;3;1]] ∧
  filled (init 4 2 2 None) [[1;3;2;4];[2;4;1;3];[3;1;4;2];[4;2;3;1]] ∧
  consistent (init 4 2 2 None) [[1;3;2;4];[2;4;1;3];[3;1;4;2];[4;2;3;1]] ∧
  fst <$> checkAll (init 4 2 2 None) [[1;3;2;4];[2;4;1;3];[3;1;4;2];[4;2;3;1]] = Some true.
Proof.
  apply (drivers_sound backtrackingMRVfwdRecursive getOpenCellMRV
           [[1;-1;-1;4];[-1;-1;1;-1];[-1;1;-1;-1];[4;-1;-1;1]] (init 4 2 2 None) 13
           (mkOutcome true [[1;3;2;4];[2;4;1;3];[3;1;4;2];[4;2;3;1]]
                      [[1;3;2;4];[2;4;1;3];[3;1;4;2];[4;2;3;1]]
                      (set_checks (init 4 2 2 None) 10))).
  - unfold driver_family. do 2 apply list_elem_of_further. apply list_elem_of_here.
  - apply init_engine_ok. unfold valid_config. simpl.
    split_and!; [lia..|reflexivity|reflexivity].
  - split; [reflexivity|]. repeat constructor.
  - apply (givens_valid_values_ok (init 4 2 2 None)).
    unfold givens_valid. simpl. repeat constructor; lia.
  - apply (isSatisfiable_consistent
             (init 4 2 2 (Some [[1;-1;-1;4];[-1;-1;1;-1];[-1;1;-1;-1];[4;-1;-1;1]]))).
    + unfold valid_config. simpl. split_and!; [lia..|reflexivity|reflexivity].
    + reflexivity.
    + split; [reflexivity|]. repeat constructor.
    + vm_compute. reflexivity.
  - vm_compute. reflexivity.
  - reflexivity.
Defined.

Lemma drivers_complete_witness :
  ¬ ∃ s, solution (init 4 2 2 None) s ∧
         extends 4 [[1;2;3;-1];[-1;-1;-1;4];[-1;-1;-1;-1];[-1;-1;-1;-1]] s.
Proof.
  apply (drivers_complete backtrackingRecursive getFirstOpenCell
           [[1;2;3;-1];[-1;-1;-1;4];[-1;-1;-1;-1];[-1;-1;-1;-1]] (init 4 2 2 None) 16
           (mkOutcome false [[]] [[1;2;3;-1];[-1;-1;-1;4];[-1;-1;-1;-1];[-1;-1;-1;-1]]
                      (set_checks (init 4 2 2 None) 4))).
  - unfold driver_family. apply list_elem_of_here.
  - apply init_engine_ok. unfold valid_config. simpl.
    split_and!; [lia..|reflexivity|reflexivity].
  - split; [reflexivity|]. repeat constructor.
  - vm_compute. reflexivity.
  - reflexivity.
Defined.

(** *** Arc consistency keeps the solutions *)

(** A value leaves the domain of [x] only when the domain of [y] holds
    nothing else, so never the value of a board that differs at [x] and
    [y]. *)
Lemma revise_value_admits sz (s : board) x y (st st' : list (list (gset Z)) * bool) xval :
  square sz s → in_grid sz x → in_grid sz y →
  (∀ v, board_get s x.1 x.2 = Some v → board_get s y.1 y.2 = Some v → False) →
  revise_value x y st xval = Some st' →
  square sz st.1 ∧ admits sz st.1 s → square sz st'.1 ∧ admits sz st'.1 s.
Proof.
  intros Hs Hx Hy Hdiff Hrun [Hsq Hadm]. destruct st as [rd removed].
  unfold revise_value in Hrun. simpl in Hsq, Hadm.
  destruct (grid_get rd y.1 y.2) as [dy|] eqn:Hdy; [|done]. cbn [mbind option_bind] in Hrun.
  destruct (decide (len_set (dy ∖ {[xval]}) = 0)) as [Hz|Hnz];
    [|by injection Hrun as <-].
  destruct (grid_get rd x.1 x.2) as [dx|] eqn:Hdx; [|done]. cbn [mbind option_bind] in Hrun.
  destruct (decide (xval ∈ dx)) as [Hin|Hnin]; [|done].
  destruct (grid_set rd x.1 x.2 (dx ∖ {[xval]})) as [rd'|] eqn:Hset; [|done].
  cbn [mbind option_bind] in Hrun. injection Hrun as <-. simpl. split.
  - apply (grid_set_square sz rd rd' x _ Hsq Hx Hset).
  - intros c v d Hc Hv Hd. destruct (decide (c = x)) as [->|Hcx].
    + rewrite (grid_get_set_eq sz rd rd' x _ Hsq Hx Hset) in Hd. injection Hd as <-.
      apply elem_of_difference. split; [by apply (Hadm x v dx)|].
      rewrite elem_of_singleton. intros ->.
      destruct (board_get_Some sz s y Hs Hy) as [vy Hvy].
      pose proof (Hadm y vy dy Hy Hvy Hdy) as Hiny.
      assert (vy = xval) as ->; [|by apply (Hdiff xval)].
      destruct (decide (vy = xval)) as [?|Hne]; [done|]. exfalso.
      assert (Hmem : vy ∈ dy ∖ {[xval]}) by set_solver.
      unfold len_set in Hz. assert (Hempty : size (dy ∖ {[xval]}) = 0%nat) by lia.
      apply size_empty_iff in Hempty. set_solver.
    + rewrite (grid_get_set_ne sz rd rd' x c _ Hsq Hx Hc Hcx Hset) in Hd.
      by apply (Hadm c v d).
Qed.

Lemma ac_step_admits self (s : board) (rd rd' : list (list (gset Z))) x y arcs arcs' :
  square (n self) s → in_grid (n self) x → in_grid (n self) y →
  (∀ v, board_get s x.1 x.2 = Some v → board_get s y.1 y.2 = Some v → False) →
  ac_step self rd x y arcs = Some (rd', arcs') →
  square (n self) rd ∧ admits (n self) rd s → square (n self) rd' ∧ admits (n self) rd' s.
Proof.
  intros Hs Hx Hy Hdiff Hrun Hinv. unfold ac_step in Hrun.
  destruct (grid_get rd x.1 x.2) as [dx|]; [|done]. cbn [mbind option_bind] in Hrun.
  destruct (for_each (revise_value x y) (rd, false) (set_iter dx)) as [[rd1 removed]|] eqn:Hloop;
    [|done].
  cbn [mbind option_bind] in Hrun.
  assert (Hinv1 : square (n self) rd1 ∧ admits (n self) rd1 s).
  { apply (for_each_invariant
             (λ st : list (list (gset Z)) * bool,
                square (n self) st.1 ∧ admits (n self) st.1 s)
             (revise_value x y) (set_iter dx)) in Hloop; [done| |done].
    intros st xval st' Hst. by apply (revise_value_admits (n self) s x y st st' xval). }
  destruct removed.
  - destruct (getNeighbours self x.1 x.2); [|done]. by injection Hrun as <- _.
  - by injection Hrun as <- _.
Qed.

(** A full board without conflict differs at neighbouring cells. *)
Lemma solution_differs self (s : board) x y v :
  complete s → consistent self s → in_grid (n self) x → neighbour self x y →
  board_get s x.1 x.2 = Some v → board_get s y.1 y.2 = Some v → False.
Proof.
  intros Hcomp Hcons Hx Hnb Hv Hv'. apply (Hcons x y v Hx Hnb); [|done..].
  intros ->. by apply (complete_no_open s x.1 x.2).
Qed.

Lemma ac_loop_admits self ib (s : board) :
  valid_config self → square (n self) s → complete s → consistent self s →
  ∀ fuel (rd rd' : list (list (gset Z))) arcs,
    arcs_ok self ib arcs → (∀ x y, (x, y) ∈ arcs → neighbour self x y) →
    ac_loop fuel self rd arcs = Some rd' →
    square (n self) rd ∧ admits (n self) rd s → admits (n self) rd' s.
Proof.
  intros Hv Hs Hcomp Hcons.
  induction fuel as [|fuel IH]; intros rd rd' arcs Harcs Hnbs Hrun Hinv.
  { destruct arcs as [|[x y] arcs]; [|done]. injection Hrun as <-. apply Hinv. }
  destruct arcs as [|[x y] arcs]; [injection Hrun as <-; apply Hinv|].
  cbn [ac_loop] in Hrun.
  destruct (Harcs x y) as (Hx & Hy & Hopen); [left|].
  pose proof (Hnbs x y ltac:(left)) as Hnb.
  destruct (ac_step_Some self rd x y arcs Hv (proj1 Hinv) Hx Hy)
    as (rd1 & arcs1 & Hstep & _ & _ & _ & Hcase).
  rewrite Hstep in Hrun. cbn [mbind option_bind] in Hrun.
  apply (IH rd1 rd' arcs1); [| |done|].
  - destruct Hcase as [[-> ->]|(_ & nb & Hnb' & ->)].
    + intros ???; apply Harcs; by right.
    + apply arcs_ok_app; [intros ???; apply Harcs; by right|].
      by apply (arcs_ok_from self ib x nb).
  - destruct Hcase as [[-> ->]|(_ & nb & Hnb' & ->)].
    + intros ???; apply Hnbs; by right.
    + intros x' y' [Hin|Hin]%elem_of_app; [apply Hnbs; by right|].
      unfold arcs_from in Hin.
      apply list_elem_of_fmap in Hin as (y'' & [= -> ->] & Hy''%set_iter_elem_of).
      destruct (getNeighbours_neighbour self x Hv Hx) as (nb2 & Hnb2 & Hmem).
      rewrite Hnb' in Hnb2. injection Hnb2 as <-. by apply Hmem.
  - apply (ac_step_admits self s rd rd1 x y arcs arcs1); try done.
    intros v. by apply (solution_differs self s x y v).
Qed.

(** The arcs of the initial worklist join neighbouring cells. *)
Lemma ac_init_arcs self (rd : list (list (gset Z))) arcs :
  valid_config self → ac_init self = Some (rd, arcs) →
  ∀ x y, (x, y) ∈ arcs → in_grid (n self) x → neighbour self x y.
Proof.
  intros Hv Hrun. unfold ac_init in Hrun.
  refine (for_each_invariant
            (λ st : list (list (gset Z)) * list (Z * Z * (Z * Z)),
               ∀ x y, (x, y) ∈ st.2 → in_grid (n self) x → neighbour self x y)
            _ _ _ _ (rd, arcs) Hrun _).
  - intros [rd0 arcs0] c st' Hbody Hinv. simpl in Hinv.
    destruct (initialBoard self) as [ib|]; [|done]. cbn [mbind option_bind] in Hbody.
    unfold init_cell in Hbody.
    destruct (board_get ib c.1 c.2) as [v|]; [|done]. cbn [mbind option_bind] in Hbody.
    destruct (decide (v = -1)) as [->|Hne].
    + destruct (getNeighbours self c.1 c.2) as [nb|] eqn:Hnb; [|done].
      injection Hbody as <-. simpl.
      intros x y [Hin|Hin]%elem_of_app Hx; [by apply Hinv|].
      apply list_elem_of_fmap in Hin as (y' & [= -> ->] & Hy'%set_iter_elem_of).
      destruct (getNeighbours_neighbour self c Hv Hx) as (nb2 & Hnb2 & Hmem).
      rewrite Hnb in Hnb2. injection Hnb2 as <-. by apply Hmem.
    + destruct (grid_set rd0 c.1 c.2 {[v]}); [|done]. by injection Hbody as <-.
  - simpl. by intros x y ?%elem_of_nil.
Qed.

(** The reduced domains admit every full board without conflict that keeps
    the given cells and takes its values from the domain. *)
Lemma computeReducedDomains_sound_aux self ib (s : board) :
  valid_config self → initialBoard self = Some ib → square (n self) ib →
  square (n self) s → complete s → consistent self s → extends (n self) ib s →
  (∀ c v, in_grid (n self) c → board_get s c.1 c.2 = Some v → v ∈ domain self) →
  ∃ rd, computeReducedDomains self = Some (set_reducedDomains self (Some rd)) ∧
        admits (n self) rd s.
Proof.
  intros Hv Hib Hsq Hs Hcomp Hcons Hext Hdom.
  destruct (computeReducedDomains_Some self ib Hv Hib Hsq)
    as (rd0 & arcs & rd & Hinit & Hloop & Hrun & Hsq' & _).
  destruct (ac_init_Some self ib Hv Hib Hsq) as (rd0' & arcs' & Hinit' & Hsq0 & Harcs & Hdom0).
  rewrite Hinit in Hinit'. injection Hinit' as <- <-.
  exists rd. split; [done|].
  apply (ac_loop_admits self ib s Hv Hs Hcomp Hcons (ac_fuel self rd0 arcs) rd0 rd arcs
           Harcs); [|done|].
  - intros x y Hin. apply (ac_init_arcs self rd0 arcs Hv Hinit x y Hin).
    by destruct (Harcs x y Hin).
  - split; [done|]. intros c v d Hc Hget Hd.
    destruct (board_get_Some (n self) ib c Hsq Hc) as [w Hw].
    rewrite (Hdom0 c w Hc Hw) in Hd. injection Hd as <-.
    destruct (decide (w = -1)) as [->|Hne]; [by apply (Hdom c)|].
    pose proof (Hext c w Hc Hw Hne) as Hsw. rewrite Hget in Hsw. injection Hsw as ->.
    by apply elem_of_singleton.
Qed.

(** X13: the arc-consistency pass keeps every solution.  For a full n x n
    board without conflict that keeps the given cells of the initial board
    and takes its values from the domain, the value of every cell lies in
    the reduced domain that computeReducedDomains leaves for the cell. *)
Theorem computeReducedDomains_sound self ib (s : board) :
  valid_config self → initialBoard self = Some ib → square (n self) ib →
  square (n self) s → complete s → consistent self s → extends (n self) ib s →
  (∀ c v, in_grid (n self) c → board_get s c.1 c.2 = Some v → v ∈ domain self) →
  ∃ self', computeReducedDomains self = Some self' ∧
    ∀ c v, in_grid (n self) c → board_get s c.1 c.2 = Some v →
           ∃ d, getReducedDomain self' c.1 c.2 = Some d ∧ v ∈ d.
Proof.
  intros Hv Hib Hsq Hs Hcomp Hcons Hext Hdom.
  destruct (computeReducedDomains_sound_aux self ib s Hv Hib Hsq Hs Hcomp Hcons Hext Hdom)
    as (rd & Hrun & Hadm).
  destruct (computeReducedDomains_Some self ib Hv Hib Hsq)
    as (_ & _ & rd' & _ & _ & Hrun' & Hsq' & _).
  rewrite Hrun in Hrun'. injection Hrun' as <-.
  exists (set_reducedDomains self (Some rd)). split; [done|].
  intros c v Hc Hget. unfold getReducedDomain. simpl.
  destruct (grid_get_Some (n self) rd c Hsq' Hc) as [d Hd]. exists d. split; [done|].
  by apply (Hadm c v d).
Qed.

Lemma computeReducedDomains_sound_witness :
  ∃ self',
    computeReducedDomains
      (init 4 2 2 (Some [[1;-1;-1;4];[-1;-1;1;-1];[-1;1;-1;-1];[4;-1;-1;1]])) = Some self' ∧
    ∀ c v, in_grid 4 c →
           board_get [[1;3;2;4];[2;4;1;3];[3;1;4;2];[4;2;3;1]] c.1 c.2 = Some v →
           ∃ d, getReducedDomain self' c.1 c.2 = Some d ∧ v ∈ d.
Proof.
  apply (computeReducedDomains_sound
           (init 4 2 2 (Some [[1;-1;-1;4];[-1;-1;1;-1];[-1;1;-1;-1];[4;-1;-1;1]]))
           [[1;-1;-1;4];[-1;-1;1;-1];[-1;1;-1;-1];[4;-1;-1;1]]
           [[1;3;2;4];[2;4;1;3];[3;1;4;2];[4;2;3;1]]).
  - unfold valid_config. simpl. split_and!; [lia..|reflexivity|reflexivity].
  - reflexivity.
  - split; [reflexivity|]. repeat constructor.
  - split; [reflexivity|]. repeat constructor.
  - unfold complete. repeat constructor; lia.
  - apply (isSatisfiable_consistent
             (init 4 2 2 (Some [[1;3;2;4];[2;4;1;3];[3;1;4;2];[4;2;3;1]]))).
    + unfold valid_config. simpl. split_and!; [lia..|reflexivity|reflexivity].
    + reflexivity.
    + split; [reflexivity|]. repeat constructor.
    + vm_compute. reflexivity.
  - intros [i j] v [Hi Hj] Hget Hne. simpl in *.
    assert (Hi' : i = 0 ∨ i = 1 ∨ i = 2 ∨ i = 3) by lia.
    assert (Hj' : j = 0 ∨ j = 1 ∨ j = 2 ∨ j = 3) by lia.
    destruct Hi' as [-> | [-> | [-> | ->]]], Hj' as [-> | [-> | [-> | ->]]];
      vm_compute in Hget; injection Hget as <-; done.
  - intros [i j] v [Hi Hj] Hget. simpl in Hi, Hj, Hget.
    assert (Hi' : i = 0 ∨ i = 1 ∨ i = 2 ∨ i = 3) by lia.
    assert (Hj' : j = 0 ∨ j = 1 ∨ j = 2 ∨ j = 3) by lia.
    unfold init, domain. apply elem_of_list_to_set, elem_of_range2.
    destruct Hi' as [-> | [-> | [-> | ->]]], Hj' as [-> | [-> | [-> | ->]]];
      vm_compute in Hget; injection Hget as <-; lia.
Defined.

(** *** The entry points *)

Lemma getitem_lookup {A} (l : list A) i x :
  getitem l i = Some x → ∃ a : nat, l !! a = Some x.
Proof. unfold getitem. repeat case_decide; [by eexists..|done]. Qed.

(** Whatever index reads an entry of a grid, the entry is the one of a cell
    of the grid. *)
Lemma grid_get_in_grid {A} sz (g : list (list A)) i j d :
  square sz g → grid_get g i j = Some d →
  ∃ c, in_grid sz c ∧ grid_get g c.1 c.2 = Some d.
Proof.
  intros [Hlen Hrows] (row & Hrow & Hd)%bind_Some.
  apply getitem_lookup in Hrow as [a Ha]. apply getitem_lookup in Hd as [a' Ha'].
  pose proof (lookup_lt_Some _ _ _ Ha) as Hlt. pose proof (lookup_lt_Some _ _ _ Ha') as Hlt'.
  rewrite Forall_lookup in Hrows. pose proof (Hrows a row Ha) as Hrl.
  exists (Z.of_nat a, Z.of_nat a'). split; [split; simpl; lia|]. simpl.
  rewrite grid_get_nonneg by lia. by rewrite !Nat2Z.id, Ha.
Qed.

Lemma driver_family_total driver select (b : board) csp fuel :
  (driver, select) ∈ driver_family →
  engine_ok csp → square (n csp) b → (open_count b < fuel)%nat →
  is_Some (driver fuel b csp).
Proof.
  intros Hin Hok Hb. unfold driver_family in Hin.
  repeat (apply elem_of_cons in Hin as [Hin|Hin]; [injection Hin as -> ->|]).
  - apply backtrack_spec; [|apply domain_candidates|apply check_admissible|done..].
    intros csp' b' _. apply getFirstOpenCell_Some.
  - apply backtrack_spec;
      [apply getOpenCellMRV_Some|apply getLCVList_candidates|apply check_admissible|done..].
  - apply backtrack_spec;
      [apply getOpenCellMRV_Some|apply getLCVList_candidates|apply check_fwd_admissible
      |done..].
  - apply backtrack_spec;
      [apply getOpenCellMRV_Some|apply getLCVList_candidates|apply check_admissible|done..].
  - by apply elem_of_nil in Hin.
Qed.

(** A driver run on the engine of an entry point: the engine of the puzzle,
    with or without an initial board and reduced domains that keep the
    solutions of the puzzle. *)
Lemma driver_entry driver select ib rdo n0 m0 k0 (b : board) fuel :
  (driver, select) ∈ driver_family →
  engine_ok (set_reducedDomains (init n0 m0 k0 ib) rdo) →
  square n0 b → givens_valid (init n0 m0 k0 None) b →
  consistent (init n0 m0 k0 None) b → (open_count b < fuel)%nat →
  (∀ s, solution (init n0 m0 k0 None) s → extends n0 b s →
        solution (set_reducedDomains (init n0 m0 k0 ib) rdo) s) →
  ∃ o, driver fuel b (set_reducedDomains (init n0 m0 k0 ib) rdo) = Some o ∧
    0 ≤ checks (engineAfter o) ∧
    ((solution (init n0 m0 k0 None) (resultBoard o) ∧ extends n0 b (resultBoard o)) ∨
     (resultBoard o = [[]] ∧ ¬ solvable (init n0 m0 k0 None) b)).
Proof.
  intros Hin Hok Hb Hgiv Hcons Hfuel Hkeep.
  set (csp := set_reducedDomains (init n0 m0 k0 ib) rdo) in *.
  destruct (driver_family_total driver select b csp fuel Hin Hok Hb Hfuel) as [o Hrun].
  exists o. split; [done|].
  destruct (driver_family_search driver select b csp fuel o Hin Hok Hb Hrun)
    as [[(x & Hx & Hle) Hpost] Hsearch].
  split; [rewrite Hx; simpl in *; lia|].
  destruct (result o).
  - left. destruct Hpost as (-> & Hsq & Hcomp). destruct Hsearch as [Hext Himp].
    destruct Himp as [Hvals Hcons'].
    { apply (givens_valid_values_ok (init n0 m0 k0 None) b Hgiv). }
    { exact Hcons. }
    split; [|done]. split_and!; [done..|].
    intros c v Hc Hget.
    assert (Hin' : v ∈ domain (init n0 m0 k0 None)).
    { unfold init, domain. apply elem_of_list_to_set, elem_of_range2.
      destruct (Hvals c v Hc Hget) as [->|Hv]; [|simpl in Hv; lia].
      by apply (complete_no_open (boardAfter o) c.1 c.2) in Hget. }
    split; [done|]. by exists (domain (init n0 m0 k0 None)).
  - right. destruct Hpost as (_ & -> & _). split; [done|].
    intros (s & Hsol & Hext). apply Hsearch. exists s. split; [|done]. by apply Hkeep.
Qed.

(** The engine of backtrackingMRVcp after the arc-consistency pass. *)
Lemma cp_engine n0 m0 k0 (b : board) :
  valid_config (init n0 m0 k0 None) → square n0 b → givens_valid (init n0 m0 k0 None) b →
  ∃ rd,
    computeReducedDomains (init n0 m0 k0 (Some b))
      = Some (set_reducedDomains (init n0 m0 k0 (Some b)) (Some rd)) ∧
    engine_ok (set_reducedDomains (init n0 m0 k0 (Some b)) (Some rd)) ∧
    ∀ s, solution (init n0 m0 k0 None) s → extends n0 b s →
         solution (set_reducedDomains (init n0 m0 k0 (Some b)) (Some rd)) s.
Proof.
  intros Hv Hb Hgiv. assert (Hn : 0 < n0) by apply Hv.
  assert (Hib : initialBoard (init n0 m0 k0 (Some b)) = Some b).
  { unfold init. cbn [initialBoard]. by rewrite (square_truthy n0 b). }
  set (csp := init n0 m0 k0 (Some b)) in *.
  assert (Hvc : valid_config csp) by done.
  destruct (computeReducedDomains_Some csp b Hvc Hib Hb)
    as (rd0 & arcs & rd & _ & _ & Hrun & Hsq & Hres).
  exists rd. split; [done|]. split.
  - split_and!.
    + done.
    + intros rd' [= <-]. done.
    + intros v Hin. apply elem_of_list_to_set, elem_of_range2 in Hin. simpl. lia.
    + intros rd' i j d v [= <-] Hget Hin.
      destruct (grid_get_in_grid n0 rd i j d Hsq Hget) as (c & Hc & Hd).
      destruct (board_get_Some n0 b c Hb Hc) as [w Hw].
      destruct (Hres c w Hc Hw) as (d' & Hd' & Hcase).
      rewrite Hd in Hd'. injection Hd' as <-. simpl.
      destruct (decide (w = -1)) as [->|Hne].
      * apply Hcase in Hin. apply elem_of_list_to_set, elem_of_range2 in Hin. lia.
      * subst d. apply elem_of_singleton in Hin as ->.
        by apply (givens_valid_bounds (init n0 m0 k0 None) b c.1 c.2).
  - intros s (Hs & Hcomp & Hcons & Hdom) Hext.
    destruct (computeReducedDomains_sound_aux csp b s Hvc Hib Hb Hs Hcomp Hcons Hext)
      as (rd' & Hrun' & Hadm).
    { intros c v Hc Hget. by destruct (Hdom c v Hc Hget). }
    rewrite Hrun in Hrun'. injection Hrun' as <-.
    split_and!; [done..|]. intros c v Hc Hget.
    split; [by destruct (Hdom c v Hc Hget)|].
    destruct (grid_get_Some n0 rd c Hsq Hc) as [d Hd]. exists d. split.
    + unfold cell_domain. simpl. destruct rd as [|row rd]; [|done].
      destruct Hsq as [Hlen _]. simpl in Hlen. lia.
    + by apply (Hadm c v d).
Qed.

(** X14: the four entry points of the backtracking search decide the
    puzzle.  For a valid configuration, an n x n puzzle whose given cells
    hold values of [1, n] and do not conflict (isSatisfiable true), and fuel
    beyond the number of open cells, each of backtracking, backtrackingMRV,
    backtrackingMRVfwd and backtrackingMRVcp returns; the count is not
    negative; and either the board returned is a solution that keeps the
    given cells, or it is [[[]]] and the puzzle has no solution. *)
Theorem entry_points_decide entry n0 m0 k0 (b : board) fuel :
  entry ∈ entry_points →
  valid_config (init n0 m0 k0 None) → square n0 b →
  givens_valid (init n0 m0 k0 None) b →
  fst <$> isSatisfiable (init n0 m0 k0 (Some b)) = Some true →
  (open_count b < fuel)%nat →
  ∃ rb cnt, entry n0 m0 k0 b fuel = Some (rb, cnt) ∧ 0 ≤ cnt ∧
    ((solution (init n0 m0 k0 None) rb ∧ extends n0 b rb) ∨
     (rb = [[]] ∧ ¬ ∃ s, solution (init n0 m0 k0 None) s ∧ extends n0 b s)).
Proof.
  intros Hin Hv Hb Hgiv Hsat Hfuel. assert (Hn : 0 < n0) by apply Hv.
  assert (Hcons : consistent (init n0 m0 k0 None) b).
  { apply (isSatisfiable_consistent (init n0 m0 k0 (Some b)) b); [done| |done..].
    unfold init. cbn [initialBoard]. by rewrite (square_truthy n0 b). }
  assert (Hplain : ∀ driver select, (driver, select) ∈ driver_family →
            ∃ o, driver fuel b (init n0 m0 k0 None) = Some o ∧
              0 ≤ checks (engineAfter o) ∧
              ((solution (init n0 m0 k0 None) (resultBoard o) ∧
                extends n0 b (resultBoard o)) ∨
               (resultBoard o = [[]] ∧ ¬ solvable (init n0 m0 k0 None) b))).
  { intros driver select Hd.
    apply (driver_entry driver select None None n0 m0 k0 b fuel); try done.
    by apply init_engine_ok. }
  unfold entry_points in Hin.
  repeat (apply elem_of_cons in Hin as [->|Hin]).
  - destruct (Hplain backtrackingRecursive getFirstOpenCell) as (o & Hrun & Hcnt & Hres).
    { unfold driver_family. apply list_elem_of_here. }
    exists (resultBoard o), (checks (engineAfter o)).
    unfold backtracking. rewrite Hrun. done.
  - destruct (Hplain backtrackingMRVRecursive getOpenCellMRV) as (o & Hrun & Hcnt & Hres).
    { unfold driver_family. apply list_elem_of_further, list_elem_of_here. }
    exists (resultBoard o), (checks (engineAfter o)).
    unfold backtrackingMRV. rewrite Hrun. done.
  - destruct (Hplain backtrackingMRVfwdRecursive getOpenCellMRV) as (o & Hrun & Hcnt & Hres).
    { unfold driver_family. do 2 apply list_elem_of_further. apply list_elem_of_here. }
    exists (resultBoard o), (checks (engineAfter o)).
    unfold backtrackingMRVfwd. rewrite Hrun. done.
  - destruct (cp_engine n0 m0 k0 b Hv Hb Hgiv) as (rd & Hrd & Hok & Hkeep).
    destruct (driver_entry backtrackingMRVcpRecursive getOpenCellMRV (Some b) (Some rd)
                n0 m0 k0 b fuel) as (o & Hrun & Hcnt & Hres); try done.
    { unfold driver_family. do 3 apply list_elem_of_further. apply list_elem_of_here. }
    exists (resultBoard o), (checks (engineAfter o)).
    unfold backtrackingMRVcp. rewrite Hrd. cbn [mbind option_bind]. rewrite Hrun. done.
  - by apply elem_of_nil in Hin.
Qed.

Lemma entry_points_decide_witness :
  ∃ rb cnt,
    backtrackingMRVcp 4 2 2 [[1;-1;-1;4];[-1;-1;1;-1];[-1;1;-1;-1];[4;-1;-1;1]] 13
      = Some (rb, cnt) ∧ 0 ≤ cnt ∧
    ((solution (init 4 2 2 None) rb ∧
      extends 4 [[1;-1;-1;4];[-1;-1;1;-1];[-1;1;-1;-1];[4;-1;-1;1]] rb) ∨
     (rb = [[]] ∧
      ¬ ∃ s, solution (init 4 2 2 None) s ∧
             extends 4 [[1;-1;-1;4];[-1;-1;1;-1];[-1;1;-1;-1];[4;-1;-1;1]] s)).
Proof.
  apply (entry_points_decide backtrackingMRVcp 4 2 2
           [[1;-1;-1;4];[-1;-1;1;-1];[-1;1;-1;-1];[4;-1;-1;1]] 13).
  - unfold entry_points. do 3 apply list_elem_of_further. apply list_elem_of_here.
  - unfold valid_config. simpl. split_and!; [lia..|reflexivity|reflexivity].
  - split; [reflexivity|]. repeat constructor.
  - unfold givens_valid. simpl. repeat constructor; lia.
  - vm_compute. reflexivity.
  - vm_compute. lia.
Defined.

(** *** The single-cell check and the engine without initial board *)

(** X15: on a cell of the grid check returns; it answers true exactly when
    no neighbour of the cell holds the value of the cell, and the counter
    moves by one exactly when counting is on. *)
Theorem check_iff_neighbours self (b : board) i j incr :
  valid_config self → square (n self) b → in_grid (n self) (i, j) →
  ∃ s v r, getNeighbours self i j = Some s ∧ board_get b i j = Some v ∧
    check self b i j incr = Some (r, counted self incr) ∧
    (r = true ↔ ∀ c, c ∈ s → board_get b c.1 c.2 ≠ Some v).
Proof.
  intros Hv Hb Hij.
  destruct (getNeighbours_neighbour self (i, j) Hv Hij) as (s & Hs & Hmem).
  destruct (check_Some self b i j incr Hv Hb Hij) as (v & r & Hget & Hchk & Hr).
  exists s, v, r. split_and!; [done..|]. split.
  - intros -> c Hc Hget'. assert (true = false); [|done].
    apply Hr. exists c. split; [by apply Hmem|done].
  - intros Hfree. destruct r; [done|]. exfalso.
    destruct Hr as [Hex _]. destruct (Hex eq_refl) as (c & Hnb & Hget').
    by apply (Hfree c); [apply Hmem|].
Qed.

Lemma check_iff_neighbours_witness :
  ∃ s v r,
    getNeighbours (init 4 2 2 None) 0 1 = Some s ∧
    board_get [[1;1;-1;4];[-1;-1;1;-1];[-1;1;-1;-1];[4;-1;-1;1]] 0 1 = Some v ∧
    check (init 4 2 2 None) [[1;1;-1;4];[-1;-1;1;-1];[-1;1;-1;-1];[4;-1;-1;1]] 0 1 true
      = Some (r, counted (init 4 2 2 None) true) ∧
    (r = true ↔
     ∀ c, c ∈ s →
          board_get [[1;1;-1;4];[-1;-1;1;-1];[-1;1;-1;-1];[4;-1;-1;1]] c.1 c.2 ≠ Some v).
Proof.
  apply (check_iff_neighbours (init 4 2 2 None)
           [[1;1;-1;4];[-1;-1;1;-1];[-1;1;-1;-1];[4;-1;-1;1]] 0 1 true).
  - unfold valid_config. simpl. split_and!; [lia..|reflexivity|reflexivity].
  - split; [reflexivity|]. repeat constructor.
  - unfold in_grid. simpl. lia.
Defined.

Lemma all_cells_cons sz : 0 < sz → ∃ c cs, all_cells sz = c :: cs.
Proof.
  intros Hsz. destruct (all_cells sz) as [|c cs] eqn:Hcells; [|by eexists _, _].
  assert (Hin : (0, 0) ∈ all_cells sz) by (apply elem_of_all_cells; split; simpl; lia).
  rewrite Hcells in Hin. by apply elem_of_nil in Hin.
Qed.

(** X16: on an engine built without an initial board, as backtracking,
    backtrackingMRV and backtrackingMRVfwd build it, isSatisfiable answers
    false and leaves the counter alone, and computeReducedDomains and
    swapMinConflicts raise when the grid has a cell. *)
Theorem no_initial_board self (b : board) draw :
  initialBoard self = None → 0 < n self →
  isSatisfiable self = Some (false, self) ∧
  computeReducedDomains self = None ∧
  swapMinConflicts self draw b = None.
Proof.
  intros Hib Hn. destruct (all_cells_cons (n self) Hn) as (c & cs & Hcells).
  split_and!.
  - unfold isSatisfiable. by rewrite Hib.
  - unfold computeReducedDomains, ac_init. rewrite Hcells. cbn [for_each].
    by rewrite Hib.
  - unfold swapMinConflicts, conflictingCells. rewrite Hcells. cbn [for_each].
    cbn [snd]. by rewrite Hib.
Qed.

Lemma no_initial_board_witness :
  isSatisfiable (init 4 2 2 None) = Some (false, init 4 2 2 None) ∧
  computeReducedDomains (init 4 2 2 None) = None ∧
  swapMinConflicts (init 4 2 2 None) 0 [[1;2;2;4];[2;2;1;2];[2;1;2;2];[4;2;2;1]] = None.
Proof.
  apply (no_initial_board (init 4 2 2 None) [[1;2;2;4];[2;2;1;2];[2;1;2;2];[4;2;2;1]] 0%nat).
  - reflexivity.
  - simpl. lia.
Defined.
